(** * The application-state engine of socialflow-app: [ImmutableStateManager]

    A shallow embedding of [state-manager.js] (class [ImmutableStateManager]):
    JavaScript values, the snapshot object, the mutation entry point
    [setState] with its deferred body, the validator, change detection,
    subscriber notification, the cache layer, the optimistic toggles, the
    offline queue, durable storage and the submissions of the page itself;
    followed by the properties of that code. *)

From Stdlib Require Import List String Ascii ZArith Bool Lia Arith.
From Stdlib Require Import DecimalString.
Import ListNotations.
Open Scope string_scope.
Open Scope list_scope.

Set Implicit Arguments.
Set Warnings "-register-all".

(** ** JavaScript values *)

(** Objects are compared by identity in JavaScript ([===]); every object-like
    value therefore carries the address it was allocated at. *)
Definition loc := nat.

(** Numbers are modelled by integers (timestamps, counters, indexes); strings
    by byte strings.  Plain objects keep their own enumerable properties in
    insertion order; a [Map] keeps its entries and a [Set] its members in
    insertion order, as the language specifies. *)
Inductive value : Type :=
| VUndef
| VNull
| VBool (b : bool)
| VNum (n : Z)
| VStr (s : string)
| VObject (l : loc) (fields : list (string * value))
| VArray (l : loc) (items : list value)
| VMap (l : loc) (entries : list (value * value))
| VSet (l : loc) (members : list value)
| VFun (l : loc).

(** The fields of a plain object; the snapshot is one. *)
Definition object := list (string * value).

(** Errors that travel through [throw] / promise rejection. *)
Inductive error : Type :=
| InvalidStateStructure          (* new Error('Invalid state structure') *)
| TypeError                      (* raised by the language itself *)
| Failure (msg : string).        (* anything a collaborator throws *)

(** The result of evaluating a piece of synchronous code. *)
Inductive outcome (A : Type) : Type :=
| Normal (a : A)
| Throw (e : error).
Arguments Normal {A} a.
Arguments Throw {A} e.

(** [typeof v] *)
Definition typeof (v : value) : string :=
  match v with
  | VUndef => "undefined"
  | VNull => "object"
  | VBool _ => "boolean"
  | VNum _ => "number"
  | VStr _ => "string"
  | VObject _ _ | VArray _ _ | VMap _ _ | VSet _ _ => "object"
  | VFun _ => "function"
  end.

(** [a === b]: primitives by value, objects by identity. *)
Definition strict_eq (a b : value) : bool :=
  match a, b with
  | VUndef, VUndef => true
  | VNull, VNull => true
  | VBool x, VBool y => Bool.eqb x y
  | VNum x, VNum y => Z.eqb x y
  | VStr x, VStr y => String.eqb x y
  | VObject l _, VObject l' _ => Nat.eqb l l'
  | VArray l _, VArray l' _ => Nat.eqb l l'
  | VMap l _, VMap l' _ => Nat.eqb l l'
  | VSet l _, VSet l' _ => Nat.eqb l l'
  | VFun l, VFun l' => Nat.eqb l l'
  | _, _ => false
  end.

(** Truthiness ([if (v)], [v && ...], [v || ...]). *)
Definition truthy (v : value) : bool :=
  match v with
  | VUndef | VNull => false
  | VBool b => b
  | VNum n => negb (Z.eqb n 0%Z)
  | VStr s => match s with EmptyString => false | _ => true end
  | _ => true
  end.

(** ** Property access, Maps, Sets, Arrays *)

Fixpoint lookup (k : string) (o : object) : option value :=
  match o with
  | [] => None
  | (k', v) :: o' => if String.eqb k k' then Some v else lookup k o'
  end.

(** [o[k]] on a plain object's fields: [undefined] when the key is absent. *)
Definition field (o : object) (k : string) : value :=
  match lookup k o with Some v => v | None => VUndef end.

(** [v[k]] / [v.k] for a name [k] that no built-in prototype defines (every
    key this program reads is one): a [TypeError] on [undefined] and [null],
    the own property on a plain object, [undefined] on anything else. *)
Definition get_prop (v : value) (k : string) : outcome value :=
  match v with
  | VUndef | VNull => Throw TypeError
  | VObject _ fs => Normal (field fs k)
  | _ => Normal VUndef
  end.

(** [Object.keys] of a plain object's fields. *)
Definition keys (o : object) : list string := map fst o.

(** [o[k] = v] on freshly built fields: replace in place or append. *)
Fixpoint assign (k : string) (v : value) (o : object) : object :=
  match o with
  | [] => [(k, v)]
  | (k', v') :: o' =>
      if String.eqb k k' then (k, v) :: o' else (k', v') :: assign k v o'
  end.

(** [{...a, ...b}] *)
Definition spread (a b : object) : object :=
  fold_left (fun acc kv => assign (fst kv) (snd kv) acc) b
            (fold_left (fun acc kv => assign (fst kv) (snd kv) acc) a []).

(** [m.get(k)] on a Map's entries. *)
Fixpoint map_get (es : list (value * value)) (k : value) : value :=
  match es with
  | [] => VUndef
  | (k', v) :: es' => if strict_eq k' k then v else map_get es' k
  end.

(** [m.set(k, v)] *)
Fixpoint map_set (es : list (value * value)) (k v : value)
  : list (value * value) :=
  match es with
  | [] => [(k, v)]
  | (k', v') :: es' =>
      if strict_eq k' k then (k', v) :: es' else (k', v') :: map_set es' k v
  end.

(** [m.delete(k)] *)
Fixpoint map_delete (es : list (value * value)) (k : value)
  : list (value * value) :=
  match es with
  | [] => []
  | (k', v') :: es' =>
      if strict_eq k' k then es' else (k', v') :: map_delete es' k
  end.

(** [s.has(x)] on a Set's members, [xs.includes(x)] on an array of
    primitives. *)
Definition set_has (ms : list value) (x : value) : bool :=
  existsb (fun y => strict_eq y x) ms.

(** [s.add(x)] *)
Definition set_add (ms : list value) (x : value) : list value :=
  if set_has ms x then ms else ms ++ [x].

(** The members of [new Set(items)]. *)
Definition set_of (items : list value) : list value :=
  fold_left set_add items [].

(** The entries of [new Map(pairs)]. *)
Definition map_of (pairs : list (value * value)) : list (value * value) :=
  fold_left (fun acc kv => map_set acc (fst kv) (snd kv)) pairs [].

Definition chars (s : string) : list value :=
  map (fun c => VStr (String c EmptyString)) (list_ascii_of_string s).

(** Code that allocates objects and may throw: from the next free address
    to the result and the next free address after it. *)
Definition Alloc (A : Type) : Type := loc -> outcome (A * loc).

Definition aret {A} (a : A) : Alloc A := fun next => Normal (a, next).
Definition athrow {A} (e : error) : Alloc A := fun _ => Throw e.
Definition abind {A B} (c : Alloc A) (k : A -> Alloc B) : Alloc B :=
  fun next =>
    match c next with
    | Throw e => Throw e
    | Normal (a, next') => k a next'
    end.
Definition new_object : Alloc loc := fun next => Normal (next, S next).
Definition of_outcome {A} (o : outcome A) : Alloc A :=
  fun next =>
    match o with
    | Normal a => Normal (a, next)
    | Throw e => Throw e
    end.

Declare Scope alloc_scope.
Delimit Scope alloc_scope with alloc.
Notation "x <- c ;; k" := (abind c (fun x => k))
  (at level 100, c at next level, right associativity) : alloc_scope.

(** Iterating a Map yields one fresh array [[key, value]] per entry. *)
Fixpoint entry_arrays (es : list (value * value)) (next : loc)
  : list value * loc :=
  match es with
  | [] => ([], next)
  | (k, v) :: es' =>
      let (rest, next') := entry_arrays es' (S next) in
      (VArray next [k; v] :: rest, next')
  end.

(** The items an iteration over [v] yields ([[...v]]). *)
Definition iterate (v : value) : Alloc (list value) :=
  match v with
  | VArray _ items => aret items
  | VSet _ ms => aret ms
  | VStr s => aret (chars s)
  | VMap _ es => fun next => Normal (entry_arrays es next)
  | _ => athrow TypeError
  end.

(** [Array.from(v)]: iterables as above, [TypeError] on [undefined]/[null],
    the empty array on anything that is neither iterable nor array-like
    (plain objects are taken to have no [length]). *)
Definition array_from (v : value) : Alloc (list value) :=
  match v with
  | VUndef | VNull => athrow TypeError
  | VArray _ items => aret items
  | VSet _ ms => aret ms
  | VStr s => aret (chars s)
  | VMap _ es => fun next => Normal (entry_arrays es next)
  | _ => aret []
  end.

(** The pair [[item[0], item[1]]] that [new Map(iterable)] reads off one
    item; a primitive item is a [TypeError]. *)
Definition pair_of_item (item : value) : outcome (value * value) :=
  match item with
  | VArray _ xs => Normal (nth 0 xs VUndef, nth 1 xs VUndef)
  | VObject _ fs => Normal (field fs "0", field fs "1")
  | VMap _ _ | VSet _ _ | VFun _ => Normal (VUndef, VUndef)
  | _ => Throw TypeError
  end.

Fixpoint pairs_of_items (items : list value) : outcome (list (value * value)) :=
  match items with
  | [] => Normal []
  | x :: xs =>
      match pair_of_item x with
      | Throw e => Throw e
      | Normal p =>
          match pairs_of_items xs with
          | Throw e => Throw e
          | Normal ps => Normal (p :: ps)
          end
      end
  end.

(** The entries of [new Map(v)]. *)
Definition map_from (v : value) : outcome (list (value * value)) :=
  match v with
  | VUndef | VNull => Normal []
  | VMap _ es => Normal es
  | VArray _ items | VSet _ items =>
      match pairs_of_items items with
      | Throw e => Throw e
      | Normal ps => Normal (map_of ps)
      end
  | VStr s => match s with EmptyString => Normal [] | _ => Throw TypeError end
  | _ => Throw TypeError
  end.

(** ** [JSON.stringify] *)

(** The text [JSON.stringify] prints is determined by, and determines, the
    document it prints; two results are the same string exactly when they are
    the same document.  The model compares documents. *)
Inductive json : Type :=
| JNull
| JBool (b : bool)
| JNum (n : Z)
| JStr (s : string)
| JArr (items : list json)
| JObj (members : list (string * json)).

(** [JSON.stringify(v)]; [None] is the result [undefined]. *)
Fixpoint stringify (v : value) : option json :=
  match v with
  | VUndef => None
  | VFun _ => None
  | VNull => Some JNull
  | VBool b => Some (JBool b)
  | VNum n => Some (JNum n)
  | VStr s => Some (JStr s)
  | VObject _ fs =>
      Some (JObj
        ((fix members (fs : list (string * value)) : list (string * json) :=
            match fs with
            | [] => []
            | (k, x) :: fs' =>
                match stringify x with
                | Some j => (k, j) :: members fs'
                | None => members fs'
                end
            end) fs))
  | VArray _ xs =>
      Some (JArr
        ((fix elems (xs : list value) : list json :=
            match xs with
            | [] => []
            | x :: xs' =>
                (match stringify x with Some j => j | None => JNull end)
                  :: elems xs'
            end) xs))
  | VMap _ _ => Some (JObj [])
  | VSet _ _ => Some (JObj [])
  end.

Fixpoint json_eqb (a b : json) : bool :=
  match a, b with
  | JNull, JNull => true
  | JBool x, JBool y => Bool.eqb x y
  | JNum x, JNum y => Z.eqb x y
  | JStr x, JStr y => String.eqb x y
  | JArr xs, JArr ys =>
      (fix go (xs ys : list json) : bool :=
         match xs, ys with
         | [], [] => true
         | x :: xs', y :: ys' => json_eqb x y && go xs' ys'
         | _, _ => false
         end) xs ys
  | JObj xs, JObj ys =>
      (fix go (xs ys : list (string * json)) : bool :=
         match xs, ys with
         | [], [] => true
         | (k, x) :: xs', (k', y) :: ys' =>
             String.eqb k k' && json_eqb x y && go xs' ys'
         | _, _ => false
         end) xs ys
  | _, _ => false
  end.

(** [JSON.stringify(a) === JSON.stringify(b)] *)
Definition same_json (a b : value) : bool :=
  match stringify a, stringify b with
  | None, None => true
  | Some x, Some y => json_eqb x y
  | _, _ => false
  end.

(** ** Change detection *)

(** [isEqual(a, b)] *)
Definition isEqual (a b : value) : bool :=
  if strict_eq a b then true
  else
    match a, b with
    | VMap _ ea, VMap _ eb =>
        Nat.eqb (List.length ea) (List.length eb)
        && forallb (fun kv => strict_eq (map_get eb (fst kv)) (snd kv)) ea
    | VSet _ sa, VSet _ sb =>
        Nat.eqb (List.length sa) (List.length sb)
        && forallb (fun item => set_has sb item) sa
    | _, _ => same_json a b
    end.

(** The members of [new Set(names)] for a list of property names. *)
Fixpoint dedup (names : list string) : list string :=
  match names with
  | [] => []
  | k :: rest =>
      k :: filter (fun k' => negb (String.eqb k k')) (dedup rest)
  end.

(** [getChangedKeys(previous, current)] *)
Definition getChangedKeys (previous current : object) : list string :=
  filter (fun key => negb (isEqual (field previous key) (field current key)))
         (dedup (keys previous ++ keys current)).

(** ** The manager and the runtime around it *)

(** What a subscriber callback is called with: a key subscriber gets
    [(currentState[key], previousState[key], key)], a wildcard subscriber
    [(currentState, previousState, changedKeys)]. *)
Inductive call_args : Type :=
| KeyArgs (cur prev : value) (key : string)
| AllArgs (cur prev : object) (changed : list string).

(** A subscriber callback: a function object (its identity is [cb_id]) that,
    called, either returns or throws.  Subscribers are observers: they do not
    call back into the manager. *)
Record callback : Type := {
  cb_id : nat;
  cb_run : call_args -> option error
}.

(** [console.warn] / [console.error] lines. *)
Inductive log_entry : Type :=
| WarnMutationInProgress
| ValidationFailed (key : string) (expected : list string) (actual : string)
| SubscriberError (key : string) (e : error)
| GlobalSubscriberError (e : error)
| ActionSyncFailed (type : value) (e : error).

(** [updater]: a function of the snapshot (which returns the candidate,
    allocating what it builds, or throws) or, when it is not a function, the
    candidate itself. *)
Inductive updater : Type :=
| UFun (f : object -> Alloc value)
| UVal (v : value).

(** A history entry [{timestamp, previous, current}]. *)
Record history_entry : Type := {
  timestamp : Z;
  previous : object;
  current : object
}.

(** How the promise returned by [setState] settles: resolved with the new
    snapshot, resolved with [undefined] ([None]), or rejected. *)
Inductive settlement : Type :=
| Resolved (s : option object)
| Rejected (e : error).

Definition promise := nat.

(** A deferred job on the microtask queue: the body [setState] hands to
    [queueMicrotask], with the promise it settles. *)
Inductive job : Type :=
| Mutation (u : updater) (p : promise).

(** A request handed to [apiRequest]: the PATCH of [/videos/<id>/like] or of
    [/videos/<id>/save], with the flag its body carries. *)
Inductive request : Type :=
| PatchLike (videoId liked : value)
| PatchSave (videoId saved : value).

(** The fields of the [ImmutableStateManager] instance; [saveTimer] is the
    [timeout] captured by the debounced saver. *)
Record Manager : Type := {
  _state : object;
  subscribers : list (string * list callback);
  cacheTimeout : Z;
  history : list history_entry;
  maxHistoryLength : nat;
  isMutating : bool;
  saveTimer : bool
}.

(** The manager inside its runtime: the microtask queue, the promises handed
    out and how they settled, the console, the subscriber calls made, the
    clock [Date.now()] reads, [localStorage], the requests sent, the producers
    invoked and the next free address. *)
Record World : Type := {
  mgr : Manager;
  microtasks : list job;
  next_promise : promise;
  settled : list (promise * settlement);
  console : list log_entry;
  calls : list (nat * call_args);
  clock : Z;
  storage : list (string * option json);
  requests : list request;
  fetches : list nat;
  next_loc : loc
}.

Definition with_mgr (f : Manager -> Manager) (w : World) : World :=
  {| mgr := f (mgr w); microtasks := microtasks w;
     next_promise := next_promise w; settled := settled w;
     console := console w; calls := calls w; clock := clock w;
     storage := storage w; requests := requests w; fetches := fetches w;
     next_loc := next_loc w |}.

Definition set_state (s : object) (m : Manager) : Manager :=
  {| _state := s; subscribers := subscribers m;
     cacheTimeout := cacheTimeout m; history := history m;
     maxHistoryLength := maxHistoryLength m; isMutating := isMutating m;
     saveTimer := saveTimer m |}.

Definition set_subscribers (ss : list (string * list callback)) (m : Manager)
  : Manager :=
  {| _state := _state m; subscribers := ss;
     cacheTimeout := cacheTimeout m; history := history m;
     maxHistoryLength := maxHistoryLength m; isMutating := isMutating m;
     saveTimer := saveTimer m |}.

Definition set_history (h : list history_entry) (m : Manager) : Manager :=
  {| _state := _state m; subscribers := subscribers m;
     cacheTimeout := cacheTimeout m; history := h;
     maxHistoryLength := maxHistoryLength m; isMutating := isMutating m;
     saveTimer := saveTimer m |}.

Definition set_isMutating (b : bool) (m : Manager) : Manager :=
  {| _state := _state m; subscribers := subscribers m;
     cacheTimeout := cacheTimeout m; history := history m;
     maxHistoryLength := maxHistoryLength m; isMutating := b;
     saveTimer := saveTimer m |}.

Definition set_saveTimer (b : bool) (m : Manager) : Manager :=
  {| _state := _state m; subscribers := subscribers m;
     cacheTimeout := cacheTimeout m; history := history m;
     maxHistoryLength := maxHistoryLength m; isMutating := isMutating m;
     saveTimer := b |}.

Definition set_microtasks (q : list job) (w : World) : World :=
  {| mgr := mgr w; microtasks := q;
     next_promise := next_promise w; settled := settled w;
     console := console w; calls := calls w; clock := clock w;
     storage := storage w; requests := requests w; fetches := fetches w;
     next_loc := next_loc w |}.

(** A new promise. *)
Definition new_promise (w : World) : World * promise :=
  ({| mgr := mgr w; microtasks := microtasks w;
      next_promise := S (next_promise w); settled := settled w;
      console := console w; calls := calls w; clock := clock w;
      storage := storage w; requests := requests w; fetches := fetches w;
      next_loc := next_loc w |}, next_promise w).

(** [resolve(...)] / [reject(...)] on promise [p]. *)
Definition settle (p : promise) (r : settlement) (w : World) : World :=
  {| mgr := mgr w; microtasks := microtasks w;
     next_promise := next_promise w; settled := settled w ++ [(p, r)];
     console := console w; calls := calls w; clock := clock w;
     storage := storage w; requests := requests w; fetches := fetches w;
     next_loc := next_loc w |}.

Definition log (e : log_entry) (w : World) : World :=
  {| mgr := mgr w; microtasks := microtasks w;
     next_promise := next_promise w; settled := settled w;
     console := console w ++ [e]; calls := calls w; clock := clock w;
     storage := storage w; requests := requests w; fetches := fetches w;
     next_loc := next_loc w |}.

Definition record_call (c : nat * call_args) (w : World) : World :=
  {| mgr := mgr w; microtasks := microtasks w;
     next_promise := next_promise w; settled := settled w;
     console := console w; calls := calls w ++ [c]; clock := clock w;
     storage := storage w; requests := requests w; fetches := fetches w;
     next_loc := next_loc w |}.

Definition record_request (r : request) (w : World) : World :=
  {| mgr := mgr w; microtasks := microtasks w;
     next_promise := next_promise w; settled := settled w;
     console := console w; calls := calls w; clock := clock w;
     storage := storage w; requests := requests w ++ [r];
     fetches := fetches w; next_loc := next_loc w |}.

Definition record_fetch (f : nat) (w : World) : World :=
  {| mgr := mgr w; microtasks := microtasks w;
     next_promise := next_promise w; settled := settled w;
     console := console w; calls := calls w; clock := clock w;
     storage := storage w; requests := requests w;
     fetches := fetches w ++ [f]; next_loc := next_loc w |}.

Definition set_storage (st : list (string * option json)) (w : World) : World :=
  {| mgr := mgr w; microtasks := microtasks w;
     next_promise := next_promise w; settled := settled w;
     console := console w; calls := calls w; clock := clock w;
     storage := st; requests := requests w;
     fetches := fetches w; next_loc := next_loc w |}.

(** Time passes. *)
Definition set_clock (t : Z) (w : World) : World :=
  {| mgr := mgr w; microtasks := microtasks w;
     next_promise := next_promise w; settled := settled w;
     console := console w; calls := calls w; clock := t;
     storage := storage w; requests := requests w;
     fetches := fetches w; next_loc := next_loc w |}.

Definition set_next_loc (next : loc) (w : World) : World :=
  {| mgr := mgr w; microtasks := microtasks w;
     next_promise := next_promise w; settled := settled w;
     console := console w; calls := calls w; clock := clock w;
     storage := storage w; requests := requests w; fetches := fetches w;
     next_loc := next |}.

(** Allocation of one object. *)
Definition alloc (w : World) : World * loc :=
  ({| mgr := mgr w; microtasks := microtasks w;
      next_promise := next_promise w; settled := settled w;
      console := console w; calls := calls w; clock := clock w;
      storage := storage w; requests := requests w; fetches := fetches w;
      next_loc := S (next_loc w) |}, next_loc w).

(** [this.state] *)
Definition state (w : World) : object := _state (mgr w).

Fixpoint settlement_of (p : promise) (l : list (promise * settlement))
  : option settlement :=
  match l with
  | [] => None
  | (q, r) :: l' => if Nat.eqb p q then Some r else settlement_of p l'
  end.

(** ** The constructor *)

(** [new ImmutableStateManager()]; [navigator.onLine] is [online], and the
    collections of the initial snapshot live at addresses 0 to 5. *)
Definition initial_state (online : bool) : object :=
  [ ("user", VNull);
    ("videos", VMap 0 []);
    ("likedVideos", VSet 1 []);
    ("savedVideos", VSet 2 []);
    ("currentMediaIndexes", VMap 3 []);
    ("online", VBool online);
    ("pendingActions", VArray 4 []);
    ("cache", VMap 5 []);
    ("ui", VObject 6
       [ ("theme", VStr "dark");
         ("language", VStr "tr");
         ("videoQuality", VStr "auto");
         ("autoplay", VBool true);
         ("notifications", VBool true) ]) ].

Definition constructor (online : bool) : Manager :=
  {| _state := initial_state online;
     subscribers := [];
     cacheTimeout := 30000%Z;
     history := [];
     maxHistoryLength := 50;
     isMutating := false;
     saveTimer := false |}.

(** A fresh page: the manager just constructed, nothing queued or logged.
    Addresses below 100 are taken: 0 to 6 by the initial snapshot, the others
    by the objects of the page that calls the manager. *)
Definition boot (online : bool) (now : Z) : World :=
  {| mgr := constructor online; microtasks := []; next_promise := 0;
     settled := []; console := []; calls := []; clock := now;
     storage := []; requests := []; fetches := []; next_loc := 100 |}.

(** ** Validation *)

Definition schema : list (string * list string) :=
  [ ("user", ["object"; "null"]);
    ("videos", ["object"]);
    ("likedVideos", ["object"]);
    ("savedVideos", ["object"]);
    ("online", ["boolean"]);
    ("ui", ["object"]) ].

(** [expectedTypes.includes(actualType)] *)
Definition includes_type (expectedTypes : list string) (actualType : string)
  : bool :=
  existsb (String.eqb actualType) expectedTypes.

(** The loop of [validateState]: the first schema entry the candidate
    violates, if any. *)
Fixpoint first_violation (st : value) (entries : list (string * list string))
  : outcome (option log_entry) :=
  match entries with
  | [] => Normal None
  | (key, expectedTypes) :: rest =>
      match get_prop st key with
      | Throw e => Throw e
      | Normal v =>
          let actualType := typeof v in
          if includes_type expectedTypes actualType
          then first_violation st rest
          else Normal (Some (ValidationFailed key expectedTypes actualType))
      end
  end.

(** [validateState(state)] *)
Definition validateState (st : value) (w : World) : World * outcome bool :=
  match first_violation st schema with
  | Throw e => (w, Throw e)
  | Normal None => (w, Normal true)
  | Normal (Some line) => (log line w, Normal false)
  end.

(** ** Subscriptions *)

Fixpoint subs_get (ss : list (string * list callback)) (key : string)
  : option (list callback) :=
  match ss with
  | [] => None
  | (k, cbs) :: ss' => if String.eqb k key then Some cbs else subs_get ss' key
  end.

Fixpoint subs_set (ss : list (string * list callback)) (key : string)
  (cbs : list callback) : list (string * list callback) :=
  match ss with
  | [] => [(key, cbs)]
  | (k, old) :: ss' =>
      if String.eqb k key then (k, cbs) :: ss'
      else (k, old) :: subs_set ss' key cbs
  end.

Definition subs_delete (ss : list (string * list callback)) (key : string)
  : list (string * list callback) :=
  filter (fun kc => negb (String.eqb (fst kc) key)) ss.

Definition cbs_add (cbs : list callback) (cb : callback) : list callback :=
  if existsb (fun c => Nat.eqb (cb_id c) (cb_id cb)) cbs then cbs
  else cbs ++ [cb].

Definition cbs_delete (cbs : list callback) (cb : callback) : list callback :=
  filter (fun c => negb (Nat.eqb (cb_id c) (cb_id cb))) cbs.

(** [subscribe(key, callback)] *)
Definition subscribe (key : string) (cb : callback) (w : World) : World :=
  with_mgr (fun m =>
    let ss :=
      match subs_get (subscribers m) key with
      | Some _ => subscribers m
      | None => subs_set (subscribers m) key []
      end in
    match subs_get ss key with
    | Some cbs => set_subscribers (subs_set ss key (cbs_add cbs cb)) m
    | None => set_subscribers ss m
    end) w.

(** The function [subscribe] returns. *)
Definition unsubscribe (key : string) (cb : callback) (w : World) : World :=
  with_mgr (fun m =>
    match subs_get (subscribers m) key with
    | Some cbs =>
        let cbs' := cbs_delete cbs cb in
        if Nat.eqb (List.length cbs') 0
        then set_subscribers (subs_delete (subscribers m) key) m
        else set_subscribers (subs_set (subscribers m) key cbs') m
    | None => m
    end) w.

(** One [try { callback(...) } catch (error) { console.error(...) }]. *)
Definition invoke (cb : callback) (args : call_args)
  (report : error -> log_entry) (w : World) : World :=
  let w1 := record_call (cb_id cb, args) w in
  match cb_run cb args with
  | None => w1
  | Some e => log (report e) w1
  end.

Definition invoke_all (cbs : list callback) (args : call_args)
  (report : error -> log_entry) (w : World) : World :=
  fold_left (fun w cb => invoke cb args report w) cbs w.

(** The body of [changedKeys.forEach(key => ...)] for one key. *)
Definition notify_key (previousState currentState : object) (w : World)
  (key : string) : World :=
  match subs_get (subscribers (mgr w)) key with
  | Some cbs =>
      invoke_all cbs
        (KeyArgs (field currentState key) (field previousState key) key)
        (SubscriberError key) w
  | None => w
  end.

(** [notifySubscribers(previousState, currentState)] *)
Definition notifySubscribers (previousState currentState : object) (w : World)
  : World :=
  let changedKeys := getChangedKeys previousState currentState in
  let w1 := fold_left (notify_key previousState currentState) changedKeys w in
  match subs_get (subscribers (mgr w1)) "*" with
  | Some globalSubscribers =>
      invoke_all globalSubscribers
        (AllArgs currentState previousState changedKeys)
        GlobalSubscriberError w1
  | None => w1
  end.

(** ** [setState] *)

(** [typeof updater === 'function' ? updater(this._state) : updater] *)
Definition candidate (u : updater) (s : object) : Alloc value :=
  match u with
  | UFun f => f s
  | UVal v => aret v
  end.

(** The properties [...v] copies into an object literal. *)
Definition own_fields (v : value) : object :=
  match v with
  | VObject _ fs => fs
  | _ => []
  end.

(** [this.history.push(e); if (this.history.length > max) this.history.shift()] *)
Definition push_history (e : history_entry) (m : Manager) : Manager :=
  let h := history m ++ [e] in
  set_history (if Nat.ltb (maxHistoryLength m) (List.length h) then tl h else h) m.

(** [saveToStorageDebounced()]: the debounce timer is (re)armed. *)
Definition saveToStorageDebounced (w : World) : World :=
  with_mgr (set_saveTimer true) w.

(** The [try] block of the deferred body: what it resolves with, or what it
    throws. *)
Definition try_commit (u : updater) (w : World) : World * outcome object :=
  match candidate u (state w) (next_loc w) with
  | Throw e => (w, Throw e)
  | Normal (newState, next) =>
      match validateState newState (set_next_loc next w) with
      | (w1, Throw e) => (w1, Throw e)
      | (w1, Normal false) => (w1, Throw InvalidStateStructure)
      | (w1, Normal true) =>
          let previousState := state w1 in
          let w2 :=
            with_mgr (set_state (spread previousState (own_fields newState)))
                     w1 in
          let w3 :=
            with_mgr (push_history {| timestamp := clock w2;
                                      previous := previousState;
                                      current := state w2 |}) w2 in
          let w4 := notifySubscribers previousState (state w3) w3 in
          let w5 := saveToStorageDebounced w4 in
          (w5, Normal (state w5))
      end
  end.

(** The function handed to [queueMicrotask]: [try], [catch], [finally]. *)
Definition run_job (j : job) (w : World) : World :=
  match j with
  | Mutation u p =>
      let w2 :=
        match try_commit u w with
        | (w1, Normal s) => settle p (Resolved (Some s)) w1
        | (w1, Throw e) => settle p (Rejected e) w1
        end in
      with_mgr (set_isMutating false) w2
  end.

(** [setState(updater)]: the synchronous part.  The promise it returns is
    either already resolved with [undefined], or settled by the job it
    queued. *)
Definition setState (u : updater) (w : World) : World * promise :=
  if isMutating (mgr w) then
    let w1 := log WarnMutationInProgress w in
    let (w2, p) := new_promise w1 in
    (settle p (Resolved None) w2, p)
  else
    let w1 := with_mgr (set_isMutating true) w in
    let (w2, p) := new_promise w1 in
    (set_microtasks (microtasks w2 ++ [Mutation u p]) w2, p).

(** The microtask checkpoint: every queued job runs, first queued first. *)
Definition run_microtasks (w : World) : World :=
  fold_left (fun w j => run_job j w) (microtasks w) (set_microtasks [] w).

(** ** Asynchronous methods *)

(** An [async] method, run from its call to its completion: the world it
    leaves and how its promise settles ([None]: it awaits a promise that is
    never settled).  At every [await] the method yields, and the microtask
    checkpoint runs before it resumes. *)
Definition Async (A : Type) : Type := World -> World * option (outcome A).

Definition ret {A} (a : A) : Async A := fun w => (w, Some (Normal a)).
Definition throw {A} (e : error) : Async A := fun w => (w, Some (Throw e)).
Definition bind {A B} (c : Async A) (k : A -> Async B) : Async B :=
  fun w =>
    match c w with
    | (w1, Some (Normal a)) => k a w1
    | (w1, Some (Throw e)) => (w1, Some (Throw e))
    | (w1, None) => (w1, None)
    end.

(** [try { body } catch (error) { handler }] *)
Definition try_catch {A} (body : Async A) (handler : error -> Async A)
  : Async A :=
  fun w =>
    match body w with
    | (w1, Some (Throw e)) => handler e w1
    | r => r
    end.

Definition read {A} (f : World -> A) : Async A :=
  fun w => (w, Some (Normal (f w))).
Definition act (f : World -> World) : Async unit :=
  fun w => (f w, Some (Normal tt)).
Definition lift_outcome {A} (o : outcome A) : Async A :=
  fun w => (w, Some o).
Definition lift_alloc {A} (c : Alloc A) : Async A :=
  fun w =>
    match c (next_loc w) with
    | Normal (a, next) => (set_next_loc next w, Some (Normal a))
    | Throw e => (w, Some (Throw e))
    end.

Declare Scope async_scope.
Delimit Scope async_scope with async.
Notation "x <- c ;; k" := (bind c (fun x => k))
  (at level 100, c at next level, right associativity) : async_scope.
Notation "c ;; k" := (bind c (fun _ => k))
  (at level 100, right associativity) : async_scope.

(** [this.setState(updater)] as a step of a method. *)
Definition submit (u : updater) : Async promise :=
  fun w => let (w1, p) := setState u w in (w1, Some (Normal p)).

(** [await p] for a promise [setState] returned. *)
Definition await (p : promise) : Async (option object) :=
  fun w =>
    let w1 := run_microtasks w in
    match settlement_of p (settled w1) with
    | Some (Resolved s) => (w1, Some (Normal s))
    | Some (Rejected e) => (w1, Some (Throw e))
    | None => (w1, None)
    end.

(** An [await] on anything else: the method resumes after the checkpoint. *)
Definition tick : Async unit := act run_microtasks.

(** The remote service: what the [n]-th request of the page's life is
    answered with. *)
Definition remote := nat -> request -> outcome value.

(** [await this.apiRequest(...)]: the request goes out, the method yields,
    and the answer (or the error) comes back. *)
Definition apiRequest (api : remote) (req : request) : Async value :=
  fun w =>
    let n := List.length (requests w) in
    (run_microtasks (record_request req w), Some (api n req)).

(** [storage.setItem(k, text)] *)
Fixpoint storage_set (st : list (string * option json)) (k : string)
  (text : option json) : list (string * option json) :=
  match st with
  | [] => [(k, text)]
  | (k', old) :: st' =>
      if String.eqb k' k then (k', text) :: st'
      else (k', old) :: storage_set st' k text
  end.

(** [saveToStorage(key, value)], up to its return. *)
Definition saveToStorage (key : string) (v : value) (w : World) : World :=
  set_storage
    (storage_set (storage w) ("socialflow_" ++ key)%string (stringify v)) w.

(** *** Numbers read off other values *)

(** What [ToNumber] yields: [NaN], an infinity, or the number [m * 10 ^ e].
    Arithmetic on these is exact, as it is on the integers of the model:
    nothing is rounded to a 64-bit float. *)
Inductive numeric : Type :=
| NaN
| Infinite (negative : bool)
| Decimal (m e : Z).

Definition negated (x : numeric) : numeric :=
  match x with
  | NaN => NaN
  | Infinite negative => Infinite (negb negative)
  | Decimal m e => Decimal (- m) e
  end.

(** White space and line terminators, among the characters a string of the
    model has (code units below 256): TAB, LF, VT, FF, CR, SP, NBSP. *)
Definition is_space (c : ascii) : bool :=
  let n := nat_of_ascii c in
  ((9 <=? n)%nat && (n <=? 13)%nat) || (n =? 32)%nat || (n =? 160)%nat.

Fixpoint trim_start (s : string) : string :=
  match s with
  | String c s' => if is_space c then trim_start s' else s
  | EmptyString => s
  end.

Definition reversed (s : string) : string :=
  string_of_list_ascii (rev (list_ascii_of_string s)).

Definition trim (s : string) : string :=
  reversed (trim_start (reversed (trim_start s))).

(** The value of a digit in a base up to sixteen. *)
Definition digit_of (base : nat) (c : ascii) : option Z :=
  let n := nat_of_ascii c in
  let d := if (48 <=? n)%nat && (n <=? 57)%nat then Some (n - 48)
           else if (97 <=? n)%nat && (n <=? 102)%nat then Some (n - 87)
           else if (65 <=? n)%nat && (n <=? 70)%nat then Some (n - 55)
           else None in
  match d with
  | Some k => if (k <? base)%nat then Some (Z.of_nat k) else None
  | None => None
  end.

(** The digits [s] starts with, read in [base] after the digits read so far
    (their value [acc], their number [count]), and what follows them. *)
Fixpoint digits (base : nat) (s : string) (acc : Z) (count : nat)
  : Z * nat * string :=
  match s with
  | String c s' =>
      match digit_of base c with
      | Some d => digits base s' (Z.of_nat base * acc + d)%Z (S count)
      | None => (acc, count, s)
      end
  | EmptyString => (acc, count, s)
  end.

(** [0x...], [0o...], [0b...] after the prefix: digits and nothing else. *)
Definition radix_literal (base : nat) (s : string) : numeric :=
  match digits base s 0%Z 0 with
  | (n, S _, EmptyString) => Decimal n 0
  | _ => NaN
  end.

(** The exponent part, which ends the literal: nothing, or [e] or [E], a
    sign or none, and digits. *)
Definition exponent (s : string) : option Z :=
  match s with
  | EmptyString => Some 0%Z
  | String c s1 =>
      if Ascii.eqb c "e" || Ascii.eqb c "E" then
        let (negative, s2) :=
          match s1 with
          | String "+" s2 => (false, s2)
          | String "-" s2 => (true, s2)
          | _ => (false, s1)
          end in
        match digits 10 s2 0%Z 0 with
        | (n, S _, EmptyString) => Some (if negative then (- n)%Z else n)
        | _ => None
        end
      else None
  end.

(** [Infinity], or digits with an optional fraction and exponent; there is
    a digit before or after the point. *)
Definition unsigned_decimal (s : string) : numeric :=
  if String.eqb s "Infinity" then Infinite false
  else
    let '(whole, nwhole, s1) := digits 10 s 0%Z 0 in
    let '(mantissa, nfraction, s2) :=
      match s1 with
      | String "." s1' => digits 10 s1' whole 0
      | _ => (whole, 0, s1)
      end in
    match nwhole + nfraction with
    | 0 => NaN
    | _ =>
        match exponent s2 with
        | Some e => Decimal mantissa (e - Z.of_nat nfraction)
        | None => NaN
        end
    end.

(** [ToNumber] on a string: the empty or blank string is [0]; a literal with
    white space around it is the number it spells; anything else is
    [NaN]. *)
Definition string_to_number (s : string) : numeric :=
  match trim s with
  | EmptyString => Decimal 0 0
  | String "+" rest => unsigned_decimal rest
  | String "-" rest => negated (unsigned_decimal rest)
  | String "0" (String c rest) as t =>
      if Ascii.eqb c "x" || Ascii.eqb c "X" then radix_literal 16 rest
      else if Ascii.eqb c "o" || Ascii.eqb c "O" then radix_literal 8 rest
      else if Ascii.eqb c "b" || Ascii.eqb c "B" then radix_literal 2 rest
      else unsigned_decimal t
  | t => unsigned_decimal t
  end.

(** Whether converting a plain object to a primitive value ends: with no
    [toString] of its own the object prints as [[object Object]]; with one
    that cannot be called, and no [valueOf] to call, the conversion throws.
    (What a function stored under either name would return is not known to
    the model; such an object is read as [NaN].) *)
Definition convertible (fs : object) : bool :=
  match lookup "toString" fs with
  | None | Some (VFun _) => true
  | Some _ =>
      match lookup "valueOf" fs with
      | Some (VFun _) => true
      | _ => false
      end
  end.

(** Whether printing [v], as an element of an array that is joined, throws. *)
Fixpoint text_throws (v : value) : bool :=
  match v with
  | VObject _ fs => negb (convertible fs)
  | VArray _ items => existsb text_throws items
  | _ => false
  end.

(** [ToNumber(v)], as the subtraction [now - v] applies it.  An array is
    joined into a string first: the empty array reads as [0], an array of one
    element as the text of that element ([undefined] and [null] print as the
    empty string), and a longer one, whose text has a comma, as [NaN]. *)
Fixpoint to_number (v : value) : outcome numeric :=
  match v with
  | VUndef => Normal NaN
  | VNull => Normal (Decimal 0 0)
  | VBool b => Normal (Decimal (if b then 1 else 0) 0)
  | VNum n => Normal (Decimal n 0)
  | VStr s => Normal (string_to_number s)
  | VObject _ fs => if convertible fs then Normal NaN else Throw TypeError
  | VArray _ items =>
      match items with
      | [] => Normal (Decimal 0 0)
      | [x] =>
          match x with
          | VUndef | VNull => Normal (Decimal 0 0)
          | VBool _ => Normal NaN
          | _ => to_number x
          end
      | _ => if existsb text_throws items then Throw TypeError else Normal NaN
      end
  | VMap _ _ | VSet _ _ | VFun _ => Normal NaN
  end.

(** [now - t < window] for integers [now] and [window]. *)
Definition elapsed_below (now : Z) (t : numeric) (window : Z) : bool :=
  match t with
  | NaN => false
  | Infinite negative => negb negative
  | Decimal m e =>
      if (0 <=? e)%Z then (now - m * 10 ^ e <? window)%Z
      else ((now - window) * 10 ^ (- e) <? m)%Z
  end.

(** *** Cache *)

(** [key.includes(pattern)] on strings. *)
Fixpoint includes (s pattern : string) : bool :=
  if String.prefix pattern s then true
  else
    match s with
    | EmptyString => false
    | String _ s' => includes s' pattern
    end.

(** [options.ttl || this.cacheTimeout]; [None] is an absent [ttl]. *)
Definition effective_ttl (ttl : option Z) (cacheTimeout : Z) : Z :=
  match ttl with
  | Some t => if Z.eqb t 0 then cacheTimeout else t
  | None => cacheTimeout
  end.

(** [this.state.cache.get(cacheKey)] *)
Definition cache_get (st : object) (cacheKey : string) : outcome value :=
  match field st "cache" with
  | VMap _ es => Normal (map_get es (VStr cacheKey))
  | _ => Throw TypeError
  end.

(** [cached && now - cached.timestamp < (options.ttl || this.cacheTimeout)];
    the subtraction throws when the timestamp cannot be converted. *)
Definition cache_hit (cached : value) (now : Z) (ttl : option Z)
  (cacheTimeout : Z) : outcome bool :=
  if truthy cached then
    match get_prop cached "timestamp" with
    | Throw e => Throw e
    | Normal ts =>
        match to_number ts with
        | Throw e => Throw e
        | Normal t =>
            Normal (elapsed_below now t (effective_ttl ttl cacheTimeout))
        end
    end
  else Normal false.

(** A producer ([fetcher]): a function object that, called and awaited,
    yields data or fails. *)
Record producer : Type := {
  pr_id : nat;
  pr_result : outcome value
}.

(** [await fetcher()] *)
Definition call_producer (f : producer) : Async value :=
  fun w => (run_microtasks (record_fetch (pr_id f) w), Some (pr_result f)).

(** [state => ({ cache: new Map(state.cache).set(cacheKey, {data, timestamp: now}) })] *)
Definition cache_store (cacheKey : string) (data : value) (now : Z)
  (st : object) : Alloc value :=
  (es <- of_outcome (map_from (field st "cache")) ;;
   lmap <- new_object ;;
   lentry <- new_object ;;
   llit <- new_object ;;
   aret (VObject llit
     [("cache",
       VMap lmap
         (map_set es (VStr cacheKey)
            (VObject lentry [("data", data); ("timestamp", VNum now)])))]))%alloc.

(** [getWithCache(key, fetcher, options)] *)
Definition getWithCache (key : string) (fetcher : producer) (ttl : option Z)
  : Async value :=
  (let cacheKey := ("cache_" ++ key)%string in
   now <- read clock ;;
   st <- read state ;;
   cached <- lift_outcome (cache_get st cacheKey) ;;
   timeout <- read (fun w => cacheTimeout (mgr w)) ;;
   hit <- lift_outcome (cache_hit cached now ttl timeout) ;;
   if hit
   then lift_outcome (get_prop cached "data")
   else
     data <- call_producer fetcher ;;
     submit (UFun (cache_store cacheKey data now)) ;;
     ret data)%async.

(** [key.includes(pattern)] for a key of the cache Map. *)
Definition key_includes (key : value) (pattern : string) : outcome bool :=
  match key with
  | VStr s => Normal (includes s pattern)
  | VArray _ items => Normal (set_has items (VStr pattern))
  | _ => Throw TypeError
  end.

(** [keys.filter(key => key.includes(pattern))] *)
Fixpoint matching_keys (ks : list value) (pattern : string)
  : outcome (list value) :=
  match ks with
  | [] => Normal []
  | k :: ks' =>
      match key_includes k pattern with
      | Throw e => Throw e
      | Normal b =>
          match matching_keys ks' pattern with
          | Throw e => Throw e
          | Normal rest => Normal (if b then k :: rest else rest)
          end
      end
  end.

(** The updater of [invalidateCache]. *)
Definition invalidate (pattern : string) (st : object) : Alloc value :=
  (es <- of_outcome (map_from (field st "cache")) ;;
   lmap <- new_object ;;
   doomed <- of_outcome (matching_keys (map fst es) pattern) ;;
   llit <- new_object ;;
   aret (VObject llit [("cache", VMap lmap (fold_left map_delete doomed es))]))%alloc.

(** [invalidateCache(pattern)] *)
Definition invalidateCache (pattern : string) (w : World) : World :=
  fst (setState (UFun (invalidate pattern)) w).

(** *** Offline queue *)

(** [state => ({ pendingActions: [...state.pendingActions, action] })] *)
Definition append_action (action : value) (st : object) : Alloc value :=
  (items <- iterate (field st "pendingActions") ;;
   larr <- new_object ;;
   llit <- new_object ;;
   aret (VObject llit [("pendingActions", VArray larr (items ++ [action]))]))%alloc.

(** [queueAction(type, data)]; [id] is what
    [Math.random().toString(36).substr(2, 9)] yields. *)
Definition queueAction (type : string) (data : value) (id : string)
  : Async unit :=
  (now <- read clock ;;
   laction <- lift_alloc new_object ;;
   let action :=
     VObject laction
       [("type", VStr type); ("data", data);
        ("timestamp", VNum now); ("id", VStr id)] in
   submit (UFun (append_action action)) ;;
   st <- read state ;;
   act (saveToStorage "pendingActions" (field st "pendingActions")))%async.

(** [items.filter(a => a.id !== action.id)] *)
Fixpoint without_id (items : list value) (action : value)
  : outcome (list value) :=
  match items with
  | [] => Normal []
  | a :: rest =>
      match get_prop a "id" with
      | Throw e => Throw e
      | Normal ida =>
          match get_prop action "id" with
          | Throw e => Throw e
          | Normal idx =>
              match without_id rest action with
              | Throw e => Throw e
              | Normal kept =>
                  Normal (if strict_eq ida idx then kept else a :: kept)
              end
          end
      end
  end.

(** [state => ({ pendingActions: state.pendingActions.filter(a => a.id !== action.id) })] *)
Definition remove_action (action : value) (st : object) : Alloc value :=
  match field st "pendingActions" with
  | VArray _ items =>
      (kept <- of_outcome (without_id items action) ;;
       larr <- new_object ;;
       llit <- new_object ;;
       aret (VObject llit [("pendingActions", VArray larr kept)]))%alloc
  | _ => athrow TypeError
  end.

(** [await this.processAction(action)] *)
Definition processAction (api : remote) (action : value) : Async unit :=
  (type <- lift_outcome (get_prop action "type") ;;
   if strict_eq type (VStr "like") then
     data <- lift_outcome (get_prop action "data") ;;
     videoId <- lift_outcome (get_prop data "videoId") ;;
     liked <- lift_outcome (get_prop data "liked") ;;
     apiRequest api (PatchLike videoId liked) ;;
     ret tt
   else if strict_eq type (VStr "save") then
     data <- lift_outcome (get_prop action "data") ;;
     videoId <- lift_outcome (get_prop data "videoId") ;;
     saved <- lift_outcome (get_prop data "saved") ;;
     apiRequest api (PatchSave videoId saved) ;;
     ret tt
   else tick)%async.

(** The [for (const action of actions)] loop of [syncPendingActions]: a
    failed action is logged and ends the loop. *)
Fixpoint replay (api : remote) (actions : list value) : Async unit :=
  match actions with
  | [] => ret tt
  | action :: rest =>
      fun w =>
        match processAction api action w with
        | (w1, Some (Normal _)) =>
            replay api rest (fst (setState (UFun (remove_action action)) w1))
        | (w1, Some (Throw e)) =>
            match get_prop action "type" with
            | Normal type => (log (ActionSyncFailed type e) w1, Some (Normal tt))
            | Throw e' => (w1, Some (Throw e'))
            end
        | (w1, None) => (w1, None)
        end
  end.

(** [syncPendingActions()] *)
Definition syncPendingActions (api : remote) : Async unit :=
  (st <- read state ;;
   actions <- lift_alloc (iterate (field st "pendingActions")) ;;
   lift_alloc new_object ;;
   replay api actions ;;
   st' <- read state ;;
   act (saveToStorage "pendingActions" (field st' "pendingActions")) ;;
   tick)%async.

(** The listeners [setupConnectivityMonitoring] installs for the [online]
    and [offline] events; the replay the first one starts is followed to its
    end, its promise being dropped. *)
Definition on_online (api : remote) : Async unit :=
  (llit <- lift_alloc new_object ;;
   submit (UVal (VObject llit [("online", VBool true)])) ;;
   fun w => (fst (syncPendingActions api w), Some (Normal tt)))%async.

Definition on_offline : Async unit :=
  (llit <- lift_alloc new_object ;;
   submit (UVal (VObject llit [("online", VBool false)])) ;;
   ret tt)%async.

(** *** Optimistic toggles *)

(** [coll.has(x)] *)
Definition has (coll x : value) : outcome bool :=
  match coll with
  | VSet _ ms => Normal (set_has ms x)
  | VMap _ es => Normal (existsb (fun kv => strict_eq (fst kv) x) es)
  | _ => Throw TypeError
  end.

(** [state => ({ <name>: new Set(member ? [...state.<name>, videoId]
                    : Array.from(state.<name>).filter(id => id !== videoId)) })] *)
Definition set_membership (name : string) (member : bool) (videoId : value)
  (st : object) : Alloc value :=
  (items <-
     (if member
      then (xs <- iterate (field st name) ;; aret (xs ++ [videoId]))
      else (xs <- array_from (field st name) ;;
            aret (filter (fun id => negb (strict_eq id videoId)) xs))) ;;
   lset <- new_object ;;
   llit <- new_object ;;
   aret (VObject llit [(name, VSet lset (set_of items))]))%alloc.

(** [likeVideo(videoId)]; video ids are strings, and [id] is the identifier
    [queueAction] draws should the action be queued. *)
Definition likeVideo (api : remote) (videoId : string) (id : string)
  : Async bool :=
  (st <- read state ;;
   previousLiked <- lift_outcome (has (field st "likedVideos") (VStr videoId)) ;;
   let newLiked := negb previousLiked in
   p <- submit (UFun (set_membership "likedVideos" newLiked (VStr videoId))) ;;
   await p ;;
   try_catch
     (st1 <- read state ;;
      (if truthy (field st1 "online")
       then (apiRequest api (PatchLike (VStr videoId) (VBool newLiked)) ;;
             ret tt)
       else (ldata <- lift_alloc new_object ;;
             queueAction "like"
               (VObject ldata
                  [("videoId", VStr videoId); ("liked", VBool newLiked)])
               id)) ;;
      act (invalidateCache ("video_" ++ videoId)%string) ;;
      ret newLiked)
     (fun error =>
        p' <- submit
                (UFun (set_membership "likedVideos" previousLiked (VStr videoId))) ;;
        await p' ;;
        throw error))%async.

(** [saveVideo(videoId)] *)
Definition saveVideo (api : remote) (videoId : string) (id : string)
  : Async bool :=
  (st <- read state ;;
   previousSaved <- lift_outcome (has (field st "savedVideos") (VStr videoId)) ;;
   let newSaved := negb previousSaved in
   p <- submit (UFun (set_membership "savedVideos" newSaved (VStr videoId))) ;;
   await p ;;
   try_catch
     (st1 <- read state ;;
      (if truthy (field st1 "online")
       then (apiRequest api (PatchSave (VStr videoId) (VBool newSaved)) ;;
             ret tt)
       else (ldata <- lift_alloc new_object ;;
             queueAction "save"
               (VObject ldata
                  [("videoId", VStr videoId); ("saved", VBool newSaved)])
               id)) ;;
      ret newSaved)
     (fun error =>
        p' <- submit
                (UFun (set_membership "savedVideos" previousSaved (VStr videoId))) ;;
        await p' ;;
        throw error))%async.

(** [isVideoLiked(videoId)] / [isVideoSaved(videoId)] *)
Definition isVideoLiked (videoId : string) (w : World) : outcome bool :=
  has (field (state w) "likedVideos") (VStr videoId).
Definition isVideoSaved (videoId : string) (w : World) : outcome bool :=
  has (field (state w) "savedVideos") (VStr videoId).

(** *** Reading storage *)

(** [localStorage.getItem(k)]: [None] when the key is absent; the stored
    text otherwise, a JSON document or the text [undefined]. *)
Fixpoint storage_get (st : list (string * option json)) (k : string)
  : option (option json) :=
  match st with
  | [] => None
  | (k', text) :: st' =>
      if String.eqb k' k then Some text else storage_get st' k
  end.

Section Threading.
Variables (A B : Type) (f : A -> loc -> B * loc).

(** Building the parts of a composite one after the other, each allocating
    after the one before. *)
Fixpoint thread (l : list A) (next : loc) : list B * loc :=
  match l with
  | [] => ([], next)
  | x :: l' =>
      let (y, n1) := f x next in
      let (ys, n2) := thread l' n1 in
      (y :: ys, n2)
  end.
End Threading.

(** [JSON.parse] of the text of a document: arrays and objects are freshly
    allocated; of two members of the same name the later one wins. *)
Fixpoint parse (j : json) (next : loc) : value * loc :=
  match j with
  | JNull => (VNull, next)
  | JBool b => (VBool b, next)
  | JNum n => (VNum n, next)
  | JStr s => (VStr s, next)
  | JArr items =>
      let (vs, next') := thread parse items (S next) in
      (VArray next vs, next')
  | JObj members =>
      let (fs, next') :=
        thread (fun kx n => let (v, n1) := parse (snd kx) n in
                            ((fst kx, v), n1))
               members (S next) in
      (VObject next
         (fold_left (fun acc kv => assign (fst kv) (snd kv) acc) fs []),
       next')
  end.

(** [await this.getStorage(key)]: the value read, and whether the [catch]
    branch printed its console line.  An absent item gives [null]; a stored
    text that is not JSON makes [JSON.parse] throw, which is caught and
    gives [null] too. *)
Definition getStorage (key : string) (w : World) : World * (value * bool) :=
  match storage_get (storage w) ("socialflow_" ++ key)%string with
  | None => (w, (VNull, false))
  | Some None => (w, (VNull, true))
  | Some (Some j) =>
      let (v, next) := parse j (next_loc w) in
      (set_next_loc next w, (v, false))
  end.

(** *** Settings, cleanup, and the page's own submissions *)

(** [cleanup()].  The debounced saver is the plain function [debounce]
    returns, which has no [cancel]: the optional call does nothing, and a
    save that was armed stays armed.  The subscriber Map is emptied. *)
Definition cleanup (w : World) : World := with_mgr (set_subscribers []) w.

(** [getUISettings()] *)
Definition getUISettings (w : World) : value := field (state w) "ui".

(** The name of the [n]-th index of an array or a string. *)
Definition index_name (n : nat) : string :=
  NilEmpty.string_of_uint (Nat.to_uint n).

Definition indexed (xs : list value) : object :=
  combine (map index_name (seq 0 (List.length xs))) xs.

(** The own enumerable properties that [{...v}] and [Object.entries(v)]
    read: the fields of a plain object, the indices of an array or of a
    string, nothing of any other value. *)
Definition spread_props (v : value) : object :=
  match v with
  | VObject _ fs => fs
  | VArray _ items => indexed items
  | VStr s => indexed (chars s)
  | _ => []
  end.

(** [state => ({ ui: { ...state.ui, ...newSettings } })] *)
Definition ui_update (newSettings : value) (st : object) : Alloc value :=
  (lui <- new_object ;;
   llit <- new_object ;;
   aret (VObject llit
     [("ui", VObject lui (spread (spread_props (field st "ui"))
                                 (spread_props newSettings)))]))%alloc.

(** [updateUISettings(newSettings)] *)
Definition updateUISettings (newSettings : value) (w : World) : World :=
  fst (setState (UFun (ui_update newSettings)) w).

(** [toggleTheme()] of the application, as far as the manager is concerned
    (the call of [setTheme] in between writes to the document only). *)
Definition toggleTheme : Async unit :=
  (st <- read state ;;
   currentTheme <- lift_outcome (get_prop (field st "ui") "theme") ;;
   let newTheme :=
     if strict_eq currentTheme (VStr "dark") then "light" else "dark" in
   st' <- read state ;;
   lui <- lift_alloc new_object ;;
   llit <- lift_alloc new_object ;;
   submit (UVal (VObject llit
     [("ui", VObject lui (spread (spread_props (field st' "ui"))
                                 [("theme", VStr newTheme)]))])) ;;
   ret tt)%async.

(** The submission of the application's [handleStateError]:
    [setState({ videos: new Map(), likedVideos: new Set(), savedVideos: new Set() })]. *)
Definition reset_collections : Async unit :=
  (lvideos <- lift_alloc new_object ;;
   lliked <- lift_alloc new_object ;;
   lsaved <- lift_alloc new_object ;;
   llit <- lift_alloc new_object ;;
   submit (UVal (VObject llit
     [("videos", VMap lvideos []);
      ("likedVideos", VSet lliked []);
      ("savedVideos", VSet lsaved [])])) ;;
   ret tt)%async.

(** *** Loading from storage *)

(** The console lines of [getStorage] and [loadFromStorage]. *)
Inductive storage_line : Type :=
| StorageGetError (key : string)
| StorageLoadError (e : error).

(** [storageData[key] = await this.getStorage(key)]: the value read and the
    line printed, if any. *)
Definition load_item (key : string) : Async (value * list storage_line) :=
  fun w =>
    let (w1, r) := getStorage key w in
    (run_microtasks w1,
     Some (Normal (fst r, if snd r then [StorageGetError key] else []))).

(** [v || fallback], the fallback being a literal that is allocated when it
    is needed. *)
Definition or_fresh (v : value) (fallback : loc -> value) : Alloc value :=
  if truthy v then aret v else (l <- new_object ;; aret (fallback l))%alloc.

(** The updater of [loadFromStorage]:
    [state => ({ user: storageData.user || state.user,
                 likedVideos: new Set(storageData.likedVideos || []),
                 savedVideos: new Set(storageData.savedVideos || []),
                 currentMediaIndexes:
                   new Map(Object.entries(storageData.currentMediaIndexes || {})),
                 ui: { ...state.ui, ...storageData.ui } })] *)
Definition restore (user likedVideos savedVideos currentMediaIndexes ui : value)
  (st : object) : Alloc value :=
  (let user' := if truthy user then user else field st "user" in
   likedSource <- or_fresh likedVideos (fun l => VArray l []) ;;
   liked <- iterate likedSource ;;
   lliked <- new_object ;;
   savedSource <- or_fresh savedVideos (fun l => VArray l []) ;;
   saved <- iterate savedSource ;;
   lsaved <- new_object ;;
   indexSource <- or_fresh currentMediaIndexes (fun l => VObject l []) ;;
   let pairs :=
     map (fun kv => (VStr (fst kv), snd kv)) (spread_props indexSource) in
   lentries <- new_object ;;
   entries <- (fun next => Normal (entry_arrays pairs next)) ;;
   lmap <- new_object ;;
   lui <- new_object ;;
   llit <- new_object ;;
   aret (VObject llit
     [("user", user');
      ("likedVideos", VSet lliked (set_of liked));
      ("savedVideos", VSet lsaved (set_of saved));
      ("currentMediaIndexes", VMap lmap (map_of pairs));
      ("ui", VObject lui (spread (spread_props (field st "ui"))
                                 (spread_props ui)))]))%alloc.

(** [loadFromStorage()]: the lines it and [getStorage] print, in order. *)
Definition loadFromStorage : Async (list storage_line) :=
  (lift_alloc new_object ;;
   lift_alloc new_object ;;
   user <- load_item "user" ;;
   likedVideos <- load_item "likedVideos" ;;
   savedVideos <- load_item "savedVideos" ;;
   currentMediaIndexes <- load_item "currentMediaIndexes" ;;
   ui <- load_item "ui" ;;
   let lines :=
     snd user ++ snd likedVideos ++ snd savedVideos ++
     snd currentMediaIndexes ++ snd ui in
   try_catch
     (p <- submit (UFun (restore (fst user) (fst likedVideos)
                                 (fst savedVideos) (fst currentMediaIndexes)
                                 (fst ui))) ;;
      await p ;;
      ret lines)
     (fun e => ret (lines ++ [StorageLoadError e])))%async.

(** * Vocabulary of the properties *)

(** The notions the properties below are stated with, followed by the
    concrete pages, candidates and collaborators they are tried on. *)

(** ** Induction on JSON documents *)

Section JsonInduction.
Variable P : json -> Prop.
Hypothesis HNull : P JNull.
Hypothesis HBool : forall b, P (JBool b).
Hypothesis HNum : forall n, P (JNum n).
Hypothesis HStr : forall s, P (JStr s).
Hypothesis HArr : forall items, Forall P items -> P (JArr items).
Hypothesis HObj :
  forall members, Forall (fun kv => P (snd kv)) members -> P (JObj members).

Fixpoint json_nested_ind (j : json) : P j :=
  match j with
  | JNull => HNull
  | JBool b => HBool b
  | JNum n => HNum n
  | JStr s => HStr s
  | JArr items =>
      HArr
        ((fix all (l : list json) : Forall P l :=
            match l with
            | [] => Forall_nil P
            | x :: l' => Forall_cons x (json_nested_ind x) (all l')
            end) items)
  | JObj members =>
      HObj
        ((fix all (l : list (string * json))
            : Forall (fun kv => P (snd kv)) l :=
            match l with
            | [] => Forall_nil _
            | kv :: l' =>
                Forall_cons kv (json_nested_ind (snd kv)) (all l')
            end) members)
  end.
End JsonInduction.

(** ** Equality, as the code decides it and as the specification words it *)

Definition both_maps (a b : value) : bool :=
  match a, b with VMap _ _, VMap _ _ => true | _, _ => false end.
Definition both_sets (a b : value) : bool :=
  match a, b with VSet _ _, VSet _ _ => true | _, _ => false end.

(** What [isEqual] decides: identity; for two Maps, same size and every entry
    of the first found, with an identical value, in the second; for two Sets,
    same size and every member of the first a member of the second; for any
    other pair, the same JSON text. *)
Inductive Equal : value -> value -> Prop :=
| Equal_identical a b :
    strict_eq a b = true -> Equal a b
| Equal_maps l l' ea eb :
    List.length ea = List.length eb ->
    (forall k v, In (k, v) ea -> strict_eq (map_get eb k) v = true) ->
    Equal (VMap l ea) (VMap l' eb)
| Equal_sets l l' sa sb :
    List.length sa = List.length sb ->
    (forall x, In x sa -> exists y, In y sb /\ strict_eq y x = true) ->
    Equal (VSet l sa) (VSet l' sb)
| Equal_json a b :
    both_maps a b = false -> both_sets a b = false ->
    stringify a = stringify b -> Equal a b.

(** The equality the specification describes for the change detector:
    structural on two Maps (same size, same key-to-value pairs) and on two
    Sets (same size, same members), reference/value equality on any other
    pair. *)
Definition same_pairs (ea eb : list (value * value)) : bool :=
  let has_pair es kv :=
    existsb (fun kv' => strict_eq (fst kv') (fst kv)
                        && strict_eq (snd kv') (snd kv)) es in
  forallb (has_pair eb) ea && forallb (has_pair ea) eb.

Definition same_members (sa sb : list value) : bool :=
  forallb (set_has sb) sa && forallb (set_has sa) sb.

Definition equal_as_specified (a b : value) : bool :=
  match a, b with
  | VMap _ ea, VMap _ eb =>
      Nat.eqb (List.length ea) (List.length eb) && same_pairs ea eb
  | VSet _ sa, VSet _ sb =>
      Nat.eqb (List.length sa) (List.length sb) && same_members sa sb
  | _, _ => strict_eq a b
  end.

(** The change detector as the specification states it: a field is reported
    exactly when its two values are not equal in the sense above. *)
Definition detects_as_specified : Prop :=
  forall previous current key,
    In key (getChangedKeys previous current) <->
    In key (keys previous ++ keys current) /\
    equal_as_specified (field previous key) (field current key) = false.

(** ** Submissions, commits and notifications *)

(** The verdict of [validateState], apart from the console line. *)
Definition validates (st : value) : outcome bool :=
  match first_violation st schema with
  | Throw e => Throw e
  | Normal None => Normal true
  | Normal (Some _) => Normal false
  end.

(** Nothing in flight. *)
Definition idle (w : World) : Prop :=
  isMutating (mgr w) = false /\ microtasks w = [].

(** What subscribers and the console observe. *)
Definition observe (cs : list (nat * call_args)) (ls : list log_entry)
  (w : World) : World :=
  {| mgr := mgr w; microtasks := microtasks w;
     next_promise := next_promise w; settled := settled w;
     console := console w ++ ls; calls := calls w ++ cs; clock := clock w;
     storage := storage w; requests := requests w; fetches := fetches w;
     next_loc := next_loc w |}.

(** The console lines a round of calls leaves: one per callback that
    throws. *)
Definition reports (cbs : list callback) (args : call_args)
  (report : error -> log_entry) : list log_entry :=
  flat_map (fun cb => match cb_run cb args with
                      | None => []
                      | Some e => [report e]
                      end) cbs.

(** The calls one changed key gives rise to, and their console lines. *)
Definition key_calls (ss : list (string * list callback))
  (previousState currentState : object) (key : string)
  : list (nat * call_args) :=
  match subs_get ss key with
  | Some cbs =>
      map (fun cb => (cb_id cb,
                      KeyArgs (field currentState key)
                              (field previousState key) key)) cbs
  | None => []
  end.

Definition key_reports (ss : list (string * list callback))
  (previousState currentState : object) (key : string) : list log_entry :=
  match subs_get ss key with
  | Some cbs =>
      reports cbs
        (KeyArgs (field currentState key) (field previousState key) key)
        (SubscriberError key)
  | None => []
  end.

(** The calls of one notification round: for each changed key in turn its
    callbacks in registration order, then the wildcard callbacks.  Which
    callbacks throw plays no part. *)
Definition notified (ss : list (string * list callback))
  (previousState currentState : object) : list (nat * call_args) :=
  let changedKeys := getChangedKeys previousState currentState in
  flat_map (key_calls ss previousState currentState) changedKeys ++
  match subs_get ss "*" with
  | Some cbs =>
      map (fun cb => (cb_id cb,
                      AllArgs currentState previousState changedKeys)) cbs
  | None => []
  end.

Definition reported (ss : list (string * list callback))
  (previousState currentState : object) : list log_entry :=
  let changedKeys := getChangedKeys previousState currentState in
  flat_map (key_reports ss previousState currentState) changedKeys ++
  match subs_get ss "*" with
  | Some cbs =>
      reports cbs (AllArgs currentState previousState changedKeys)
              GlobalSubscriberError
  | None => []
  end.

(** The world an accepted submission's job starts in: the flag is set, the
    promise handed out, the job taken off the queue. *)
Definition started (w : World) : World :=
  set_microtasks [] (fst (new_promise (with_mgr (set_isMutating true) w))).

(** What a successful [try] block leaves behind. *)
Definition commit (newState : value) (next : loc) (w : World) : World :=
  let previousState := state w in
  let currentState := spread previousState (own_fields newState) in
  let entry := {| timestamp := clock w;
                  previous := previousState;
                  current := currentState |} in
  saveToStorageDebounced
    (observe (notified (subscribers (mgr w)) previousState currentState)
             (reported (subscribers (mgr w)) previousState currentState)
       (with_mgr (push_history entry)
          (with_mgr (set_state currentState) (set_next_loc next w)))).

(** Two worlds that differ at most in their console, in the promises handed
    out and in how those settled. *)
Definition same_engine (w w' : World) : Prop :=
  mgr w = mgr w' /\ microtasks w = microtasks w' /\ calls w = calls w' /\
  clock w = clock w' /\ next_loc w = next_loc w'.

(** ** Sequences of submissions *)

(** Submissions made back to back, without yielding in between: all but the
    first arrive while one is in flight. *)
Fixpoint submit_all (us : list updater) (w : World) : World * list promise :=
  match us with
  | [] => (w, [])
  | u :: rest =>
      let (w1, p) := setState u w in
      let (w2, ps) := submit_all rest w1 in
      (w2, p :: ps)
  end.

(** What the specification promises of such a burst once the queue has run:
    one history entry per submission, and every promise resolved with a
    snapshot. *)
Definition serializes (us : list updater) (w : World) : Prop :=
  let w2 := run_microtasks (fst (submit_all us w)) in
  let ps := snd (submit_all us w) in
  List.length (history (mgr w2)) =
    List.length (history (mgr w)) + List.length us /\
  Forall (fun p => exists s,
            settlement_of p (settled w2) = Some (Resolved (Some s))) ps.

(** Submissions made in turn: each after the job of the one before has
    run. *)
Fixpoint submit_in_turn (us : list updater) (w : World)
  : World * list promise :=
  match us with
  | [] => (w, [])
  | u :: rest =>
      let (w1, p) := setState u w in
      let (w2, ps) := submit_in_turn rest (run_microtasks w1) in
      (w2, p :: ps)
  end.

(** The snapshots a sequence of updaters produces when each candidate is
    computed from, and merged over, the result of the one before. *)
Fixpoint snapshots (us : list updater) (s : object) (next : loc)
  : list object :=
  match us with
  | [] => []
  | u :: rest =>
      match candidate u s next with
      | Normal (c, next') =>
          let s' := spread s (own_fields c) in
          s' :: snapshots rest s' next'
      | Throw _ => []
      end
  end.

(** Every candidate of the sequence, so computed, passes validation. *)
Fixpoint all_valid (us : list updater) (s : object) (next : loc) : Prop :=
  match us with
  | [] => True
  | u :: rest =>
      match candidate u s next with
      | Normal (c, next') =>
          validates c = Normal true /\
          all_valid rest (spread s (own_fields c)) next'
      | Throw _ => False
      end
  end.

(** The history entries of a chain of commits starting from [s0]. *)
Definition entries (t : Z) (s0 : object) (snaps : list object)
  : list history_entry :=
  map (fun pc => {| timestamp := t; previous := fst pc; current := snd pc |})
      (combine (s0 :: snaps) snaps).

(** [push] / [shift] on the bare list. *)
Definition push_bounded (max : nat) (h : list history_entry)
  (e : history_entry) : list history_entry :=
  if Nat.ltb max (List.length (h ++ [e])) then tl (h ++ [e]) else h ++ [e].

(** ** Submissions that cannot commit *)

(** An updater whose candidate can never pass validation. *)
Definition always_rejected (u : updater) : Prop :=
  forall s next c next',
    candidate u s next = Normal (c, next') -> validates c <> Normal true.

Definition job_rejected (j : job) : Prop :=
  match j with Mutation u _ => always_rejected u end.

(** The manager with its flag lowered. *)
Definition at_rest (m : Manager) : Manager := set_isMutating false m.

(** A world whose manager is [m0] up to the flag, whose queued jobs are all
    bound to be rejected, and whose flag is down when nothing is queued. *)
Definition inert (m0 : Manager) (w : World) : Prop :=
  at_rest (mgr w) = m0 /\
  Forall job_rejected (microtasks w) /\
  (microtasks w = [] -> isMutating (mgr w) = false).

(** A method that keeps every world inert. *)
Definition keeps (m0 : Manager) {A : Type} (c : Async A) : Prop :=
  forall w, inert m0 w -> inert m0 (fst (c w)).

(** What the specification promises of a submission whose candidate fails
    the schema check, once the queue has run: its promise is rejected, and
    the snapshot, the history and the calls made to subscribers are the ones
    from before. *)
Definition rejects_atomically (u : updater) (w : World) : Prop :=
  let w2 := run_microtasks (fst (setState u w)) in
  (exists e,
     settlement_of (snd (setState u w)) (settled w2) = Some (Rejected e)) /\
  state w2 = state w /\
  history (mgr w2) = history (mgr w) /\
  calls w2 = calls w.

(** ** Promises *)

(** Every promise recorded or awaited by a queued job was handed out
    before. *)
Definition promises_below (w : World) : Prop :=
  (forall p r, In (p, r) (settled w) -> p < next_promise w) /\
  (forall u p, In (Mutation u p) (microtasks w) -> p < next_promise w).

Definition promise_of (j : job) : promise :=
  match j with Mutation _ p => p end.

(** ** Sample pages, candidates and collaborators *)

(** Two snapshots whose [ui] records are distinct objects with the same
    content. *)
Definition ui_before : object := [("ui", VObject 6 [("theme", VStr "dark")])].
Definition ui_after : object := [("ui", VObject 7 [("theme", VStr "dark")])].

(** A snapshot missing nothing but with a non-boolean [online]. *)
Definition bad_online : value :=
  VObject 9
    [("user", VNull); ("videos", VMap 0 []); ("likedVideos", VSet 1 []);
     ("savedVideos", VSet 2 []); ("online", VStr "yes"); ("ui", VNull)].

(** A full candidate: every schema key present with an admissible type. *)
Definition full_candidate (l : loc) (liked : list value) : value :=
  VObject l
    [("user", VNull); ("videos", VMap 0 []); ("likedVideos", VSet (S l) liked);
     ("savedVideos", VSet 2 []); ("online", VBool true);
     ("ui", VObject (S (S l)) [("theme", VStr "light")])].

(** The page right after a first submission: that one is in flight. *)
Definition one_in_flight : World :=
  fst (setState (UVal (full_candidate 10 [VStr "a"])) (boot true 0%Z)).

(** A subscriber on [videos] that always throws, and a wildcard subscriber. *)
Definition throwing_cb : callback :=
  {| cb_id := 1; cb_run := fun _ => Some (Failure "render failed") |}.
Definition quiet_cb : callback :=
  {| cb_id := 2; cb_run := fun _ => None |}.

Definition page_with_subscribers : World :=
  subscribe "*" quiet_cb (subscribe "videos" throwing_cb (boot true 0%Z)).

Definition new_videos : value :=
  VObject 40
    [("user", VNull); ("videos", VMap 41 [(VStr "1", VStr "clip")]);
     ("likedVideos", VSet 1 []); ("savedVideos", VSet 2 []);
     ("online", VBool true); ("ui", VObject 42 [])].

(** The candidate [{user: null, videos: null, likedVideos: null,
    savedVideos: null, online, ui: null}]. *)
Definition all_null (l : loc) (online : bool) : value :=
  VObject l
    [("user", VNull); ("videos", VNull); ("likedVideos", VNull);
     ("savedVideos", VNull); ("online", VBool online); ("ui", VNull)].

(** An updater that marks a video as liked, returning a full candidate. *)
Definition like (x : string) : updater :=
  UFun (fun st =>
    (liked <- iterate (field st "likedVideos") ;;
     lset <- new_object ;;
     llit <- new_object ;;
     aret (VObject llit
       [("user", field st "user"); ("videos", field st "videos");
        ("likedVideos", VSet lset (set_of (liked ++ [VStr x])));
        ("savedVideos", field st "savedVideos");
        ("online", field st "online"); ("ui", field st "ui")]))%alloc).

(** A well-formed submission: the six schema fields as they stand, and one
    field more. *)
Definition restating (name : string) (v : value) : updater :=
  UFun (fun st =>
    (llit <- new_object ;;
     aret (VObject llit
       [("user", field st "user"); ("videos", field st "videos");
        ("likedVideos", field st "likedVideos");
        ("savedVideos", field st "savedVideos");
        ("online", field st "online"); ("ui", field st "ui");
        (name, v)]))%alloc).

Definition feed_entry : value :=
  VObject 31 [("data", VStr "feed"); ("timestamp", VNum 0)].
Definition user_entry : value :=
  VObject 32 [("data", VStr "me"); ("timestamp", VNum 0)].

(** A page whose cache holds [cache_videos] and [cache_user], committed
    through [setState] with a full candidate. *)
Definition cached_page : World :=
  run_microtasks
    (fst (setState
            (restating "cache"
               (VMap 30 [(VStr "cache_videos", feed_entry);
                         (VStr "cache_user", user_entry)]))
            (boot true 0%Z))).

Definition feed : producer :=
  {| pr_id := 7; pr_result := Normal (VStr "feed") |}.

Definition failing : remote := fun _ _ => Throw (Failure "HTTP 500").
Definition answering : remote := fun _ _ => Normal VNull.

Definition like_action (l : loc) (id videoId : string) : value :=
  VObject l
    [("type", VStr "like");
     ("data", VObject (S l) [("videoId", VStr videoId); ("liked", VBool true)]);
     ("timestamp", VNum 0);
     ("id", VStr id)].

Definition action_A : value := like_action 20 "a" "1".
Definition action_B : value := like_action 22 "b" "2".
Definition action_C : value := like_action 24 "c" "3".

(** A page whose pending list is [[A, B, C]], committed through [setState]
    with a full candidate. *)
Definition queued_page : World :=
  run_microtasks
    (fst (setState
            (restating "pendingActions"
               (VArray 30 [action_A; action_B; action_C]))
            (boot true 0%Z))).

(** The payload of a queued like. *)
Definition like_data (l : loc) (videoId : string) : value :=
  VObject l [("videoId", VStr videoId); ("liked", VBool true)].

(** An offline page on which [A], [B] and [C] are enqueued through
    [queueAction], one after the other, and which then goes online. *)
Definition enqueued_offline : World :=
  let w0 := boot false 0%Z in
  let w1 := run_microtasks (fst (queueAction "like" (like_data 50 "1") "a" w0)) in
  let w2 := run_microtasks (fst (queueAction "like" (like_data 51 "2") "b" w1)) in
  run_microtasks (fst (queueAction "like" (like_data 52 "3") "c" w2)).

(** The remote service while [B] cannot be delivered: the second request of
    the page fails. *)
Definition second_fails : remote :=
  fun n _ => if Nat.eqb n 1 then Throw (Failure "HTTP 500") else Normal VNull.

(** ** Identity of values *)

(** What [===] compares: a primitive's value, an object's kind and address. *)
Inductive identity : Type :=
| IUndef
| INull
| IBool (b : bool)
| INum (n : Z)
| IStr (s : string)
| IRef (kind : nat) (l : loc).

Definition identity_of (v : value) : identity :=
  match v with
  | VUndef => IUndef
  | VNull => INull
  | VBool b => IBool b
  | VNum n => INum n
  | VStr s => IStr s
  | VObject l _ => IRef 0 l
  | VArray l _ => IRef 1 l
  | VMap l _ => IRef 2 l
  | VSet l _ => IRef 3 l
  | VFun l => IRef 4 l
  end.

(** ** The queue *)

(** At most one job is queued, and the flag is up exactly when one is. *)
Definition coherent (w : World) : Prop :=
  match microtasks w with
  | [] => isMutating (mgr w) = false
  | [_] => isMutating (mgr w) = true
  | _ => False
  end.

(** What a page does to the manager between two events: it submits a
    mutation, or lets the microtask checkpoint run. *)
Inductive move : Type :=
| Submit (u : updater)
| Checkpoint.

Definition make (m : move) (w : World) : World :=
  match m with
  | Submit u => fst (setState u w)
  | Checkpoint => run_microtasks w
  end.

Definition play (ms : list move) (w : World) : World :=
  fold_left (fun w m => make m w) ms w.

(** ** The registry *)

(** [cb] is among [cbs] (callbacks are told apart by identity). *)
Definition among (cb : callback) (cbs : list callback) : bool :=
  existsb (fun c => Nat.eqb (cb_id c) (cb_id cb)) cbs.

(** The callbacks the registry holds under [key]: none when the key has no
    entry. *)
Definition registered (key : string) (w : World) : list callback :=
  match subs_get (subscribers (mgr w)) key with
  | Some cbs => cbs
  | None => []
  end.

(** ** Collections without repetition *)

(** The members of a Set, or the keys of a Map, are pairwise distinct: no
    two are identical in the sense of [===]. *)
Definition distinct (vs : list value) : Prop := NoDup (map identity_of vs).

(** An updater that resubmits the six schema fields as they stand. *)
Definition resubmit : updater :=
  UFun (fun st =>
    (llit <- new_object ;;
     aret (VObject llit
       [("user", field st "user"); ("videos", field st "videos");
        ("likedVideos", field st "likedVideos");
        ("savedVideos", field st "savedVideos");
        ("online", field st "online"); ("ui", field st "ui")]))%alloc).

(** No entry of the Map holds [undefined]. *)
Definition defined_values (es : list (value * value)) : Prop :=
  forall k v, In (k, v) es -> v <> VUndef.

(** ** Documents read back from storage *)

(** No object of the document has two members of the same name. *)
Fixpoint no_repeat (ks : list string) : bool :=
  match ks with
  | [] => true
  | k :: rest => negb (existsb (String.eqb k) rest) && no_repeat rest
  end.

Fixpoint unique_names (j : json) : bool :=
  match j with
  | JArr items => forallb unique_names items
  | JObj members =>
      no_repeat (map fst members)
      && forallb (fun kx => unique_names (snd kx)) members
  | _ => true
  end.

(** The members and the elements [JSON.stringify] prints for an object and
    for an array. *)
Fixpoint members_json (fs : list (string * value)) : list (string * json) :=
  match fs with
  | [] => []
  | (k, x) :: fs' =>
      match stringify x with
      | Some j => (k, j) :: members_json fs'
      | None => members_json fs'
      end
  end.

Definition elements_json (xs : list value) : list json :=
  map (fun x => match stringify x with Some j => j | None => JNull end) xs.

(** ** The candidates the manager builds *)

(** [pattern] occurs in [s]. *)
Definition occurs_in (pattern s : string) : Prop :=
  exists before after, s = (before ++ pattern ++ after)%string.

(** Every key of the cache is a string. *)
Definition string_keys (es : list (value * value)) : Prop :=
  forall k v, In (k, v) es -> exists s, k = VStr s.

(** The test [invalidateCache] applies to a string key. *)
Definition key_matches (pattern : string) (kv : value * value) : bool :=
  match fst kv with
  | VStr s => includes s pattern
  | _ => false
  end.

(** The value [a.id] of a pending action that is an object. *)
Definition id_of (a : value) : value :=
  match a with
  | VObject _ fs => field fs "id"
  | _ => VUndef
  end.

(** Neither [undefined] nor [null]: a property can be read off it. *)
Definition readable (a : value) : Prop := a <> VUndef /\ a <> VNull.

(** A producer that fails. *)
Definition failing_feed : producer :=
  {| pr_id := 9; pr_result := Throw (Failure "offline") |}.

(** ** The requests a replay sends *)

(** A pending action as [likeVideo] and [saveVideo] queue it: the action
    whose replay is the request [req]. *)
Definition pending (l : loc) (req : request) (now : Z) (id : value) : value :=
  match req with
  | PatchLike videoId liked =>
      VObject l
        [("type", VStr "like");
         ("data", VObject (S l) [("videoId", videoId); ("liked", liked)]);
         ("timestamp", VNum now);
         ("id", id)]
  | PatchSave videoId saved =>
      VObject l
        [("type", VStr "save");
         ("data", VObject (S l) [("videoId", videoId); ("saved", saved)]);
         ("timestamp", VNum now);
         ("id", id)]
  end.

(** The requests that go out when [reqs] are to be sent in order, the first
    being the [n]-th request of the page, and sending stops after the first
    one that fails. *)
Fixpoint attempted (api : remote) (n : nat) (reqs : list request)
  : list request :=
  match reqs with
  | [] => []
  | r :: rest =>
      r :: match api n r with
           | Normal _ => attempted api (S n) rest
           | Throw _ => []
           end
  end.

(** * Properties *)

(** ** Equality of JSON documents *)

Lemma json_eqb_refl : forall j, json_eqb j j = true.
Proof.
  induction j using json_nested_ind; simpl.
  - reflexivity.
  - apply Bool.eqb_reflx.
  - apply Z.eqb_refl.
  - apply String.eqb_refl.
  - induction H as [|x l Hx _ IH]; [reflexivity|].
    rewrite Hx. exact IH.
  - induction H as [|[k x] l Hx _ IH]; [reflexivity|].
    simpl in Hx. rewrite String.eqb_refl, Hx. exact IH.
Qed.

Lemma json_eqb_sound : forall a b, json_eqb a b = true -> a = b.
Proof.
  induction a using json_nested_ind;
    intros [| y | y | y | ys | ys]; simpl; try discriminate.
  - reflexivity.
  - intros E. apply Bool.eqb_prop in E. now subst.
  - intros E. apply Z.eqb_eq in E. now subst.
  - intros E. apply String.eqb_eq in E. now subst.
  - revert ys.
    induction H as [|x l Hx _ IH]; intros [|y ys] E; try discriminate.
    + reflexivity.
    + apply andb_true_iff in E. destruct E as [E1 E2].
      apply Hx in E1. apply IH in E2. congruence.
  - revert ys.
    induction H as [|[k x] l Hx _ IH]; intros [|[k' y] ys] E;
      try discriminate.
    + reflexivity.
    + apply andb_true_iff in E. destruct E as [E12 E3].
      apply andb_true_iff in E12. destruct E12 as [E1 E2].
      apply String.eqb_eq in E1. simpl in Hx. apply Hx in E2.
      apply IH in E3. congruence.
Qed.

Lemma json_eqb_eq : forall a b, json_eqb a b = true <-> a = b.
Proof.
  intros a b. split.
  - apply json_eqb_sound.
  - intros ->. apply json_eqb_refl.
Qed.

Lemma same_json_eq : forall a b,
  same_json a b = true <-> stringify a = stringify b.
Proof.
  intros a b. unfold same_json.
  destruct (stringify a) as [x|], (stringify b) as [y|].
  - rewrite json_eqb_eq. split; congruence.
  - split; discriminate.
  - split; discriminate.
  - split; reflexivity.
Qed.

(** ** Change detection *)

Lemma isEqual_Equal : forall a b, isEqual a b = true <-> Equal a b.
Proof.
  intros a b. unfold isEqual. split.
  - destruct (strict_eq a b) eqn:Eid; [intros _; now apply Equal_identical|].
    destruct a, b; intros E;
      try (apply Equal_json; [reflexivity | reflexivity |];
           now apply same_json_eq).
    + apply andb_true_iff in E. destruct E as [Elen Eall].
      apply Nat.eqb_eq in Elen. rewrite forallb_forall in Eall.
      apply Equal_maps; [exact Elen|].
      intros k v Hin. exact (Eall (k, v) Hin).
    + apply andb_true_iff in E. destruct E as [Elen Eall].
      apply Nat.eqb_eq in Elen. rewrite forallb_forall in Eall.
      apply Equal_sets; [exact Elen|].
      intros x Hin. apply Eall in Hin. unfold set_has in Hin.
      now apply existsb_exists in Hin.
  - intros H. destruct (strict_eq a b) eqn:Eid; [reflexivity|].
    destruct H as [a b Hid | l l' ea eb Hlen Hall | l l' sa sb Hlen Hall
                  | a b Hm Hs Hj].
    + congruence.
    + apply andb_true_iff. split; [now apply Nat.eqb_eq|].
      apply forallb_forall. intros [k v] Hin. now apply Hall.
    + apply andb_true_iff. split; [now apply Nat.eqb_eq|].
      apply forallb_forall. intros x Hin. unfold set_has.
      apply existsb_exists. now apply Hall.
    + apply same_json_eq in Hj.
      destruct a, b; try exact Hj; simpl in Hm, Hs; discriminate.
Qed.

Lemma dedup_In : forall names k, In k (dedup names) <-> In k names.
Proof.
  induction names as [|n rest IH]; intros k; simpl; [tauto|].
  rewrite filter_In, IH. split.
  - intros [H | [H _]]; auto.
  - intros [H | H]; [now left|].
    destruct (String.eqb n k) eqn:E.
    + apply String.eqb_eq in E. now left.
    + right. split; [exact H | reflexivity].
Qed.

Lemma dedup_NoDup : forall names, NoDup (dedup names).
Proof.
  induction names as [|n rest IH]; simpl; constructor.
  - rewrite filter_In. intros [_ H]. now rewrite String.eqb_refl in H.
  - now apply NoDup_filter.
Qed.

(** C5, as stated, fails: a field replaced by a distinct object of the same
    content is not reference-equal to the old one, yet [getChangedKeys] does
    not report it, because [isEqual] falls back on comparing JSON text. *)
Lemma changed_keys_not_by_reference : ~ detects_as_specified.
Proof.
  intros H.
  assert (In "ui" (getChangedKeys ui_before ui_after)) as Hin.
  { apply H. split; [now left | reflexivity]. }
  vm_compute in Hin. exact Hin.
Qed.

(** C5, amended: [getChangedKeys] returns, without repetition, exactly the
    top-level field names of either snapshot whose two values [isEqual] does
    not equate, where [isEqual] equates identical values, two Maps of the
    same size such that every entry of the first has an identical value under
    its key in the second, two Sets of the same size such that every member
    of the first is in the second, and any other pair with the same JSON
    text. *)
Theorem changed_keys_exact : forall previous current,
  NoDup (getChangedKeys previous current) /\
  forall key,
    In key (getChangedKeys previous current) <->
    In key (keys previous ++ keys current) /\
    ~ Equal (field previous key) (field current key).
Proof.
  intros previous current. unfold getChangedKeys. split.
  - apply NoDup_filter, dedup_NoDup.
  - intros key. rewrite filter_In, dedup_In, negb_true_iff.
    rewrite <- isEqual_Equal.
    destruct (isEqual (field previous key) (field current key)).
    + split; intros [Hin Hne]; [discriminate | now exfalso; apply Hne].
    + split; intros [Hin _]; (split; [exact Hin|]);
        [discriminate | reflexivity].
Qed.

(** ** Validation *)

Lemma validateState_verdict : forall st w,
  snd (validateState st w) = validates st.
Proof.
  intros st w. unfold validateState, validates.
  now destruct (first_violation st schema) as [[line|]|e].
Qed.

Lemma validateState_world : forall st w,
  fst (validateState st w) = w \/
  exists line, fst (validateState st w) = log line w.
Proof.
  intros st w. unfold validateState.
  destruct (first_violation st schema) as [[line|]|e]; simpl; eauto.
Qed.

Lemma includes_type_In : forall expected actual,
  includes_type expected actual = true <-> In actual expected.
Proof.
  intros expected actual. unfold includes_type. rewrite existsb_exists. split.
  - intros [x [Hin E]]. apply String.eqb_eq in E. now subst.
  - intros Hin. exists actual. split; [exact Hin | apply String.eqb_refl].
Qed.

Lemma first_violation_none : forall st entries,
  first_violation st entries = Normal None <->
  forall key expected, In (key, expected) entries ->
    exists v, get_prop st key = Normal v /\ In (typeof v) expected.
Proof.
  intros st entries. induction entries as [|[key expected] rest IH]; simpl.
  - split; [intros _ k e [] | reflexivity].
  - destruct (get_prop st key) as [v|e] eqn:Eg.
    + destruct (includes_type expected (typeof v)) eqn:Einc.
      * rewrite IH. split.
        -- intros H k ex [Heq | Hin]; [|now apply H].
           inversion Heq; subst. exists v. split; [exact Eg|].
           now apply includes_type_In.
        -- intros H k ex Hin. apply H. now right.
      * split; [discriminate|].
        intros H. destruct (H key expected (or_introl eq_refl)) as [v' [E Hin]].
        rewrite Eg in E. inversion E; subst.
        apply includes_type_In in Hin. congruence.
    + split; [discriminate|].
      intros H. destruct (H key expected (or_introl eq_refl)) as [v' [E _]].
      rewrite Eg in E. discriminate.
Qed.

(** A candidate that passes validation is a plain object: nothing else has
    a boolean [online]. *)
Lemma validates_object : forall st,
  validates st = Normal true -> exists l fs, st = VObject l fs.
Proof.
  intros st H. unfold validates in H.
  destruct (first_violation st schema) as [[line|]|e] eqn:E; try discriminate.
  rewrite first_violation_none in E.
  destruct (E "online" ["boolean"]) as [v [Hg Hin]].
  { unfold schema. simpl. tauto. }
  destruct st; simpl in Hg; try discriminate; eauto;
    inversion Hg; subst; simpl in Hin; destruct Hin as [Hin|[]]; discriminate.
Qed.

(** ** The runtime *)

Lemma observe_nil : forall w, observe [] [] w = w.
Proof. intros []. unfold observe. simpl. now rewrite !app_nil_r. Qed.

Lemma observe_observe : forall cs1 ls1 cs2 ls2 w,
  observe cs2 ls2 (observe cs1 ls1 w) = observe (cs1 ++ cs2) (ls1 ++ ls2) w.
Proof. intros. unfold observe. simpl. now rewrite !app_assoc. Qed.

Lemma invoke_observe : forall cb args report w,
  invoke cb args report w = observe [(cb_id cb, args)] (reports [cb] args report) w.
Proof.
  intros cb args report w. unfold invoke, reports. simpl.
  destruct (cb_run cb args); unfold observe, log, record_call; simpl;
    now rewrite ?app_nil_r.
Qed.

Lemma invoke_all_observe : forall cbs args report w,
  invoke_all cbs args report w =
  observe (map (fun cb => (cb_id cb, args)) cbs) (reports cbs args report) w.
Proof.
  unfold invoke_all. induction cbs as [|cb cbs IH]; intros args report w.
  - simpl. symmetry. apply observe_nil.
  - simpl fold_left. rewrite IH, invoke_observe, observe_observe.
    unfold reports. simpl. now rewrite app_nil_r.
Qed.

Lemma notify_keys_observe : forall previousState currentState changed w,
  fold_left (notify_key previousState currentState) changed w =
  observe
    (flat_map (key_calls (subscribers (mgr w)) previousState currentState)
              changed)
    (flat_map (key_reports (subscribers (mgr w)) previousState currentState)
              changed) w.
Proof.
  intros previousState currentState.
  induction changed as [|key rest IH]; intros w.
  - simpl. symmetry. apply observe_nil.
  - simpl fold_left. rewrite IH. simpl flat_map.
    unfold notify_key, key_calls at 2, key_reports at 2.
    destruct (subs_get (subscribers (mgr w)) key) as [cbs|].
    + rewrite invoke_all_observe, observe_observe. reflexivity.
    + simpl. reflexivity.
Qed.

Lemma notifySubscribers_observe : forall previousState currentState w,
  notifySubscribers previousState currentState w =
  observe (notified (subscribers (mgr w)) previousState currentState)
          (reported (subscribers (mgr w)) previousState currentState) w.
Proof.
  intros previousState currentState w.
  unfold notifySubscribers, notified, reported.
  rewrite notify_keys_observe. simpl mgr.
  destruct (subs_get (subscribers (mgr w)) "*") as [cbs|].
  - rewrite invoke_all_observe, observe_observe. reflexivity.
  - now rewrite !app_nil_r.
Qed.

(** ** One submission *)

Lemma setState_idle : forall u w,
  idle w ->
  setState u w =
  (set_microtasks [Mutation u (next_promise w)]
     (fst (new_promise (with_mgr (set_isMutating true) w))),
   next_promise w).
Proof.
  intros u w [Hflag Hq]. unfold setState. rewrite Hflag. simpl.
  rewrite Hq. reflexivity.
Qed.

Lemma run_after_setState : forall u w,
  idle w ->
  run_microtasks (fst (setState u w)) =
  run_job (Mutation u (next_promise w)) (started w).
Proof.
  intros u w Hidle. rewrite setState_idle by exact Hidle. reflexivity.
Qed.

Lemma try_commit_valid : forall u w c next,
  candidate u (state w) (next_loc w) = Normal (c, next) ->
  validates c = Normal true ->
  try_commit u w = (commit c next w, Normal (spread (state w) (own_fields c))).
Proof.
  intros u w c next Hc Hv. unfold try_commit. rewrite Hc.
  unfold validateState. unfold validates in Hv.
  destruct (first_violation c schema) as [[line|]|e]; try discriminate.
  cbv zeta. rewrite notifySubscribers_observe. reflexivity.
Qed.

Lemma try_commit_invalid : forall u w c next,
  candidate u (state w) (next_loc w) = Normal (c, next) ->
  validates c = Normal false ->
  exists line,
    try_commit u w =
    (log line (set_next_loc next w), Throw InvalidStateStructure).
Proof.
  intros u w c next Hc Hv. unfold try_commit. rewrite Hc.
  unfold validateState. unfold validates in Hv.
  destruct (first_violation c schema) as [[line|]|e]; try discriminate.
  exists line. reflexivity.
Qed.

(** Whatever makes the [try] block throw, it throws before touching the
    manager, the subscribers or the queue. *)
Lemma try_commit_throw : forall u w w1 e,
  try_commit u w = (w1, Throw e) ->
  mgr w1 = mgr w /\ calls w1 = calls w /\ settled w1 = settled w /\
  microtasks w1 = microtasks w /\ next_promise w1 = next_promise w.
Proof.
  intros u w w1 e. unfold try_commit.
  destruct (candidate u (state w) (next_loc w)) as [[c next]|e0].
  - unfold validateState.
    destruct (first_violation c schema) as [[line|]|e1];
      intros H; inversion H; subst; simpl; auto.
  - intros H. inversion H; subst. auto.
Qed.

Lemma set_isMutating_idem : forall m,
  isMutating m = false ->
  set_isMutating false (set_isMutating true m) = m.
Proof. intros [] H. simpl in H. subst. reflexivity. Qed.

(** C2, as stated, fails: a submission whose candidate fails the schema
    check, made while another mutation is in flight, is dropped by the guard
    of [setState]; its candidate is never checked and its promise is
    resolved, with [undefined], instead of being rejected. *)
Lemma invalid_in_flight_not_rejected :
  candidate (UVal bad_online) (state one_in_flight) (next_loc one_in_flight) =
    Normal (bad_online, next_loc one_in_flight) /\
  validates bad_online = Normal false /\
  settlement_of (snd (setState (UVal bad_online) one_in_flight))
    (settled (run_microtasks (fst (setState (UVal bad_online) one_in_flight)))) =
    Some (Resolved None) /\
  ~ rejects_atomically (UVal bad_online) one_in_flight.
Proof.
  split; [reflexivity|]. split; [reflexivity|]. split; [reflexivity|].
  intros [[e He] _]. vm_compute in He. discriminate.
Qed.

(** C2, amended: a submission made while no mutation is in flight, whose
    candidate fails the schema check, has its promise rejected with the
    validation error ([Invalid state structure]) and leaves the manager as
    it was: the same snapshot, the same history, the same subscribers, no
    durable write scheduled; no subscriber is called; nothing stays in
    flight. *)
Theorem invalid_candidate_atomic : forall u w c next,
  idle w ->
  candidate u (state w) (next_loc w) = Normal (c, next) ->
  validates c = Normal false ->
  let w2 := run_microtasks (fst (setState u w)) in
  let p := snd (setState u w) in
  settled w2 = settled w ++ [(p, Rejected InvalidStateStructure)] /\
  state w2 = state w /\
  history (mgr w2) = history (mgr w) /\
  calls w2 = calls w /\
  mgr w2 = mgr w /\
  idle w2.
Proof.
  intros u w c next Hidle Hc Hv. cbv zeta.
  rewrite run_after_setState by exact Hidle.
  rewrite setState_idle by exact Hidle. simpl snd.
  destruct (try_commit_invalid u (started w) Hc Hv) as [line Ht].
  unfold run_job. rewrite Ht.
  destruct Hidle as [Hflag Hq].
  assert (mgr (with_mgr (set_isMutating false)
                 (settle (next_promise w) (Rejected InvalidStateStructure)
                    (log line (set_next_loc next (started w))))) = mgr w)
    as Hm.
  { simpl. now apply set_isMutating_idem. }
  unfold state. rewrite Hm. simpl.
  repeat split; auto.
Qed.

Lemma invalid_candidate_atomic_witness :
  let w := boot true 0%Z in
  let w2 := run_microtasks (fst (setState (UVal bad_online) w)) in
  settled w2 = [(0, Rejected InvalidStateStructure)] /\
  state w2 = initial_state true /\
  history (mgr w2) = [] /\
  calls w2 = [] /\
  mgr w2 = constructor true /\
  idle w2.
Proof.
  exact (@invalid_candidate_atomic (UVal bad_online) (boot true 0%Z)
           bad_online 100 (conj eq_refl eq_refl) eq_refl eq_refl).
Defined.

Lemma try_commit_cases : forall u w,
  match candidate u (state w) (next_loc w) with
  | Throw e => try_commit u w = (w, Throw e)
  | Normal (c, next) =>
      match validates c with
      | Normal true =>
          try_commit u w =
          (commit c next w, Normal (spread (state w) (own_fields c)))
      | Normal false =>
          exists line,
            try_commit u w =
            (log line (set_next_loc next w), Throw InvalidStateStructure)
      | Throw e => try_commit u w = (set_next_loc next w, Throw e)
      end
  end.
Proof.
  intros u w.
  destruct (candidate u (state w) (next_loc w)) as [[c next]|e] eqn:Hc.
  - destruct (validates c) as [[|]|e] eqn:Hv.
    + now apply try_commit_valid.
    + now apply try_commit_invalid with (c := c).
    + unfold try_commit. rewrite Hc. unfold validateState.
      unfold validates in Hv.
      destruct (first_violation c schema) as [[line|]|e1]; try discriminate.
      now inversion Hv.
  - unfold try_commit. now rewrite Hc.
Qed.

Lemma run_job_same_engine : forall j w w',
  same_engine w w' -> same_engine (run_job j w) (run_job j w').
Proof.
  intros [u p] w w' (Hm & Hq & Hc & Ht & Hl). unfold run_job.
  pose proof (try_commit_cases u w) as H.
  pose proof (try_commit_cases u w') as H'.
  unfold state in H, H'. rewrite <- Hm, <- Hl in H'.
  destruct (candidate u (_state (mgr w)) (next_loc w)) as [[c next]|e].
  - destruct (validates c) as [[|]|e].
    + rewrite H, H'. unfold same_engine, commit, state. simpl.
      rewrite Hm, Hq, Hc, Ht. auto.
    + destruct H as [line H]. destruct H' as [line' H'].
      rewrite H, H'. unfold same_engine. simpl. rewrite Hm, Hq, Hc, Ht. auto.
    + rewrite H, H'. unfold same_engine. simpl. rewrite Hm, Hq, Hc, Ht. auto.
  - rewrite H, H'. unfold same_engine. simpl. rewrite Hm, Hq, Hc, Ht, Hl. auto.
Qed.

Lemma run_jobs_same_engine : forall js w w',
  same_engine w w' ->
  same_engine (fold_left (fun w j => run_job j w) js w)
              (fold_left (fun w j => run_job j w) js w').
Proof.
  induction js as [|j js IH]; intros w w' H; simpl; [exact H|].
  apply IH. now apply run_job_same_engine.
Qed.

Lemma run_microtasks_same_engine : forall w w',
  same_engine w w' -> same_engine (run_microtasks w) (run_microtasks w').
Proof.
  intros w w' H. unfold run_microtasks.
  destruct H as (Hm & Hq & Hc & Ht & Hl). rewrite <- Hq.
  apply run_jobs_same_engine. unfold same_engine. simpl. auto.
Qed.

(** C9: a submission made while another mutation is in flight is dropped.
    Its promise is resolved at once, with [undefined]; the manager (snapshot,
    history, subscribers, flag) and the queue are as they were, so the
    updater is never run; only a console warning is left.  The outcome is
    the same for every updater, and once the mutation in flight has run the
    manager and the subscriber calls are what they would have been without
    the dropped submission. *)
Theorem in_flight_dropped : forall u w,
  isMutating (mgr w) = true ->
  let w1 := fst (setState u w) in
  let p := snd (setState u w) in
  settled w1 = settled w ++ [(p, Resolved None)] /\
  mgr w1 = mgr w /\
  microtasks w1 = microtasks w /\
  calls w1 = calls w /\
  console w1 = console w ++ [WarnMutationInProgress] /\
  (forall u', setState u' w = setState u w) /\
  mgr (run_microtasks w1) = mgr (run_microtasks w) /\
  calls (run_microtasks w1) = calls (run_microtasks w).
Proof.
  intros u w Hflag. cbv zeta.
  assert (forall u', setState u' w =
            (settle (next_promise w) (Resolved None)
               (fst (new_promise (log WarnMutationInProgress w))),
             next_promise w)) as Hs.
  { intros u'. unfold setState. rewrite Hflag. reflexivity. }
  rewrite (Hs u). simpl.
  repeat split; try reflexivity.
  - intros u'. apply Hs.
  - apply run_microtasks_same_engine. unfold same_engine. simpl. auto.
  - apply run_microtasks_same_engine. unfold same_engine. simpl. auto.
Qed.

Lemma in_flight_dropped_witness :
  let u := UVal (full_candidate 20 [VStr "b"]) in
  let w1 := fst (setState u one_in_flight) in
  let p := snd (setState u one_in_flight) in
  settled w1 = settled one_in_flight ++ [(p, Resolved None)] /\
  mgr w1 = mgr one_in_flight /\
  microtasks w1 = microtasks one_in_flight /\
  calls w1 = calls one_in_flight /\
  console w1 = console one_in_flight ++ [WarnMutationInProgress] /\
  (forall u', setState u' one_in_flight = setState u one_in_flight) /\
  mgr (run_microtasks w1) = mgr (run_microtasks one_in_flight) /\
  calls (run_microtasks w1) = calls (run_microtasks one_in_flight).
Proof.
  exact (@in_flight_dropped (UVal (full_candidate 20 [VStr "b"]))
           one_in_flight eq_refl).
Defined.

(** ** Subscriber isolation *)

Lemma run_commit : forall u w c next,
  idle w ->
  candidate u (state w) (next_loc w) = Normal (c, next) ->
  validates c = Normal true ->
  run_microtasks (fst (setState u w)) =
  with_mgr (set_isMutating false)
    (settle (next_promise w)
       (Resolved (Some (spread (state w) (own_fields c))))
       (commit c next (started w))).
Proof.
  intros u w c next Hidle Hc Hv.
  rewrite run_after_setState by exact Hidle.
  unfold run_job.
  now rewrite (try_commit_valid u (started w) Hc Hv).
Qed.

(** C8: in every commit, each callback registered for a changed field and
    each wildcard callback is called, whichever callbacks throw: the calls
    made are fixed by the registry and the changed fields alone.  What a
    callback throws is caught and logged on the console, and the promise of
    the submission still resolves with the new snapshot. *)
Theorem subscribers_isolated : forall u w c next,
  idle w ->
  candidate u (state w) (next_loc w) = Normal (c, next) ->
  validates c = Normal true ->
  let previousState := state w in
  let currentState := spread previousState (own_fields c) in
  let changedKeys := getChangedKeys previousState currentState in
  let registry := subscribers (mgr w) in
  let w2 := run_microtasks (fst (setState u w)) in
  let p := snd (setState u w) in
  (forall key cbs cb,
      In key changedKeys -> subs_get registry key = Some cbs -> In cb cbs ->
      In (cb_id cb,
          KeyArgs (field currentState key) (field previousState key) key)
         (calls w2)) /\
  (forall cbs cb,
      subs_get registry "*" = Some cbs -> In cb cbs ->
      In (cb_id cb, AllArgs currentState previousState changedKeys)
         (calls w2)) /\
  (forall key cbs cb e,
      In key changedKeys -> subs_get registry key = Some cbs -> In cb cbs ->
      cb_run cb (KeyArgs (field currentState key) (field previousState key) key)
        = Some e ->
      In (SubscriberError key e) (console w2)) /\
  (forall cbs cb e,
      subs_get registry "*" = Some cbs -> In cb cbs ->
      cb_run cb (AllArgs currentState previousState changedKeys) = Some e ->
      In (GlobalSubscriberError e) (console w2)) /\
  calls w2 = calls w ++ notified registry previousState currentState /\
  settled w2 = settled w ++ [(p, Resolved (Some currentState))] /\
  state w2 = currentState.
Proof.
  intros u w c next Hidle Hc Hv. cbv zeta.
  rewrite (run_commit u Hidle Hc Hv).
  rewrite setState_idle by exact Hidle. simpl snd.
  unfold commit, state. simpl.
  repeat split.
  - intros key cbs cb Hkey Hget Hin.
    apply in_or_app. right. unfold notified. apply in_or_app. left.
    apply in_flat_map. exists key. split; [exact Hkey|].
    unfold key_calls. rewrite Hget.
    apply (in_map (fun cb0 => (cb_id cb0, _)) cbs cb Hin).
  - intros cbs cb Hget Hin.
    apply in_or_app. right. unfold notified. apply in_or_app. right.
    rewrite Hget.
    apply (in_map (fun cb0 => (cb_id cb0, _)) cbs cb Hin).
  - intros key cbs cb e Hkey Hget Hin Hthrow.
    apply in_or_app. right. unfold reported. apply in_or_app. left.
    apply in_flat_map. exists key. split; [exact Hkey|].
    unfold key_reports. rewrite Hget. unfold reports.
    apply in_flat_map. exists cb. split; [exact Hin|].
    rewrite Hthrow. now left.
  - intros cbs cb e Hget Hin Hthrow.
    apply in_or_app. right. unfold reported. apply in_or_app. right.
    rewrite Hget. unfold reports.
    apply in_flat_map. exists cb. split; [exact Hin|].
    rewrite Hthrow. now left.
Qed.

Lemma subscribers_isolated_witness :
  let w := page_with_subscribers in
  let w2 := run_microtasks (fst (setState (UVal new_videos) w)) in
  let currentState := spread (state w) (own_fields new_videos) in
  getChangedKeys (state w) currentState = ["videos"; "ui"] /\
  calls w2 =
    [(1, KeyArgs (VMap 41 [(VStr "1", VStr "clip")]) (VMap 0 []) "videos");
     (2, AllArgs currentState (state w) ["videos"; "ui"])] /\
  console w2 = [SubscriberError "videos" (Failure "render failed")] /\
  settled w2 = [(0, Resolved (Some currentState))].
Proof.
  cbv zeta.
  destruct (@subscribers_isolated (UVal new_videos) page_with_subscribers
              new_videos 100 (conj eq_refl eq_refl) eq_refl eq_refl)
    as (_ & _ & _ & _ & Hcalls & Hsettled & _).
  split; [reflexivity|].
  split; [exact Hcalls|].
  split; [reflexivity|].
  exact Hsettled.
Defined.

(** ** What the validator accepts *)

Lemma lookup_assign : forall k k' v o,
  lookup k (assign k' v o) =
  if String.eqb k k' then Some v else lookup k o.
Proof.
  intros k k' v. induction o as [|[k0 v0] o IH]; simpl.
  - reflexivity.
  - destruct (String.eqb k' k0) eqn:E0; simpl.
    + apply String.eqb_eq in E0. subst k0.
      now destruct (String.eqb k k').
    + destruct (String.eqb k k0) eqn:E1.
      * apply String.eqb_eq in E1. subst k0.
        now rewrite String.eqb_sym, E0.
      * exact IH.
Qed.

Lemma lookup_assign_all_other : forall b acc k,
  ~ In k (keys b) ->
  lookup k (fold_left (fun acc kv => assign (fst kv) (snd kv) acc) b acc) =
  lookup k acc.
Proof.
  induction b as [|[k0 v0] b IH]; intros acc k Hnot; simpl.
  - reflexivity.
  - rewrite IH by (intros H; apply Hnot; now right).
    rewrite lookup_assign.
    destruct (String.eqb k k0) eqn:E; [|reflexivity].
    apply String.eqb_eq in E. subst. exfalso. apply Hnot. now left.
Qed.

Lemma lookup_assign_all_own : forall b acc k v,
  NoDup (keys b) -> In (k, v) b ->
  lookup k (fold_left (fun acc kv => assign (fst kv) (snd kv) acc) b acc) =
  Some v.
Proof.
  induction b as [|[k0 v0] b IH]; intros acc k v Hnd Hin; simpl.
  - destruct Hin.
  - simpl in Hnd. inversion Hnd as [|? ? Hfresh Hnd']; subst.
    destruct Hin as [Heq | Hin].
    + inversion Heq; subst.
      rewrite lookup_assign_all_other by exact Hfresh.
      now rewrite lookup_assign, String.eqb_refl.
    + now apply IH.
Qed.

(** [{...a, ...b}] has [b]'s value wherever [b] has the key. *)
Lemma field_spread_own : forall a b k v,
  NoDup (keys b) -> In (k, v) b -> field (spread a b) k = v.
Proof.
  intros a b k v Hnd Hin. unfold field, spread.
  now rewrite (@lookup_assign_all_own b _ k v Hnd Hin).
Qed.

(** C10: [validateState] returns [true] exactly when the [typeof] of the
    candidate's value under each of the six schema keys is in that key's
    list; only a plain object passes.  Since [typeof null] is ['object'], a
    candidate whose [videos], [likedVideos], [savedVideos] and [ui] are
    [null] passes and, submitted while nothing is in flight, is committed.
    The verdict is fixed by the six schema fields alone: whatever the
    candidate holds under [pendingActions], [cache] or [currentMediaIndexes]
    plays no part. *)
Theorem validator_acceptance :
  (forall l fs w,
      snd (validateState (VObject l fs) w) = Normal true <->
      (typeof (field fs "user") = "object" \/
       typeof (field fs "user") = "null") /\
      typeof (field fs "videos") = "object" /\
      typeof (field fs "likedVideos") = "object" /\
      typeof (field fs "savedVideos") = "object" /\
      typeof (field fs "online") = "boolean" /\
      typeof (field fs "ui") = "object") /\
  (forall c w,
      snd (validateState c w) = Normal true -> exists l fs, c = VObject l fs) /\
  (forall l online w,
      idle w ->
      let w2 := run_microtasks (fst (setState (UVal (all_null l online)) w)) in
      snd (validateState (all_null l online) w) = Normal true /\
      settled w2 =
        settled w ++ [(snd (setState (UVal (all_null l online)) w),
                       Resolved (Some (state w2)))] /\
      field (state w2) "videos" = VNull /\
      field (state w2) "likedVideos" = VNull /\
      field (state w2) "savedVideos" = VNull /\
      field (state w2) "ui" = VNull) /\
  (forall l fs l' fs' w w',
      (forall key, In key (map fst schema) -> field fs key = field fs' key) ->
      snd (validateState (VObject l fs) w) =
      snd (validateState (VObject l' fs') w')) /\
  (forall l fs key v w,
      In key ["pendingActions"; "cache"; "currentMediaIndexes"] ->
      snd (validateState (VObject l (assign key v fs)) w) =
      snd (validateState (VObject l fs) w)).
Proof.
  assert (forall l fs l' fs',
      (forall key, In key (map fst schema) -> field fs key = field fs' key) ->
      validates (VObject l fs) = validates (VObject l' fs')) as Hframe.
  { intros l fs l' fs' H. unfold validates, schema. simpl.
    rewrite !(H "user"), !(H "videos"), !(H "likedVideos"),
      !(H "savedVideos"), !(H "online"), !(H "ui")
      by (unfold schema; simpl; tauto).
    reflexivity. }
  split; [|split; [|split; [|split]]].
  - intros l fs w. rewrite validateState_verdict. unfold validates.
    split.
    + destruct (first_violation (VObject l fs) schema) as [[line|]|e] eqn:E;
        try discriminate.
      intros _. rewrite first_violation_none in E.
      assert (forall key expected, In (key, expected) schema ->
                In (typeof (field fs key)) expected) as H.
      { intros key expected Hin. destruct (E key expected Hin) as [v [Hg Ht]].
        simpl in Hg. inversion Hg. now subst. }
      unfold schema in H.
      pose proof (H "user" _ (or_introl eq_refl)) as Hu.
      pose proof (H "videos" _ (or_intror (or_introl eq_refl))) as Hv.
      pose proof (H "likedVideos" _
                    (or_intror (or_intror (or_introl eq_refl)))) as Hl.
      pose proof (H "savedVideos" _
                    (or_intror (or_intror (or_intror (or_introl eq_refl)))))
        as Hs.
      pose proof (H "online" _
                    (or_intror (or_intror (or_intror
                       (or_intror (or_introl eq_refl)))))) as Ho.
      pose proof (H "ui" _
                    (or_intror (or_intror (or_intror (or_intror
                       (or_intror (or_introl eq_refl))))))) as Hi.
      simpl in Hu, Hv, Hl, Hs, Ho, Hi.
      intuition congruence.
    + intros (Hu & Hv & Hl & Hs & Ho & Hi).
      assert (first_violation (VObject l fs) schema = Normal None) as E.
      { apply first_violation_none. unfold schema.
        intros key expected Hin. exists (field fs key).
        split; [reflexivity|].
        simpl in Hin.
        destruct Hin as [H|[H|[H|[H|[H|[H|[]]]]]]]; inversion H; subst;
          simpl; intuition congruence. }
      now rewrite E.
  - intros c w. rewrite validateState_verdict. apply validates_object.
  - intros l online w Hidle. cbv zeta.
    assert (validates (all_null l online) = Normal true) as Hv
      by reflexivity.
    rewrite (run_commit (UVal (all_null l online)) Hidle eq_refl Hv).
    rewrite setState_idle by exact Hidle.
    rewrite validateState_verdict. unfold commit, state. simpl mgr.
    simpl _state. simpl settled. simpl snd.
    split; [exact Hv|]. split; [reflexivity|].
    repeat split; apply field_spread_own; simpl;
      try (repeat constructor; simpl; intuition discriminate); tauto.
  - intros l fs l' fs' w w' H. rewrite !validateState_verdict.
    now apply Hframe.
  - intros l fs key v w Hin. rewrite !validateState_verdict.
    apply Hframe. intros k Hk. unfold field. rewrite lookup_assign.
    destruct (String.eqb k key) eqn:E; [|reflexivity].
    apply String.eqb_eq in E. subst k. exfalso.
    unfold schema in Hk. simpl in Hk, Hin.
    intuition (subst; discriminate).
Qed.

Lemma validator_acceptance_witness :
  snd (validateState (all_null 9 true) (boot true 0%Z)) = Normal true /\
  field (state (run_microtasks
                  (fst (setState (UVal (all_null 9 true)) (boot true 0%Z)))))
        "videos" = VNull /\
  snd (validateState
         (VObject 9 (assign "cache" (VNum 3) (own_fields (all_null 9 true))))
         (boot true 0%Z)) = Normal true.
Proof.
  destruct validator_acceptance as (_ & _ & Hnull & _ & Hother).
  destruct (Hnull 9 true (boot true 0%Z) (conj eq_refl eq_refl))
    as (Hv & _ & Hvideos & _).
  split; [exact Hv|]. split; [exact Hvideos|].
  rewrite (Hother 9 (own_fields (all_null 9 true)) "cache" (VNum 3)
             (boot true 0%Z) (or_intror (or_introl eq_refl))).
  exact Hv.
Defined.

(** ** Serialization *)

(** C1, as stated, fails: of two valid submissions made back to back on a
    fresh page, the second is dropped; one commit is recorded and the second
    promise resolves with [undefined]. *)
Lemma burst_not_serialized :
  ~ serializes [UVal (full_candidate 10 [VStr "a"]);
                UVal (full_candidate 20 [VStr "b"])] (boot true 0%Z).
Proof.
  intros [Hlen _]. vm_compute in Hlen. discriminate.
Qed.

Lemma submit_all_in_flight : forall us w,
  isMutating (mgr w) = true ->
  same_engine (fst (submit_all us w)) w /\
  snd (submit_all us w) = seq (next_promise w) (List.length us) /\
  settled (fst (submit_all us w)) =
    settled w ++ map (fun p => (p, Resolved None)) (snd (submit_all us w)).
Proof.
  induction us as [|u rest IH]; intros w Hflag.
  - simpl. rewrite app_nil_r. unfold same_engine. repeat split.
  - set (w1 := settle (next_promise w) (Resolved None)
                 (fst (new_promise (log WarnMutationInProgress w)))).
    assert (setState u w = (w1, next_promise w)) as Hs.
    { unfold setState. rewrite Hflag. reflexivity. }
    assert (isMutating (mgr w1) = true) as Hflag1 by exact Hflag.
    destruct (IH w1 Hflag1) as (Heng & Hps & Hset).
    simpl submit_all. rewrite Hs.
    destruct (submit_all rest w1) as [w2 ps]. simpl in *.
    split; [|split].
    + unfold same_engine in *. simpl in Heng. exact Heng.
    + now rewrite Hps.
    + rewrite Hset, <- app_assoc. reflexivity.
Qed.

(** Of a burst only the first submission counts: the others are resolved
    with [undefined] on the spot, and once the queue has run the manager and
    the subscriber calls are those of the first submission alone. *)
Lemma burst_keeps_first_only : forall u rest w,
  idle w ->
  let burst := fst (submit_all (u :: rest) w) in
  let ps := snd (submit_all (u :: rest) w) in
  settled burst = settled w ++ map (fun p => (p, Resolved None)) (tl ps) /\
  mgr (run_microtasks burst) = mgr (run_microtasks (fst (setState u w))) /\
  calls (run_microtasks burst) = calls (run_microtasks (fst (setState u w))).
Proof.
  intros u rest w Hidle. cbv zeta. simpl submit_all.
  rewrite setState_idle by exact Hidle.
  set (w1 := set_microtasks [Mutation u (next_promise w)]
               (fst (new_promise (with_mgr (set_isMutating true) w)))).
  assert (isMutating (mgr w1) = true) as Hflag by reflexivity.
  destruct (submit_all_in_flight rest w1 Hflag) as (Heng & _ & Hset).
  destruct (submit_all rest w1) as [w2 ps]. simpl in *.
  split; [exact Hset|].
  apply run_microtasks_same_engine in Heng.
  destruct Heng as (Hm & _ & Hc & _). auto.
Qed.

Lemma last_cons_default : forall (A : Type) (l : list A) (x d : A),
  last (x :: l) d = last l x.
Proof.
  induction l as [|y l IH]; intros x d; [reflexivity|].
  change (last (x :: y :: l) d) with (last (y :: l) d).
  rewrite (IH y d). symmetry. apply IH.
Qed.

(** One accepted, valid submission, from idle to idle. *)
Lemma commit_step : forall u w c next,
  idle w ->
  candidate u (state w) (next_loc w) = Normal (c, next) ->
  validates c = Normal true ->
  let wn := run_microtasks (fst (setState u w)) in
  let s' := spread (state w) (own_fields c) in
  snd (setState u w) = next_promise w /\
  idle wn /\
  state wn = s' /\
  next_loc wn = next /\
  next_promise wn = S (next_promise w) /\
  settled wn = settled w ++ [(next_promise w, Resolved (Some s'))] /\
  history (mgr wn) =
    push_bounded (maxHistoryLength (mgr w)) (history (mgr w))
      {| timestamp := clock w; previous := state w; current := s' |} /\
  clock wn = clock w /\
  maxHistoryLength (mgr wn) = maxHistoryLength (mgr w).
Proof.
  intros u w c next Hidle Hc Hv. cbv zeta.
  rewrite (run_commit u Hidle Hc Hv).
  rewrite setState_idle by exact Hidle.
  unfold commit, state, idle, push_bounded. simpl.
  repeat split.
Qed.

(** C1, amended: submissions made in turn -- each while nothing is in
    flight, the job of the one before having run -- whose candidates pass
    validation are all accepted and committed in the order submitted.  Commit
    K+1 starts from the result of commit K: the snapshots are those obtained
    by computing each candidate from, and merging it over, the snapshot
    before; each promise resolves with the snapshot of its own commit; the
    history gains, up to its bound, one entry per commit linking each
    snapshot to the next; and nothing is left in flight. *)
Theorem in_turn_serialized : forall us w,
  idle w ->
  all_valid us (state w) (next_loc w) ->
  let w' := fst (submit_in_turn us w) in
  let ps := snd (submit_in_turn us w) in
  let snaps := snapshots us (state w) (next_loc w) in
  List.length snaps = List.length us /\
  ps = seq (next_promise w) (List.length us) /\
  settled w' =
    settled w ++ combine ps (map (fun s => Resolved (Some s)) snaps) /\
  state w' = last snaps (state w) /\
  history (mgr w') =
    fold_left (push_bounded (maxHistoryLength (mgr w)))
              (entries (clock w) (state w) snaps) (history (mgr w)) /\
  idle w'.
Proof.
  induction us as [|u rest IH]; intros w Hidle Hvalid.
  - cbv zeta. simpl. rewrite app_nil_r. repeat split; apply Hidle.
  - simpl in Hvalid. cbv zeta. simpl snapshots.
    destruct (candidate u (state w) (next_loc w)) as [[c next]|e] eqn:Hc;
      [|contradiction].
    destruct Hvalid as [Hv Hrest].
    destruct (commit_step u Hidle Hc Hv)
      as (Hp & Hidle' & Hs & Hl & Hnp & Hset & Hh & Hclock & Hmax).
    simpl submit_in_turn.
    destruct (setState u w) as [w1 p] eqn:Hsub. simpl in Hp, Hidle', Hs, Hl,
      Hnp, Hset, Hh, Hclock, Hmax. subst p.
    rewrite <- Hs, <- Hl in Hrest.
    specialize (IH (run_microtasks w1) Hidle' Hrest). cbv zeta in IH.
    destruct (submit_in_turn rest (run_microtasks w1)) as [w2 ps] eqn:Hturn.
    simpl in IH. destruct IH as (Hlen & Hps & Hsettled & Hstate & Hhist & Hid).
    rewrite Hs, Hl in Hlen, Hsettled, Hstate, Hhist.
    rewrite Hnp in Hps. rewrite Hset in Hsettled.
    rewrite Hh, Hclock, Hmax in Hhist.
    simpl. repeat split.
    + now rewrite Hlen.
    + now rewrite Hps.
    + rewrite Hsettled, <- app_assoc. reflexivity.
    + rewrite Hstate. symmetry. apply last_cons_default.
    + exact Hhist.
    + apply Hid.
    + apply Hid.
Qed.

Lemma in_turn_serialized_witness :
  let w := boot true 0%Z in
  let w' := fst (submit_in_turn [like "a"; like "b"] w) in
  let snaps := snapshots [like "a"; like "b"] (state w) (next_loc w) in
  map (fun s => field s "likedVideos") snaps =
    [VSet 100 [VStr "a"]; VSet 102 [VStr "a"; VStr "b"]] /\
  settled w' =
    [(0, Resolved (Some (nth 0 snaps [])));
     (1, Resolved (Some (nth 1 snaps [])))] /\
  state w' = nth 1 snaps [] /\
  map (fun e => (previous e, current e)) (history (mgr w')) =
    [(state w, nth 0 snaps []); (nth 0 snaps [], nth 1 snaps [])] /\
  idle w'.
Proof.
  cbv zeta.
  destruct (@in_turn_serialized [like "a"; like "b"] (boot true 0%Z)
              (conj eq_refl eq_refl)
              (conj eq_refl (conj eq_refl I)))
    as (_ & Hps & Hsettled & Hstate & Hhist & Hidle).
  split; [reflexivity|].
  split; [rewrite Hsettled, Hps; reflexivity|].
  split; [rewrite Hstate; reflexivity|].
  split; [rewrite Hhist; reflexivity|].
  exact Hidle.
Defined.

(** ** Partial candidates *)

(** Every updater the manager itself submits returns one field only
    ([cache], [pendingActions], [likedVideos], [savedVideos], ...).
    [validateState] is applied to that candidate, not to the snapshot it
    would be merged into, so the candidate has no [user] and is rejected. *)
Lemma partial_candidate_rejected : forall l fs,
  lookup "user" fs = None -> validates (VObject l fs) = Normal false.
Proof.
  intros l fs H. unfold validates, schema. simpl. unfold field.
  now rewrite H.
Qed.

(** A submission whose candidate cannot pass leaves the manager untouched
    and is rejected. *)
Lemma rejected_submission : forall u w,
  idle w ->
  (forall c next, candidate u (state w) (next_loc w) = Normal (c, next) ->
                  validates c <> Normal true) ->
  let w2 := run_microtasks (fst (setState u w)) in
  mgr w2 = mgr w /\ calls w2 = calls w /\
  exists e, settled w2 = settled w ++ [(snd (setState u w), Rejected e)].
Proof.
  intros u w Hidle Hbad. cbv zeta.
  rewrite run_after_setState by exact Hidle.
  rewrite setState_idle by exact Hidle. simpl snd.
  unfold run_job.
  destruct (try_commit u (started w)) as [w1 [s|e]] eqn:Ht.
  - exfalso. pose proof (try_commit_cases u (started w)) as Hcases.
    change (state (started w)) with (state w) in Hcases.
    change (next_loc (started w)) with (next_loc w) in Hcases.
    destruct (candidate u (state w) (next_loc w)) as [[c next]|e] eqn:Hc.
    + specialize (Hbad c next eq_refl).
      destruct (validates c) as [[|]|e].
      * now apply Hbad.
      * destruct Hcases as [line Hcases]. congruence.
      * congruence.
    + congruence.
  - destruct (try_commit_throw _ _ Ht) as (Hm & Hcalls & Hset & _).
    simpl. rewrite Hm, Hcalls, Hset. simpl.
    destruct Hidle as [Hflag _].
    split; [now apply set_isMutating_idem|].
    split; [reflexivity|]. now exists e.
Qed.

(** The updaters the manager submits on its own behalf never pass. *)
Lemma invalidate_rejected : forall pattern st next c next',
  invalidate pattern st next = Normal (c, next') ->
  validates c <> Normal true.
Proof.
  intros pattern st next c next'.
  unfold invalidate, abind, of_outcome, new_object, aret.
  destruct (map_from (field st "cache")) as [es|e]; [|discriminate].
  destruct (matching_keys (map fst es) pattern) as [doomed|e];
    [|discriminate].
  intros H. inversion H; subst.
  rewrite partial_candidate_rejected by reflexivity. discriminate.
Qed.

Lemma cache_store_rejected : forall cacheKey data now st next c next',
  cache_store cacheKey data now st next = Normal (c, next') ->
  validates c <> Normal true.
Proof.
  intros cacheKey data now st next c next'.
  unfold cache_store, abind, of_outcome, new_object, aret.
  destruct (map_from (field st "cache")) as [es|e]; [|discriminate].
  intros H. inversion H; subst.
  rewrite partial_candidate_rejected by reflexivity. discriminate.
Qed.

Lemma remove_action_rejected : forall action st next c next',
  remove_action action st next = Normal (c, next') ->
  validates c <> Normal true.
Proof.
  intros action st next c next'. unfold remove_action.
  destruct (field st "pendingActions"); try discriminate.
  unfold abind, of_outcome, new_object, aret.
  destruct (without_id items action) as [kept|e]; [|discriminate].
  intros H. inversion H; subst.
  rewrite partial_candidate_rejected by reflexivity. discriminate.
Qed.

(** [invalidateCache], called while nothing is in flight, never changes the
    manager: not one key is removed. *)
Lemma invalidateCache_inert : forall pattern w,
  idle w -> mgr (run_microtasks (invalidateCache pattern w)) = mgr w.
Proof.
  intros pattern w Hidle. unfold invalidateCache.
  apply (rejected_submission (UFun (invalidate pattern)) Hidle).
  intros c next Hc. simpl in Hc. now apply invalidate_rejected in Hc.
Qed.

(** ** The cache layer on a concrete page *)

(** C7, on the code: [invalidateCache("videos")] on that page.  The updater
    computes the cache without [cache_videos], but the candidate [{cache}]
    is what [validateState] is given; it has no [user], the submission is
    rejected, and the cache keeps [cache_videos]. *)
Theorem invalidateCache_removes_nothing :
  let w2 := run_microtasks (invalidateCache "videos" cached_page) in
  invalidate "videos" (state cached_page) (next_loc cached_page) =
    Normal (VObject 102 [("cache", VMap 101 [(VStr "cache_user", user_entry)])],
            103) /\
  settled w2 = settled cached_page ++ [(1, Rejected InvalidStateStructure)] /\
  console w2 = [ValidationFailed "user" ["object"; "null"] "undefined"] /\
  state w2 = state cached_page /\
  cache_get (state w2) "cache_videos" = Normal feed_entry.
Proof. vm_compute. repeat split. Qed.

(** C6, on the code: [getWithCache("k", feed, {ttl: 1000})] at time 0 and
    again at time 500.  The mutation that would store the entry is
    rejected, nothing is cached, and the producer is invoked both times. *)
Theorem cache_entry_never_stored :
  let first := getWithCache "k" feed (Some 1000%Z) (boot true 0%Z) in
  let w1 := set_clock 500 (run_microtasks (fst first)) in
  let second := getWithCache "k" feed (Some 1000%Z) w1 in
  snd first = Some (Normal (VStr "feed")) /\
  microtasks (fst first) =
    [Mutation (UFun (cache_store "cache_k" (VStr "feed") 0)) 0] /\
  settled w1 = [(0, Rejected InvalidStateStructure)] /\
  cache_get (state w1) "cache_k" = Normal VUndef /\
  snd second = Some (Normal (VStr "feed")) /\
  fetches (fst second) = [7; 7].
Proof. vm_compute. repeat split. Qed.

(** What [getWithCache] does by itself: on a hit the cached data comes back
    and nothing else happens; on a miss the producer is invoked once and,
    when it succeeds, its data comes back and the storing mutation is
    submitted. *)
Lemma getWithCache_hit : forall key fetcher ttl w cached,
  cache_get (state w) ("cache_" ++ key)%string = Normal cached ->
  cache_hit cached (clock w) ttl (cacheTimeout (mgr w)) = Normal true ->
  getWithCache key fetcher ttl w = (w, Some (get_prop cached "data")).
Proof.
  intros key fetcher ttl w cached Hget Hhit.
  unfold getWithCache, bind, read, lift_outcome. rewrite Hget, Hhit.
  reflexivity.
Qed.

Lemma getWithCache_miss : forall key fetcher ttl w cached data,
  cache_get (state w) ("cache_" ++ key)%string = Normal cached ->
  cache_hit cached (clock w) ttl (cacheTimeout (mgr w)) = Normal false ->
  pr_result fetcher = Normal data ->
  let w1 := run_microtasks (record_fetch (pr_id fetcher) w) in
  getWithCache key fetcher ttl w =
  (fst (setState
          (UFun (cache_store ("cache_" ++ key)%string data (clock w))) w1),
   Some (Normal data)).
Proof.
  intros key fetcher ttl w cached data Hget Hhit Hdata. cbv zeta.
  unfold getWithCache, bind, read, lift_outcome, call_producer, submit, ret.
  rewrite Hget, Hhit, Hdata.
  now destruct (setState _ _).
Qed.

(** ** The optimistic toggles on a concrete page *)

(** C4, on the code: [likeVideo("X")] and [saveVideo("X")] on a fresh page.
    The optimistic mutation submits the candidate [{likedVideos}]; it is
    rejected by [validateState], so the [await] throws before the [try]
    block: the snapshot never shows [X] as a member, no request is sent when
    online, no action is queued when offline, and the promise is rejected
    with the validation error whether the remote would fail or answer. *)
Theorem toggle_rejected_before_remote :
  let online := boot true 0%Z in
  let offline := boot false 0%Z in
  let liked := likeVideo failing "X" "r4nd0m" online in
  let liked' := likeVideo answering "X" "r4nd0m" online in
  let queued := likeVideo failing "X" "r4nd0m" offline in
  let saved := saveVideo failing "X" "r4nd0m" online in
  isVideoLiked "X" online = Normal false /\
  snd liked = Some (Throw InvalidStateStructure) /\
  requests (fst liked) = [] /\
  history (mgr (fst liked)) = [] /\
  isVideoLiked "X" (fst liked) = Normal false /\
  snd liked' = Some (Throw InvalidStateStructure) /\
  requests (fst liked') = [] /\
  snd queued = Some (Throw InvalidStateStructure) /\
  field (state (fst queued)) "pendingActions" = VArray 4 [] /\
  microtasks (fst queued) = [] /\
  snd saved = Some (Throw InvalidStateStructure) /\
  requests (fst saved) = [] /\
  isVideoSaved "X" (fst saved) = Normal false.
Proof. vm_compute. repeat split. Qed.

(** ** The offline queue on a concrete page *)

(** C3, on the code: [syncPendingActions()] on that page, twice.  The
    actions are attempted in order and the loop stops at the failure of [B],
    but the mutation that removes [A] submits the candidate
    [{pendingActions}], which [validateState] rejects: the list is still
    [[A, B, C]].  In the later replay, where every request is answered, [A]
    is sent again, and the list is still [[A, B, C]].  Nor can the list be
    built through [queueAction]: its mutation is rejected the same way, so
    that on a page where [A], [B] and [C] were enqueued offline the list is
    empty, and going online (a mutation rejected as well) replays nothing. *)
Theorem replay_removes_nothing :
  let first := syncPendingActions second_fails queued_page in
  let w1 := run_microtasks (fst first) in
  let second := syncPendingActions answering w1 in
  let w2 := run_microtasks (fst second) in
  let back_online :=
    run_microtasks (fst (on_online second_fails enqueued_offline)) in
  snd first = Some (Normal tt) /\
  requests w1 = [PatchLike (VStr "1") (VBool true);
                 PatchLike (VStr "2") (VBool true)] /\
  console w1 = [ValidationFailed "user" ["object"; "null"] "undefined";
                ActionSyncFailed (VStr "like") (Failure "HTTP 500")] /\
  field (state w1) "pendingActions" =
    VArray 30 [action_A; action_B; action_C] /\
  snd second = Some (Normal tt) /\
  requests w2 = requests w1 ++
                [PatchLike (VStr "1") (VBool true);
                 PatchLike (VStr "2") (VBool true);
                 PatchLike (VStr "3") (VBool true)] /\
  field (state w2) "pendingActions" =
    VArray 30 [action_A; action_B; action_C] /\
  field (state enqueued_offline) "pendingActions" = VArray 4 [] /\
  settled enqueued_offline =
    [(0, Rejected InvalidStateStructure);
     (1, Rejected InvalidStateStructure);
     (2, Rejected InvalidStateStructure)] /\
  requests back_online = [] /\
  field (state back_online) "online" = VBool false /\
  field (state back_online) "pendingActions" = VArray 4 [].
Proof. vm_compute. repeat split. Qed.

(** ** The manager's own methods never commit *)

Lemma at_rest_idle : forall m, isMutating m = false -> at_rest m = m.
Proof. intros [] H. simpl in H. subst. reflexivity. Qed.

Lemma inert_idle : forall w, idle w -> inert (mgr w) w.
Proof.
  intros w [Hflag Hq]. unfold inert. rewrite Hq.
  split; [now apply at_rest_idle|]. split; [constructor | auto].
Qed.

Lemma inert_ext : forall m0 w w',
  mgr w' = mgr w -> microtasks w' = microtasks w ->
  inert m0 w -> inert m0 w'.
Proof.
  intros m0 w w' Hm Hq (H1 & H2 & H3). unfold inert.
  rewrite Hm, Hq. auto.
Qed.

Lemma run_job_rejected : forall j w,
  job_rejected j ->
  mgr (run_job j w) = at_rest (mgr w) /\
  microtasks (run_job j w) = microtasks w.
Proof.
  intros [u p] w Hrej. unfold run_job. simpl in Hrej.
  destruct (try_commit u w) as [w1 [s|e]] eqn:Ht.
  - exfalso. pose proof (try_commit_cases u w) as Hcases.
    destruct (candidate u (state w) (next_loc w)) as [[c next]|e] eqn:Hc.
    + specialize (Hrej _ _ _ _ Hc).
      destruct (validates c) as [[|]|e].
      * now apply Hrej.
      * destruct Hcases as [line Hcases]. congruence.
      * congruence.
    + congruence.
  - destruct (try_commit_throw _ _ Ht) as (Hm & _ & _ & Hq & _).
    simpl. now rewrite Hm, Hq.
Qed.

Lemma run_jobs_rejected : forall js w,
  Forall job_rejected js ->
  at_rest (mgr (fold_left (fun w j => run_job j w) js w)) = at_rest (mgr w) /\
  microtasks (fold_left (fun w j => run_job j w) js w) = microtasks w /\
  (js <> [] ->
   isMutating (mgr (fold_left (fun w j => run_job j w) js w)) = false).
Proof.
  induction js as [|j js IH]; intros w Hall.
  - simpl. repeat split. intros H. now contradiction H.
  - inversion Hall as [|? ? Hj Hjs]; subst. simpl.
    destruct (@run_job_rejected j w Hj) as (Hm & Hq).
    destruct (IH (run_job j w) Hjs) as (IHm & IHq & IHflag).
    rewrite IHm, IHq, Hm, Hq. repeat split.
    intros _. destruct js as [|j' js'].
    + simpl. rewrite Hm. reflexivity.
    + apply IHflag. discriminate.
Qed.

Lemma run_microtasks_inert : forall m0 w,
  inert m0 w -> inert m0 (run_microtasks w) /\ idle (run_microtasks w).
Proof.
  intros m0 w (Hm & Hall & Hflag). unfold run_microtasks.
  destruct (@run_jobs_rejected (microtasks w) (set_microtasks [] w) Hall)
    as (Rm & Rq & Rflag).
  simpl in Rm, Rq.
  assert (isMutating
            (mgr (fold_left (fun w j => run_job j w) (microtasks w)
                    (set_microtasks [] w))) = false) as Hdown.
  { destruct (microtasks w) as [|j js] eqn:Hq.
    - simpl. now apply Hflag.
    - apply Rflag. discriminate. }
  unfold inert, idle. rewrite Rm, Rq. repeat split; auto.
Qed.

Lemma setState_inert : forall m0 u w,
  always_rejected u -> inert m0 w -> inert m0 (fst (setState u w)).
Proof.
  intros m0 u w Hrej (Hm & Hall & Hflag). unfold setState.
  destruct (isMutating (mgr w)) eqn:E; simpl; unfold inert; simpl.
  - repeat split; auto. intros H. rewrite E. now apply Hflag.
  - repeat split.
    + rewrite <- Hm. now destruct (mgr w).
    + apply Forall_app. split; [exact Hall|]. now constructor.
    + intros H. now destruct (microtasks w).
Qed.

Lemma keeps_ret : forall m0 A (a : A), keeps m0 (ret a).
Proof. intros m0 A a w H. exact H. Qed.

Lemma keeps_throw : forall m0 A e, keeps m0 (@throw A e).
Proof. intros m0 A e w H. exact H. Qed.

Lemma keeps_read : forall m0 A (f : World -> A), keeps m0 (read f).
Proof. intros m0 A f w H. exact H. Qed.

Lemma keeps_lift_outcome : forall m0 A (o : outcome A),
  keeps m0 (lift_outcome o).
Proof. intros m0 A o w H. exact H. Qed.

Lemma keeps_lift_alloc : forall m0 A (c : Alloc A), keeps m0 (lift_alloc c).
Proof.
  intros m0 A c w H. unfold lift_alloc.
  destruct (c (next_loc w)) as [[a next]|e]; simpl; [|exact H].
  now apply (inert_ext (w := w)).
Qed.

Lemma keeps_bind : forall m0 A B (c : Async A) (k : A -> Async B),
  keeps m0 c -> (forall a, keeps m0 (k a)) -> keeps m0 (bind c k).
Proof.
  intros m0 A B c k Hc Hk w H. unfold bind.
  specialize (Hc w H). destruct (c w) as [w1 [[a|e]|]]; simpl in *; auto.
  now apply Hk.
Qed.

Lemma keeps_try_catch : forall m0 A (body : Async A) (handler : error -> Async A),
  keeps m0 body -> (forall e, keeps m0 (handler e)) ->
  keeps m0 (try_catch body handler).
Proof.
  intros m0 A body handler Hb Hh w H. unfold try_catch.
  specialize (Hb w H). destruct (body w) as [w1 [[a|e]|]]; simpl in *; auto.
  now apply Hh.
Qed.

Lemma keeps_submit : forall m0 u, always_rejected u -> keeps m0 (submit u).
Proof.
  intros m0 u Hrej w H. unfold submit.
  pose proof (@setState_inert m0 u w Hrej H) as Hs.
  now destruct (setState u w).
Qed.

Lemma keeps_await : forall m0 p, keeps m0 (await p).
Proof.
  intros m0 p w H. unfold await.
  destruct (@run_microtasks_inert m0 w H) as [Hi _].
  now destruct (settlement_of p (settled (run_microtasks w))) as [[s|e]|].
Qed.

Lemma keeps_tick : forall m0, keeps m0 tick.
Proof. intros m0 w H. now apply run_microtasks_inert. Qed.

Lemma keeps_act : forall m0 (f : World -> World),
  (forall w, inert m0 w -> inert m0 (f w)) -> keeps m0 (act f).
Proof. intros m0 f Hf w H. now apply Hf. Qed.

Lemma keeps_apiRequest : forall m0 api req, keeps m0 (apiRequest api req).
Proof.
  intros m0 api req w H. unfold apiRequest. simpl.
  apply run_microtasks_inert. now apply (inert_ext (w := w)).
Qed.

Lemma keeps_call_producer : forall m0 f, keeps m0 (call_producer f).
Proof.
  intros m0 f w H. unfold call_producer. simpl.
  apply run_microtasks_inert. now apply (inert_ext (w := w)).
Qed.

Lemma append_action_rejected : forall action,
  always_rejected (UFun (append_action action)).
Proof.
  intros action s next c next'. simpl.
  unfold append_action, abind, new_object, aret.
  destruct (iterate (field s "pendingActions") next) as [[items n1]|e];
    [|discriminate].
  intros H. inversion H; subst.
  rewrite partial_candidate_rejected by reflexivity. discriminate.
Qed.

Lemma set_membership_rejected : forall name member videoId,
  String.eqb "user" name = false ->
  always_rejected (UFun (set_membership name member videoId)).
Proof.
  intros name member videoId Hname s next c next'. simpl.
  unfold set_membership, abind, new_object, aret.
  destruct member.
  - destruct (iterate (field s name) next) as [[xs n1]|e]; [|discriminate].
    intros H. inversion H; subst.
    rewrite partial_candidate_rejected by (unfold lookup; now rewrite Hname).
    discriminate.
  - destruct (array_from (field s name) next) as [[xs n1]|e]; [|discriminate].
    intros H. inversion H; subst.
    rewrite partial_candidate_rejected by (unfold lookup; now rewrite Hname).
    discriminate.
Qed.

Ltac keeps_step :=
  match goal with
  | |- keeps _ (ret _) => apply keeps_ret
  | |- keeps _ (throw _) => apply keeps_throw
  | |- keeps _ (read _) => apply keeps_read
  | |- keeps _ (lift_outcome _) => apply keeps_lift_outcome
  | |- keeps _ (lift_alloc _) => apply keeps_lift_alloc
  | |- keeps _ (await _) => apply keeps_await
  | |- keeps _ tick => apply keeps_tick
  | |- keeps _ (apiRequest _ _) => apply keeps_apiRequest
  | |- keeps _ (call_producer _) => apply keeps_call_producer
  | |- keeps _ (bind _ _) => apply keeps_bind; [|intros ?; cbv beta]
  | |- keeps _ (try_catch _ _) => apply keeps_try_catch; [|intros ?; cbv beta]
  | |- keeps _ (if ?b then _ else _) => destruct b
  end.

Lemma keeps_invalidateCache : forall m0 pattern,
  keeps m0 (act (invalidateCache pattern)).
Proof.
  intros m0 pattern. apply keeps_act. intros w H. unfold invalidateCache.
  apply setState_inert; [|exact H].
  intros s next c next' Hc. simpl in Hc. now apply invalidate_rejected in Hc.
Qed.

Lemma keeps_saveToStorage : forall m0 key v,
  keeps m0 (act (saveToStorage key v)).
Proof.
  intros m0 key v. apply keeps_act. intros w H.
  now apply (inert_ext (w := w)).
Qed.

Lemma keeps_queueAction : forall m0 type data id,
  keeps m0 (queueAction type data id).
Proof.
  intros m0 type data id. unfold queueAction.
  repeat keeps_step.
  - apply keeps_submit, append_action_rejected.
  - apply keeps_saveToStorage.
Qed.

Lemma keeps_processAction : forall m0 api action,
  keeps m0 (processAction api action).
Proof.
  intros m0 api action. unfold processAction. repeat keeps_step.
Qed.

Lemma keeps_replay : forall m0 api actions, keeps m0 (replay api actions).
Proof.
  intros m0 api. induction actions as [|action rest IH]; intros w H.
  - exact H.
  - simpl. pose proof (@keeps_processAction m0 api action w H) as Hp.
    destruct (processAction api action w) as [w1 [[[]|e]|]]; simpl in Hp.
    + apply IH. apply setState_inert; [|exact Hp].
      intros s next c next' Hc. simpl in Hc.
      now apply remove_action_rejected in Hc.
    + destruct (get_prop action "type"); simpl; [|exact Hp].
      now apply (inert_ext (w := w1)).
    + exact Hp.
Qed.

Lemma keeps_syncPendingActions : forall m0 api,
  keeps m0 (syncPendingActions api).
Proof.
  intros m0 api. unfold syncPendingActions. repeat keeps_step.
  - apply keeps_replay.
  - apply keeps_saveToStorage.
Qed.

Lemma keeps_getWithCache : forall m0 key fetcher ttl,
  keeps m0 (getWithCache key fetcher ttl).
Proof.
  intros m0 key fetcher ttl. unfold getWithCache. cbv zeta.
  repeat keeps_step.
  apply keeps_submit. intros s next c next' Hc. simpl in Hc.
  now apply cache_store_rejected in Hc.
Qed.

Lemma keeps_likeVideo : forall m0 api videoId id,
  keeps m0 (likeVideo api videoId id).
Proof.
  intros m0 api videoId id. unfold likeVideo. cbv zeta.
  repeat first
    [ keeps_step
    | match goal with
      | |- keeps _ (queueAction _ _ _) => apply keeps_queueAction
      | |- keeps _ (act (invalidateCache _)) => apply keeps_invalidateCache
      end ];
    apply keeps_submit, set_membership_rejected; reflexivity.
Qed.

Lemma keeps_saveVideo : forall m0 api videoId id,
  keeps m0 (saveVideo api videoId id).
Proof.
  intros m0 api videoId id. unfold saveVideo. cbv zeta.
  repeat first
    [ keeps_step
    | match goal with
      | |- keeps _ (queueAction _ _ _) => apply keeps_queueAction
      end ];
    apply keeps_submit, set_membership_rejected; reflexivity.
Qed.

Lemma kept_manager : forall A (c : Async A) w,
  idle w -> keeps (mgr w) c ->
  mgr (run_microtasks (fst (c w))) = mgr w.
Proof.
  intros A c w Hidle Hkeeps.
  destruct (@run_microtasks_inert (mgr w) (fst (c w))
              (Hkeeps w (inert_idle Hidle))) as [(Hm & _) [Hflag _]].
  transitivity (at_rest (mgr (run_microtasks (fst (c w))))).
  - symmetry. now apply at_rest_idle.
  - exact Hm.
Qed.

(** X21: called while nothing is in flight, none of the manager's own mutating
    methods changes the manager, whatever the remote service and the
    producers do: every mutation they submit carries a partial candidate
    and is rejected by [validateState]. *)
Theorem own_methods_never_commit : forall w,
  idle w ->
  (forall api videoId id,
      mgr (run_microtasks (fst (likeVideo api videoId id w))) = mgr w) /\
  (forall api videoId id,
      mgr (run_microtasks (fst (saveVideo api videoId id w))) = mgr w) /\
  (forall api,
      mgr (run_microtasks (fst (syncPendingActions api w))) = mgr w) /\
  (forall type data id,
      mgr (run_microtasks (fst (queueAction type data id w))) = mgr w) /\
  (forall key fetcher ttl,
      mgr (run_microtasks (fst (getWithCache key fetcher ttl w))) = mgr w) /\
  (forall pattern,
      mgr (run_microtasks (invalidateCache pattern w)) = mgr w).
Proof.
  intros w Hidle. repeat split; intros.
  - apply kept_manager; [exact Hidle | apply keeps_likeVideo].
  - apply kept_manager; [exact Hidle | apply keeps_saveVideo].
  - apply kept_manager; [exact Hidle | apply keeps_syncPendingActions].
  - apply kept_manager; [exact Hidle | apply keeps_queueAction].
  - apply kept_manager; [exact Hidle | apply keeps_getWithCache].
  - now apply invalidateCache_inert.
Qed.

(** ** Promises always settle *)

Lemma settlement_of_none : forall p l,
  (forall q r, In (q, r) l -> q <> p) -> settlement_of p l = None.
Proof.
  intros p. induction l as [|[q r] l IH]; intros H; simpl; [reflexivity|].
  destruct (Nat.eqb p q) eqn:E.
  - apply Nat.eqb_eq in E. exfalso. apply (H q r); [now left | congruence].
  - apply IH. intros q' r' Hin. apply (H q' r'). now right.
Qed.

Lemma settlement_of_app : forall p l l',
  settlement_of p l = None ->
  settlement_of p (l ++ l') = settlement_of p l'.
Proof.
  intros p. induction l as [|[q r] l IH]; intros l' H; simpl in *.
  - reflexivity.
  - destruct (Nat.eqb p q); [discriminate | now apply IH].
Qed.

Lemma settlement_of_app_found : forall p l l' r,
  settlement_of p l = Some r -> settlement_of p (l ++ l') = Some r.
Proof.
  intros p. induction l as [|[q r0] l IH]; intros l' r H; simpl in *.
  - discriminate.
  - destruct (Nat.eqb p q); [exact H | now apply IH].
Qed.

Lemma run_job_settles : forall j w,
  exists r, settled (run_job j w) = settled w ++ [(promise_of j, r)].
Proof.
  intros [u p] w. unfold run_job. simpl.
  pose proof (try_commit_cases u w) as H.
  destruct (candidate u (state w) (next_loc w)) as [[c next]|e].
  - destruct (validates c) as [[|]|e].
    + rewrite H. simpl. eauto.
    + destruct H as [line H]. rewrite H. simpl. eauto.
    + rewrite H. simpl. eauto.
  - rewrite H. simpl. eauto.
Qed.

Lemma run_jobs_settle : forall js w,
  exists rs,
    List.length rs = List.length js /\
    settled (fold_left (fun w j => run_job j w) js w) =
    settled w ++ combine (map promise_of js) rs.
Proof.
  induction js as [|j js IH]; intros w.
  - exists []. simpl. now rewrite app_nil_r.
  - simpl. destruct (run_job_settles j w) as [r Hr].
    destruct (IH (run_job j w)) as [rs [Hlen Hrs]].
    exists (r :: rs). split; [simpl; now rewrite Hlen|].
    rewrite Hrs, Hr, <- app_assoc. reflexivity.
Qed.

Lemma settlement_of_last : forall p ps rs r,
  List.length rs = List.length ps ->
  (forall q, In q ps -> q <> p) ->
  settlement_of p (combine (ps ++ [p]) (rs ++ [r])) = Some r.
Proof.
  intros p. induction ps as [|q ps IH]; intros [|r0 rs] r Hlen Hne;
    simpl in Hlen; try discriminate.
  - simpl. now rewrite Nat.eqb_refl.
  - simpl. destruct (Nat.eqb p q) eqn:E.
    + apply Nat.eqb_eq in E. exfalso. apply (Hne q); [now left | congruence].
    + apply IH; [congruence|]. intros q' Hin. apply Hne. now right.
Qed.

Lemma run_microtasks_settles : forall w,
  exists rs,
    List.length rs = List.length (microtasks w) /\
    settled (run_microtasks w) =
    settled w ++ combine (map promise_of (microtasks w)) rs.
Proof.
  intros w. unfold run_microtasks.
  destruct (run_jobs_settle (microtasks w) (set_microtasks [] w))
    as [rs [Hlen Hrs]].
  exists rs. split; [exact Hlen | exact Hrs].
Qed.

(** X22: in a world whose promises are all accounted for, the promise [setState]
    returns is settled once the microtask checkpoint has run: an [await] on
    it always resumes. *)
Lemma setState_promise_settles : forall u w,
  promises_below w ->
  exists r,
    settlement_of (snd (setState u w))
      (settled (run_microtasks (fst (setState u w)))) = Some r.
Proof.
  intros u w [Hset Hq].
  assert (settlement_of (next_promise w) (settled w) = None) as Hnew.
  { apply settlement_of_none. intros q r Hin. apply Hset in Hin. lia. }
  destruct (run_microtasks_settles (fst (setState u w))) as [rs [Hlen Hrs]].
  rewrite Hrs. clear Hrs. revert rs Hlen.
  unfold setState. destruct (isMutating (mgr w)); simpl; intros rs Hlen.
  - exists (Resolved None).
    apply settlement_of_app_found.
    rewrite settlement_of_app by exact Hnew.
    simpl. now rewrite Nat.eqb_refl.
  - rewrite settlement_of_app by exact Hnew.
    rewrite map_app. simpl.
    rewrite length_app in Hlen. simpl in Hlen.
    destruct (exists_last (l := rs)) as [rs' [r Hlast]].
    { intros ->. simpl in Hlen. lia. }
    subst rs. exists r. apply settlement_of_last.
    + rewrite length_app in Hlen. simpl in Hlen. rewrite length_map. lia.
    + intros q Hin. apply in_map_iff in Hin. destruct Hin as [[u' p'] [E Hin]].
      simpl in E. subst p'. apply Hq in Hin. lia.
Qed.

(** * Further properties of the code *)

(** ** Identity *)

Lemma strict_eq_identity : forall a b,
  strict_eq a b = true <-> identity_of a = identity_of b.
Proof.
  intros a b. destruct a, b; simpl; split; intros H;
    try discriminate; try reflexivity.
  all: try (apply Bool.eqb_prop in H; now subst).
  all: try (apply Z.eqb_eq in H; now subst).
  all: try (apply String.eqb_eq in H; now subst).
  all: try (apply Nat.eqb_eq in H; now subst).
  all: try (inversion H; subst;
            first [ apply Bool.eqb_reflx | apply Z.eqb_refl
                  | apply String.eqb_refl | apply Nat.eqb_refl ]).
Qed.

Lemma strict_eq_refl : forall a, strict_eq a a = true.
Proof. intros a. now apply strict_eq_identity. Qed.

Lemma strict_eq_sym : forall a b, strict_eq a b = strict_eq b a.
Proof.
  intros a b.
  destruct (strict_eq a b) eqn:E1, (strict_eq b a) eqn:E2; try reflexivity.
  - apply strict_eq_identity in E1. symmetry in E1.
    apply strict_eq_identity in E1. congruence.
  - apply strict_eq_identity in E2. symmetry in E2.
    apply strict_eq_identity in E2. congruence.
Qed.

Lemma strict_eq_trans : forall a b c,
  strict_eq a b = true -> strict_eq b c = true -> strict_eq a c = true.
Proof.
  intros a b c H1 H2. apply strict_eq_identity.
  apply strict_eq_identity in H1. apply strict_eq_identity in H2. congruence.
Qed.

(** If [a === b], then [a] and [b] are identical to the same values. *)
Lemma strict_eq_congr : forall a b c,
  strict_eq a b = true -> strict_eq a c = strict_eq b c.
Proof.
  intros a b c H.
  destruct (strict_eq b c) eqn:E.
  - now apply strict_eq_trans with b.
  - destruct (strict_eq a c) eqn:E'; [|reflexivity].
    rewrite strict_eq_sym in H.
    now rewrite (strict_eq_trans _ _ _ H E') in E.
Qed.

(** ** Validation: every schema key is required *)

Lemma validates_plain_object : forall l fs,
  validates (VObject l fs) = Normal true \/
  validates (VObject l fs) = Normal false.
Proof.
  intros l fs. unfold validates.
  assert (forall es, exists r, first_violation (VObject l fs) es = Normal r)
    as H.
  { induction es as [|[key expected] rest IH]; simpl; [eauto|].
    destruct (includes_type expected (typeof (field fs key))); eauto. }
  destruct (H schema) as [[line|] E]; rewrite E; auto.
Qed.

Lemma validates_missing_key : forall l fs key,
  In key ["user"; "videos"; "likedVideos"; "savedVideos"; "online"; "ui"] ->
  lookup key fs = None ->
  validates (VObject l fs) = Normal false.
Proof.
  intros l fs key Hkey Hnone.
  destruct (validates_plain_object l fs) as [Ht|Hf]; [|exact Hf].
  exfalso. unfold validates in Ht.
  destruct (first_violation (VObject l fs) schema) as [[line|]|e] eqn:E;
    try discriminate.
  rewrite first_violation_none in E.
  assert (exists expected, In (key, expected) schema /\
                           ~ In "undefined" expected) as [expected [Hin Hno]].
  { unfold schema. simpl in Hkey.
    destruct Hkey as [<-|[<-|[<-|[<-|[<-|[<-|[]]]]]]];
      eexists; (split; [simpl; eauto 10|]);
      simpl; intuition discriminate. }
  destruct (E key expected Hin) as [v [Hg Ht']].
  simpl in Hg. unfold field in Hg. rewrite Hnone in Hg.
  inversion Hg; subst. simpl in Ht'. contradiction.
Qed.

(** X1: [validateState] has no optional key.  A plain-object candidate that
    lacks any one of [user], [videos], [likedVideos], [savedVideos],
    [online], [ui] is refused ([false], with a console line), whatever else
    it holds. *)
Theorem missing_key_rejected : forall l fs key w,
  In key ["user"; "videos"; "likedVideos"; "savedVideos"; "online"; "ui"] ->
  lookup key fs = None ->
  snd (validateState (VObject l fs) w) = Normal false /\
  exists line, fst (validateState (VObject l fs) w) = log line w.
Proof.
  intros l fs key w Hkey Hnone.
  pose proof (validates_missing_key l fs Hkey Hnone) as Hv.
  split; [now rewrite validateState_verdict|].
  unfold validateState. unfold validates in Hv.
  destruct (first_violation (VObject l fs) schema) as [[line|]|e];
    try discriminate.
  now exists line.
Qed.

Lemma missing_key_rejected_witness :
  snd (validateState
         (VObject 9 [("videos", VMap 10 []); ("likedVideos", VSet 11 []);
                     ("savedVideos", VSet 12 [])])
         (boot true 0%Z)) = Normal false.
Proof.
  exact (proj1 (@missing_key_rejected 9
                  [("videos", VMap 10 []); ("likedVideos", VSet 11 []);
                   ("savedVideos", VSet 12 [])]
                  "online" (boot true 0%Z)
                  (or_intror (or_intror (or_intror (or_intror
                     (or_introl eq_refl)))))
                  eq_refl)).
Defined.

(** ** Submissions that throw *)

(** X2: when the deferred body throws -- the updater itself throws, or
    [validateState] throws on a candidate that is [undefined] or [null] --
    the promise of the submission is rejected with that very error, the
    manager is exactly as before (the flag lowered again by [finally]),
    nothing is printed and no subscriber is called. *)
Theorem throwing_submission_atomic : forall u w e,
  idle w ->
  (candidate u (state w) (next_loc w) = Throw e \/
   exists c next, candidate u (state w) (next_loc w) = Normal (c, next) /\
                  validates c = Throw e) ->
  let w2 := run_microtasks (fst (setState u w)) in
  settled w2 = settled w ++ [(snd (setState u w), Rejected e)] /\
  mgr w2 = mgr w /\
  console w2 = console w /\
  calls w2 = calls w /\
  idle w2.
Proof.
  intros u w e Hidle Hthrow. cbv zeta.
  rewrite run_after_setState by exact Hidle.
  rewrite setState_idle by exact Hidle. simpl snd.
  pose proof (try_commit_cases u (started w)) as Hcases.
  change (state (started w)) with (state w) in Hcases.
  change (next_loc (started w)) with (next_loc w) in Hcases.
  destruct Hidle as [Hflag Hq].
  unfold run_job.
  destruct Hthrow as [Hc | (c & next & Hc & Hv)]; rewrite Hc in Hcases.
  - rewrite Hcases. unfold idle. simpl.
    rewrite (set_isMutating_idem _ Hflag). repeat split.
  - rewrite Hv in Hcases. rewrite Hcases. unfold idle. simpl.
    rewrite (set_isMutating_idem _ Hflag). repeat split.
Qed.

Lemma throwing_submission_atomic_witness :
  let w2 := run_microtasks (fst (setState (UVal VNull) (boot true 0%Z))) in
  settled w2 = [(0, Rejected TypeError)] /\ mgr w2 = constructor true.
Proof.
  destruct (@throwing_submission_atomic (UVal VNull) (boot true 0%Z) TypeError
              (conj eq_refl eq_refl)
              (or_intror (ex_intro _ VNull (ex_intro _ 100
                 (conj eq_refl eq_refl)))))
    as (Hs & Hm & _).
  split; [exact Hs | exact Hm].
Defined.

(** ** The history ring *)

(** X3: the history never outgrows [maxHistoryLength].  A commit appends its
    entry [{timestamp, previous, current}]; when the history was full, the
    oldest entry is dropped to make room. *)
Theorem history_bounded : forall u w c next,
  idle w ->
  candidate u (state w) (next_loc w) = Normal (c, next) ->
  validates c = Normal true ->
  List.length (history (mgr w)) <= maxHistoryLength (mgr w) ->
  let w2 := run_microtasks (fst (setState u w)) in
  let h := history (mgr w) in
  let e := {| timestamp := clock w;
              previous := state w;
              current := state w2 |} in
  List.length (history (mgr w2)) <= maxHistoryLength (mgr w2) /\
  (List.length h < maxHistoryLength (mgr w) -> history (mgr w2) = h ++ [e]) /\
  (0 < List.length h -> List.length h = maxHistoryLength (mgr w) ->
   history (mgr w2) = tl h ++ [e]).
Proof.
  intros u w c next Hidle Hc Hv Hlen. cbv zeta.
  destruct (commit_step u Hidle Hc Hv)
    as (_ & _ & Hs & _ & _ & _ & Hh & _ & Hmax).
  cbv zeta in Hs, Hh, Hmax. rewrite Hh, Hmax, Hs.
  unfold push_bounded. rewrite length_app. simpl.
  destruct (Nat.ltb_spec (maxHistoryLength (mgr w))
              (List.length (history (mgr w)) + 1)) as [Hfull | Hroom].
  - repeat split.
    + destruct (history (mgr w)) as [|e0 h']; simpl in *; [lia|].
      rewrite length_app. simpl. lia.
    + intros H. lia.
    + intros Hpos _. destruct (history (mgr w)); [simpl in Hpos; lia|].
      reflexivity.
  - repeat split.
    + rewrite length_app. simpl. lia.
    + intros H. lia.
Qed.

Lemma history_bounded_witness :
  let w := boot true 0%Z in
  let w2 := run_microtasks
              (fst (setState (UVal (full_candidate 10 [VStr "a"])) w)) in
  List.length (history (mgr w2)) <= 50 /\
  history (mgr w2) =
    [{| timestamp := 0%Z; previous := state w; current := state w2 |}].
Proof.
  cbv zeta.
  destruct (@history_bounded (UVal (full_candidate 10 [VStr "a"]))
              (boot true 0%Z) (full_candidate 10 [VStr "a"]) 100
              (conj eq_refl eq_refl) eq_refl eq_refl (Nat.le_0_l 50))
    as (Hbound & Hroom & _).
  split; [exact Hbound|].
  apply Hroom. simpl. lia.
Defined.

(** ** At most one mutation in flight *)

Lemma run_job_microtasks : forall j w,
  microtasks (run_job j w) = microtasks w /\
  isMutating (mgr (run_job j w)) = false.
Proof.
  intros [u p] w. unfold run_job.
  pose proof (try_commit_cases u w) as H.
  destruct (candidate u (state w) (next_loc w)) as [[c next]|e].
  - destruct (validates c) as [[|]|e].
    + rewrite H. simpl. auto.
    + destruct H as [line H]. rewrite H. simpl. auto.
    + rewrite H. simpl. auto.
  - rewrite H. simpl. auto.
Qed.

Lemma setState_coherent : forall u w,
  coherent w -> coherent (fst (setState u w)).
Proof.
  intros u w H. unfold coherent in *. unfold setState.
  destruct (microtasks w) as [|j [|j' js]] eqn:Hq; try contradiction.
  - rewrite H. simpl. rewrite Hq. reflexivity.
  - rewrite H. simpl. rewrite Hq. exact H.
Qed.

Lemma run_microtasks_coherent : forall w,
  coherent w -> idle (run_microtasks w).
Proof.
  intros w H. unfold coherent in H. unfold run_microtasks, idle.
  destruct (microtasks w) as [|j [|j' js]] eqn:Hq; try contradiction.
  - simpl. auto.
  - simpl. destruct (run_job_microtasks j (set_microtasks [] w)) as [Hm Hf].
    rewrite Hm, Hf. auto.
Qed.

Lemma idle_coherent : forall w, idle w -> coherent w.
Proof. intros w [Hf Hq]. unfold coherent. now rewrite Hq. Qed.

(** X4: the [isMutating] guard keeps the microtask queue to one job.
    Whatever a page submits, and whenever the microtask checkpoint runs in
    between, starting from a freshly constructed manager: at most one
    mutation is queued, the flag is up exactly while one is queued, and a
    checkpoint leaves nothing in flight. *)
Theorem one_mutation_in_flight : forall online now ms,
  let w := play ms (boot online now) in
  coherent w /\
  List.length (microtasks w) <= 1 /\
  (isMutating (mgr w) = true <-> microtasks w <> []) /\
  idle (run_microtasks w).
Proof.
  intros online now ms. cbv zeta.
  assert (forall ms w, coherent w -> coherent (play ms w)) as Hplay.
  { clear. induction ms as [|m ms IH]; intros w H; [exact H|].
    unfold play in *. simpl. apply IH. destruct m; simpl.
    - now apply setState_coherent.
    - now apply idle_coherent, run_microtasks_coherent. }
  assert (coherent (play ms (boot online now))) as H.
  { apply Hplay. reflexivity. }
  split; [exact H|].
  split; [|split].
  - unfold coherent in H.
    destruct (microtasks (play ms (boot online now))) as [|j [|j' js]];
      simpl; try contradiction; lia.
  - unfold coherent in H.
    destruct (microtasks (play ms (boot online now))) as [|j [|j' js]];
      try contradiction; rewrite H; split; congruence.
  - now apply run_microtasks_coherent.
Qed.

(** ** The merge *)

Lemma keys_assign : forall k v o,
  keys (assign k v o) = if existsb (String.eqb k) (keys o)
                        then keys o else keys o ++ [k].
Proof.
  intros k v. induction o as [|[k0 v0] o IH]; simpl; [reflexivity|].
  destruct (String.eqb k k0) eqn:E; simpl.
  - apply String.eqb_eq in E. now subst.
  - rewrite IH. now destruct (existsb (String.eqb k) (keys o)).
Qed.

Lemma existsb_eqb_In : forall k ks,
  existsb (String.eqb k) ks = true <-> In k ks.
Proof.
  intros k ks. rewrite existsb_exists. split.
  - intros [x [Hin E]]. apply String.eqb_eq in E. now subst.
  - intros H. exists k. split; [exact H | apply String.eqb_refl].
Qed.

Lemma assign_NoDup : forall k v o,
  NoDup (keys o) -> NoDup (keys (assign k v o)).
Proof.
  intros k v o H. rewrite keys_assign.
  destruct (existsb (String.eqb k) (keys o)) eqn:E; [exact H|].
  apply NoDup_app; [exact H | repeat constructor; auto |].
  intros x Hx [<-|[]].
  apply existsb_eqb_In in Hx. congruence.
Qed.

Lemma assign_keeps_keys : forall k v o x,
  In x (keys o) -> In x (keys (assign k v o)).
Proof.
  intros k v o x H. rewrite keys_assign.
  destruct (existsb (String.eqb k) (keys o)); [exact H|].
  apply in_or_app. now left.
Qed.

Lemma assign_all_NoDup : forall b acc,
  NoDup (keys acc) ->
  NoDup (keys (fold_left (fun acc kv => assign (fst kv) (snd kv) acc) b acc)).
Proof.
  induction b as [|[k v] b IH]; intros acc H; simpl; [exact H|].
  apply IH. now apply assign_NoDup.
Qed.

Lemma assign_all_keeps_keys : forall b acc x,
  In x (keys acc) ->
  In x (keys (fold_left (fun acc kv => assign (fst kv) (snd kv) acc) b acc)).
Proof.
  induction b as [|[k v] b IH]; intros acc x H; simpl; [exact H|].
  apply IH. now apply assign_keeps_keys.
Qed.

Lemma assign_all_adds_keys : forall b acc x,
  In x (keys b) ->
  In x (keys (fold_left (fun acc kv => assign (fst kv) (snd kv) acc) b acc)).
Proof.
  induction b as [|[k v] b IH]; intros acc x H; simpl in *; [contradiction|].
  destruct H as [<- | H]; [|now apply IH].
  apply assign_all_keeps_keys. rewrite keys_assign.
  destruct (existsb (String.eqb k) (keys acc)) eqn:E.
  - now apply existsb_eqb_In.
  - apply in_or_app. right. now left.
Qed.

Lemma assign_fresh : forall k v o,
  ~ In k (keys o) -> assign k v o = o ++ [(k, v)].
Proof.
  intros k v. induction o as [|[k0 v0] o IH]; intros H; simpl; [reflexivity|].
  destruct (String.eqb k k0) eqn:E.
  - apply String.eqb_eq in E. subst. exfalso. apply H. now left.
  - rewrite IH; [reflexivity|]. intros Hin. apply H. now right.
Qed.

Lemma assign_all_fresh : forall a acc,
  NoDup (keys (acc ++ a)) ->
  fold_left (fun acc kv => assign (fst kv) (snd kv) acc) a acc = acc ++ a.
Proof.
  induction a as [|[k v] a IH]; intros acc H; simpl.
  - now rewrite app_nil_r.
  - unfold keys in H. rewrite map_app in H. simpl in H.
    rewrite assign_fresh.
    + rewrite IH; [now rewrite <- app_assoc|].
      unfold keys. rewrite <- app_assoc, map_app. exact H.
    + apply NoDup_remove_2 in H. intros Hin. apply H.
      apply in_or_app. now left.
Qed.

(** [{...a}] of an object is the object. *)
Lemma spread_nothing : forall a, NoDup (keys a) -> spread a [] = a.
Proof. intros a H. unfold spread. simpl. now apply (assign_all_fresh a []). Qed.

Lemma field_spread_other : forall a b k,
  NoDup (keys a) -> ~ In k (keys b) -> field (spread a b) k = field a k.
Proof.
  intros a b k Ha Hb. unfold field, spread.
  rewrite lookup_assign_all_other by exact Hb.
  now rewrite (assign_all_fresh a []).
Qed.

(** X5: a commit merges and never drops.  After a successful submission the
    snapshot has the candidate's value under every name the candidate
    carries and its previous value under every other name; every field name
    it had, it still has; and its field names are pairwise distinct. *)
Theorem commit_merges : forall u w l fs next,
  idle w ->
  candidate u (state w) (next_loc w) = Normal (VObject l fs, next) ->
  validates (VObject l fs) = Normal true ->
  NoDup (keys (state w)) ->
  NoDup (keys fs) ->
  let w2 := run_microtasks (fst (setState u w)) in
  (forall k v, In (k, v) fs -> field (state w2) k = v) /\
  (forall k, ~ In k (keys fs) -> field (state w2) k = field (state w) k) /\
  (forall k, In k (keys (state w)) -> In k (keys (state w2))) /\
  (forall k, In k (keys fs) -> In k (keys (state w2))) /\
  NoDup (keys (state w2)).
Proof.
  intros u w l fs next Hidle Hc Hv Ha Hb. cbv zeta.
  destruct (commit_step u Hidle Hc Hv) as (_ & _ & Hs & _).
  cbv zeta in Hs. rewrite Hs. simpl own_fields.
  repeat split.
  - intros k v Hin. now apply field_spread_own.
  - intros k Hk. now apply field_spread_other.
  - intros k Hk. unfold spread. apply assign_all_keeps_keys.
    now rewrite (assign_all_fresh (state w) []).
  - intros k Hk. unfold spread. now apply assign_all_adds_keys.
  - unfold spread. apply assign_all_NoDup, assign_all_NoDup. constructor.
Qed.

Lemma commit_merges_witness :
  let w := boot true 0%Z in
  let w2 := run_microtasks
              (fst (setState (UVal (full_candidate 10 [VStr "a"])) w)) in
  field (state w2) "likedVideos" = VSet 11 [VStr "a"] /\
  field (state w2) "cache" = VMap 5 [] /\
  NoDup (keys (state w2)).
Proof.
  cbv zeta.
  assert (NoDup (keys (state (boot true 0%Z)))) as Ha.
  { simpl. repeat constructor; simpl; intuition discriminate. }
  assert (NoDup ["user"; "videos"; "likedVideos"; "savedVideos"; "online";
                 "ui"]) as Hb.
  { repeat constructor; simpl; intuition discriminate. }
  destruct (@commit_merges (UVal (full_candidate 10 [VStr "a"]))
              (boot true 0%Z) 10 _ 100
              (conj eq_refl eq_refl) eq_refl eq_refl Ha Hb)
    as (Hown & Hother & _ & _ & Hnd).
  split; [apply Hown; simpl; tauto|].
  split; [|exact Hnd].
  rewrite Hother; [reflexivity|]. simpl. intuition discriminate.
Defined.

(** ** The registry *)

Lemma subs_get_set : forall ss key cbs key',
  subs_get (subs_set ss key cbs) key' =
  if String.eqb key key' then Some cbs else subs_get ss key'.
Proof.
  intros ss key cbs key'. induction ss as [|[k old] ss IH]; simpl.
  - rewrite String.eqb_sym. reflexivity.
  - destruct (String.eqb k key) eqn:E; simpl.
    + apply String.eqb_eq in E. subst k.
      now destruct (String.eqb key key').
    + destruct (String.eqb k key') eqn:E'.
      * apply String.eqb_eq in E'. subst k.
        now rewrite String.eqb_sym, E.
      * exact IH.
Qed.

Lemma subs_get_delete : forall ss key key',
  subs_get (subs_delete ss key) key' =
  if String.eqb key key' then None else subs_get ss key'.
Proof.
  intros ss key key'. unfold subs_delete.
  induction ss as [|[k old] ss IH]; simpl.
  - now destruct (String.eqb key key').
  - destruct (String.eqb k key) eqn:E; simpl.
    + apply String.eqb_eq in E. subst k. rewrite IH.
      now destruct (String.eqb key key').
    + rewrite IH. destruct (String.eqb k key') eqn:E'; [|reflexivity].
      apply String.eqb_eq in E'. subst k.
      now rewrite String.eqb_sym, E.
Qed.

Lemma subs_set_same : forall ss key cbs,
  subs_get ss key = Some cbs -> subs_set ss key cbs = ss.
Proof.
  induction ss as [|[k old] ss IH]; intros key cbs H; simpl in *.
  - discriminate.
  - destruct (String.eqb k key) eqn:E.
    + now inversion H.
    + now rewrite IH.
Qed.

Lemma subs_set_set : forall ss key cbs cbs',
  subs_set (subs_set ss key cbs) key cbs' = subs_set ss key cbs'.
Proof.
  induction ss as [|[k old] ss IH]; intros key cbs cbs'; simpl.
  - now rewrite String.eqb_refl.
  - destruct (String.eqb k key) eqn:E; simpl; rewrite E; [reflexivity|].
    now rewrite IH.
Qed.

Lemma subs_delete_set_absent : forall ss key cbs,
  subs_get ss key = None -> subs_delete (subs_set ss key cbs) key = ss.
Proof.
  unfold subs_delete.
  induction ss as [|[k old] ss IH]; intros key cbs H; simpl in *.
  - now rewrite String.eqb_refl.
  - destruct (String.eqb k key) eqn:E; [discriminate|].
    simpl. rewrite E. simpl. now rewrite IH.
Qed.

Lemma among_add : forall cbs cb, among cb (cbs_add cbs cb) = true.
Proof.
  intros cbs cb. unfold cbs_add, among.
  destruct (existsb (fun c => Nat.eqb (cb_id c) (cb_id cb)) cbs) eqn:E;
    [exact E|].
  rewrite existsb_app. simpl. now rewrite Nat.eqb_refl, orb_true_r.
Qed.

Lemma cbs_add_among : forall cbs cb,
  among cb cbs = true -> cbs_add cbs cb = cbs.
Proof. intros cbs cb H. unfold cbs_add. unfold among in H. now rewrite H. Qed.

Lemma among_delete : forall cbs cb c,
  among c (cbs_delete cbs cb) =
  among c cbs && negb (Nat.eqb (cb_id c) (cb_id cb)).
Proof.
  intros cbs cb c. unfold among, cbs_delete.
  induction cbs as [|c0 cbs IH]; simpl; [reflexivity|].
  destruct (Nat.eqb (cb_id c0) (cb_id cb)) eqn:E0; simpl.
  - rewrite IH. apply Nat.eqb_eq in E0.
    destruct (Nat.eqb (cb_id c0) (cb_id c)) eqn:E1; simpl; [|reflexivity].
    apply Nat.eqb_eq in E1.
    assert (Nat.eqb (cb_id c) (cb_id cb) = true) as ->
      by (apply Nat.eqb_eq; congruence).
    simpl. now rewrite andb_false_r.
  - rewrite IH.
    destruct (Nat.eqb (cb_id c0) (cb_id c)) eqn:E1; simpl; [|reflexivity].
    apply Nat.eqb_eq in E1.
    assert (Nat.eqb (cb_id c) (cb_id cb) = false) as ->
      by (rewrite <- E1; exact E0).
    reflexivity.
Qed.

Lemma cbs_delete_add : forall cbs cb,
  among cb cbs = false -> cbs_delete (cbs_add cbs cb) cb = cbs.
Proof.
  intros cbs cb H. unfold cbs_add. unfold among in H. rewrite H.
  unfold cbs_delete. rewrite filter_app. simpl.
  rewrite Nat.eqb_refl. simpl. rewrite app_nil_r.
  induction cbs as [|c cbs IH]; simpl in *; [reflexivity|].
  apply orb_false_iff in H. destruct H as [H1 H2].
  rewrite H1. simpl. now rewrite IH.
Qed.

Lemma subscribers_subscribe : forall key cb w,
  subscribers (mgr (subscribe key cb w)) =
  subs_set (subscribers (mgr w)) key (cbs_add (registered key w) cb).
Proof.
  intros key cb w. unfold subscribe, registered. simpl.
  destruct (subs_get (subscribers (mgr w)) key) as [cbs|] eqn:E.
  - rewrite E. reflexivity.
  - rewrite subs_get_set, String.eqb_refl. simpl.
    now rewrite subs_set_set.
Qed.

Lemma world_with_subscribers : forall w ss,
  ss = subscribers (mgr w) -> with_mgr (set_subscribers ss) w = w.
Proof. intros [[] ] ss ->. reflexivity. Qed.

Lemma subscribe_as_set : forall key cb w,
  subscribe key cb w =
  with_mgr (set_subscribers
              (subs_set (subscribers (mgr w)) key
                        (cbs_add (registered key w) cb))) w.
Proof.
  intros key cb w. unfold subscribe, registered, with_mgr. simpl.
  destruct (subs_get (subscribers (mgr w)) key) as [cbs|] eqn:E.
  - rewrite E. reflexivity.
  - rewrite subs_get_set, String.eqb_refl. simpl.
    now rewrite subs_set_set.
Qed.

(** X6: [subscribe] registers a callback once.  After [subscribe(key, cb)]
    the callback is among those of [key], after those already there;
    what is registered under any other key is unchanged; and subscribing the
    same callback again changes nothing. *)
Theorem subscribe_once : forall key cb w,
  let w1 := subscribe key cb w in
  registered key w1 = cbs_add (registered key w) cb /\
  among cb (registered key w1) = true /\
  (forall key', key' <> key -> registered key' w1 = registered key' w) /\
  subscribe key cb w1 = w1.
Proof.
  intros key cb w. cbv zeta.
  assert (registered key (subscribe key cb w) =
          cbs_add (registered key w) cb) as Hreg.
  { unfold registered at 1. rewrite subscribers_subscribe, subs_get_set.
    now rewrite String.eqb_refl. }
  split; [exact Hreg|]. split; [rewrite Hreg; apply among_add|].
  split.
  - intros key' Hne. unfold registered.
    rewrite subscribers_subscribe, subs_get_set.
    destruct (String.eqb key key') eqn:E; [|reflexivity].
    apply String.eqb_eq in E. congruence.
  - rewrite (subscribe_as_set key cb (subscribe key cb w)).
    apply world_with_subscribers.
    rewrite Hreg, (cbs_add_among _ _ (among_add _ _)).
    apply subs_set_same.
    rewrite subscribers_subscribe, subs_get_set.
    now rewrite String.eqb_refl.
Qed.

(** X7: the function [subscribe] returns undoes the subscription.  When the
    callback was not yet registered under [key] (and the registry holds no
    empty set there), subscribing and then unsubscribing leaves the manager
    exactly as it was; the key's entry, if created for the callback, is
    removed again. *)
Theorem unsubscribe_undoes_subscribe : forall key cb w,
  among cb (registered key w) = false ->
  subs_get (subscribers (mgr w)) key <> Some [] ->
  unsubscribe key cb (subscribe key cb w) = w.
Proof.
  intros key cb w Hnew Hne.
  unfold unsubscribe.
  assert (subs_get (subscribers (mgr (subscribe key cb w))) key =
          Some (cbs_add (registered key w) cb)) as Hget.
  { rewrite subscribers_subscribe, subs_get_set.
    now rewrite String.eqb_refl. }
  unfold with_mgr at 1. rewrite Hget.
  rewrite (cbs_delete_add _ _ Hnew).
  rewrite subscribers_subscribe.
  unfold registered in *.
  destruct (subs_get (subscribers (mgr w)) key) as [cbs|] eqn:E.
  - destruct cbs as [|c cbs]; [congruence|]. simpl Nat.eqb.
    rewrite subs_set_set, (subs_set_same _ _ E).
    rewrite subscribe_as_set. destruct w as [[] ]. reflexivity.
  - simpl Nat.eqb. rewrite (subs_delete_set_absent _ _ _ E).
    rewrite subscribe_as_set. destruct w as [[] ]. reflexivity.
Qed.

Lemma unsubscribe_undoes_subscribe_witness :
  unsubscribe "videos" throwing_cb
    (subscribe "videos" throwing_cb (boot true 0%Z)) = boot true 0%Z.
Proof.
  apply unsubscribe_undoes_subscribe; [reflexivity | discriminate].
Defined.

Lemma registered_unsubscribe : forall key cb w key',
  registered key' (unsubscribe key cb w) =
  if String.eqb key key' then cbs_delete (registered key w) cb
  else registered key' w.
Proof.
  intros key cb w key'. unfold registered, unsubscribe. simpl.
  destruct (subs_get (subscribers (mgr w)) key) as [cbs|] eqn:E.
  - destruct (cbs_delete cbs cb) as [|c r] eqn:Ed; simpl.
    + rewrite subs_get_delete.
      destruct (String.eqb key key') eqn:Ek; reflexivity.
    + rewrite subs_get_set.
      destruct (String.eqb key key') eqn:Ek; reflexivity.
  - destruct (String.eqb key key') eqn:Ek; [|reflexivity].
    apply String.eqb_eq in Ek. subst key'. now rewrite E.
Qed.

(** X8: unsubscribing removes that callback and nothing else.  Afterwards
    the callback is no longer among those of [key], every other callback of
    [key] still is, the other keys are untouched, no empty set is left
    behind under [key], and no notification calls the callback for [key]
    any more. *)
Theorem unsubscribe_removes_one : forall key cb w,
  let w1 := unsubscribe key cb w in
  among cb (registered key w1) = false /\
  (forall c, cb_id c <> cb_id cb ->
             among c (registered key w1) = among c (registered key w)) /\
  (forall key', key' <> key -> registered key' w1 = registered key' w) /\
  subs_get (subscribers (mgr w1)) key <> Some [] /\
  (forall previousState currentState args,
      ~ In (cb_id cb, args)
           (key_calls (subscribers (mgr w1)) previousState currentState key)).
Proof.
  intros key cb w. cbv zeta.
  assert (among cb (registered key (unsubscribe key cb w)) = false) as Hgone.
  { rewrite registered_unsubscribe, String.eqb_refl, among_delete.
    now rewrite Nat.eqb_refl, andb_false_r. }
  split; [exact Hgone|]. split; [|split; [|split]].
  - intros c Hc. rewrite registered_unsubscribe, String.eqb_refl, among_delete.
    apply Nat.eqb_neq in Hc. rewrite Hc. now rewrite andb_true_r.
  - intros key' Hne. rewrite registered_unsubscribe.
    destruct (String.eqb key key') eqn:E; [|reflexivity].
    apply String.eqb_eq in E. congruence.
  - unfold unsubscribe. simpl.
    destruct (subs_get (subscribers (mgr w)) key) as [cbs|] eqn:E.
    + destruct (cbs_delete cbs cb) as [|c r] eqn:Ed; simpl.
      * rewrite subs_get_delete, String.eqb_refl. discriminate.
      * rewrite subs_get_set, String.eqb_refl. discriminate.
    + rewrite E. discriminate.
  - intros previousState currentState args Hin.
    unfold key_calls in Hin. unfold registered, among in Hgone.
    destruct (subs_get (subscribers (mgr (unsubscribe key cb w))) key)
      as [cbs|]; [|contradiction].
    apply in_map_iff in Hin. destruct Hin as [c [Heq Hc]].
    inversion Heq; subst.
    assert (existsb (fun c0 => Nat.eqb (cb_id c0) (cb_id cb)) cbs = true)
      as Habs.
    { apply existsb_exists. exists c. split; [exact Hc|].
      apply Nat.eqb_eq. congruence. }
    congruence.
Qed.

(** ** Commits that change nothing *)

Lemma isEqual_refl : forall v, isEqual v v = true.
Proof. intros v. unfold isEqual. now rewrite strict_eq_refl. Qed.

Lemma isEqual_identical : forall a b, strict_eq a b = true -> isEqual a b = true.
Proof. intros a b H. unfold isEqual. now rewrite H. Qed.

(** X9: a commit that changes no field is still a commit.  When every value
    the candidate carries is identical ([===]) to the one the snapshot
    holds under that name, [getChangedKeys] is empty and no key subscriber is
    called; yet the wildcard subscribers are called, with an empty list of
    changed keys, a history entry is appended and the promise resolves. *)
Theorem unchanged_commit_still_announced : forall u w l fs next,
  idle w ->
  candidate u (state w) (next_loc w) = Normal (VObject l fs, next) ->
  validates (VObject l fs) = Normal true ->
  NoDup (keys (state w)) ->
  NoDup (keys fs) ->
  (forall k v, In (k, v) fs -> strict_eq (field (state w) k) v = true) ->
  List.length (history (mgr w)) < maxHistoryLength (mgr w) ->
  let w2 := run_microtasks (fst (setState u w)) in
  getChangedKeys (state w) (state w2) = [] /\
  calls w2 =
    calls w ++ map (fun cb => (cb_id cb, AllArgs (state w2) (state w) []))
                   (registered "*" w) /\
  history (mgr w2) =
    history (mgr w) ++ [{| timestamp := clock w;
                           previous := state w;
                           current := state w2 |}] /\
  settled w2 =
    settled w ++ [(snd (setState u w), Resolved (Some (state w2)))].
Proof.
  intros u w l fs next Hidle Hc Hv Ha Hb Hsame Hroom. cbv zeta.
  destruct (commit_step u Hidle Hc Hv)
    as (Hp & _ & Hstate & _ & _ & Hsettled & Hh & _).
  cbv zeta in Hstate, Hsettled, Hh. simpl own_fields in *.
  assert (getChangedKeys (state w) (spread (state w) fs) = []) as Hnone.
  { unfold getChangedKeys.
    match goal with
    | |- filter ?f ?ks = [] =>
        assert (forall x, In x ks -> f x = false) as Hall
    end.
    { intros key _. apply negb_false_iff.
      destruct (in_dec string_dec key (keys fs)) as [Hin | Hout].
      - apply in_map_iff in Hin. destruct Hin as [[k v] [Hk Hin]].
        simpl in Hk. subst k.
        rewrite (@field_spread_own (state w) fs key v Hb Hin).
        apply isEqual_identical. now apply Hsame.
      - rewrite (@field_spread_other (state w) fs key Ha Hout).
        apply isEqual_refl. }
    revert Hall.
    generalize (dedup (keys (state w) ++ keys (spread (state w) fs))).
    induction l0 as [|x xs IH]; intros Hall; simpl; [reflexivity|].
    rewrite (Hall x (or_introl eq_refl)). apply IH.
    intros y Hy. apply Hall. now right. }
  rewrite Hstate, Hp.
  split; [exact Hnone|]. split; [|split; [|exact Hsettled]].
  - rewrite (run_commit u Hidle Hc Hv). unfold commit. simpl.
    change (state (started w)) with (state w).
    unfold notified. rewrite Hnone. simpl.
    unfold registered.
    now destruct (subs_get (subscribers (mgr w)) "*").
  - rewrite Hh. unfold push_bounded. rewrite length_app. simpl.
    destruct (Nat.ltb_spec (maxHistoryLength (mgr w))
                (List.length (history (mgr w)) + 1)); [lia | reflexivity].
Qed.

Lemma unchanged_commit_still_announced_witness :
  let w := subscribe "*" quiet_cb (subscribe "ui" throwing_cb (boot true 0%Z)) in
  let w2 := run_microtasks (fst (setState resubmit w)) in
  calls w2 = [(2, AllArgs (state w2) (state w) [])] /\
  List.length (history (mgr w2)) = 1.
Proof.
  cbv zeta.
  set (w := subscribe "*" quiet_cb (subscribe "ui" throwing_cb (boot true 0%Z))).
  assert (NoDup (keys (state w))) as Ha.
  { simpl. repeat constructor; simpl; intuition discriminate. }
  assert (NoDup ["user"; "videos"; "likedVideos"; "savedVideos"; "online";
                 "ui"]) as Hb.
  { repeat constructor; simpl; intuition discriminate. }
  destruct (@unchanged_commit_still_announced resubmit w 100 _ 101
              (conj eq_refl eq_refl) eq_refl eq_refl Ha Hb)
    as (_ & Hcalls & Hh & _).
  - intros k v Hin. simpl in Hin.
    destruct Hin as [H|[H|[H|[H|[H|[H|[]]]]]]]; inversion H; subst;
      reflexivity.
  - simpl. lia.
  - split; [exact Hcalls|]. rewrite Hh. reflexivity.
Defined.

(** ** Sets are compared as sets *)

Lemma set_has_identity : forall ms x,
  set_has ms x = true <-> In (identity_of x) (map identity_of ms).
Proof.
  intros ms x. unfold set_has. rewrite existsb_exists, in_map_iff. split.
  - intros [y [Hin E]]. exists y. split; [|exact Hin].
    now apply strict_eq_identity.
  - intros [y [E Hin]]. exists y. split; [exact Hin|].
    now apply strict_eq_identity.
Qed.

(** X10: on two distinct Set objects whose members are pairwise distinct (as
    the members of a Set are), [isEqual] holds exactly when the two Sets
    have the same members, in whatever order: the one-sided test of the
    code, together with the size test, is a two-sided one. *)
Theorem isEqual_sets : forall l l' sa sb,
  l <> l' -> distinct sa -> distinct sb ->
  (isEqual (VSet l sa) (VSet l' sb) = true <->
   forall x, set_has sa x = set_has sb x).
Proof.
  intros l l' sa sb Hl Ha Hb. unfold isEqual. simpl.
  apply Nat.eqb_neq in Hl. rewrite Hl.
  rewrite andb_true_iff, Nat.eqb_eq, forallb_forall.
  unfold distinct in *.
  split.
  - intros [Hlen Hall] x.
    assert (incl (map identity_of sa) (map identity_of sb)) as Hincl.
    { intros i Hi. apply in_map_iff in Hi. destruct Hi as [y [<- Hy]].
      apply set_has_identity. now apply Hall. }
    assert (incl (map identity_of sb) (map identity_of sa)) as Hincl'.
    { apply NoDup_length_incl; [exact Ha | | exact Hincl].
      rewrite !length_map. lia. }
    destruct (set_has sa x) eqn:E1, (set_has sb x) eqn:E2; try reflexivity.
    + apply set_has_identity in E1. apply Hincl in E1.
      apply set_has_identity in E1. congruence.
    + apply set_has_identity in E2. apply Hincl' in E2.
      apply set_has_identity in E2. congruence.
  - intros Hsame.
    assert (incl (map identity_of sa) (map identity_of sb)) as Hincl.
    { intros i Hi. apply in_map_iff in Hi. destruct Hi as [y [<- Hy]].
      apply set_has_identity. rewrite <- Hsame. apply set_has_identity.
      now apply in_map. }
    assert (incl (map identity_of sb) (map identity_of sa)) as Hincl'.
    { intros i Hi. apply in_map_iff in Hi. destruct Hi as [y [<- Hy]].
      apply set_has_identity. rewrite Hsame. apply set_has_identity.
      now apply in_map. }
    split.
    + pose proof (NoDup_incl_length Ha Hincl) as H1.
      pose proof (NoDup_incl_length Hb Hincl') as H2.
      rewrite !length_map in H1, H2. lia.
    + intros x Hx. rewrite <- Hsame. apply set_has_identity.
      now apply in_map.
Qed.

Lemma isEqual_sets_witness :
  isEqual (VSet 1 [VStr "a"; VStr "b"]) (VSet 2 [VStr "b"; VStr "a"]) = true.
Proof.
  apply isEqual_sets.
  - discriminate.
  - unfold distinct. simpl. repeat constructor; simpl; intuition discriminate.
  - unfold distinct. simpl. repeat constructor; simpl; intuition discriminate.
  - intros x. simpl. rewrite !orb_false_r. apply orb_comm.
Defined.

(** ** Maps are compared entry by entry *)

Lemma map_get_congr : forall es k k',
  strict_eq k k' = true -> map_get es k = map_get es k'.
Proof.
  intros es k k' H. induction es as [|[k0 v0] es IH]; simpl; [reflexivity|].
  rewrite (strict_eq_sym k0 k), (strict_eq_sym k0 k').
  rewrite (strict_eq_congr k k' k0 H). now rewrite IH.
Qed.

Lemma map_get_absent : forall es k,
  ~ In (identity_of k) (map identity_of (map fst es)) -> map_get es k = VUndef.
Proof.
  induction es as [|[k0 v0] es IH]; intros k H; simpl in *; [reflexivity|].
  destruct (strict_eq k0 k) eqn:E.
  - apply strict_eq_identity in E. exfalso. apply H. now left.
  - apply IH. intros Hin. apply H. now right.
Qed.

Lemma map_get_present : forall es k,
  map_get es k <> VUndef -> In (identity_of k) (map identity_of (map fst es)).
Proof.
  intros es k H.
  destruct (in_dec (fun a b : identity =>
              ltac:(decide equality;
                    first [ apply Bool.bool_dec | apply Z.eq_dec
                          | apply string_dec | apply Nat.eq_dec ]))
              (identity_of k) (map identity_of (map fst es))) as [Hin | Hout];
    [exact Hin|].
  exfalso. apply H. now apply map_get_absent.
Qed.

Lemma map_get_entry : forall es k v,
  distinct (map fst es) -> In (k, v) es -> map_get es k = v.
Proof.
  unfold distinct.
  induction es as [|[k0 v0] es IH]; intros k v Hnd Hin; simpl in *.
  - contradiction.
  - inversion Hnd as [|? ? Hfresh Hnd']; subst.
    destruct Hin as [Heq | Hin].
    + inversion Heq; subst. now rewrite strict_eq_refl.
    + destruct (strict_eq k0 k) eqn:E.
      * apply strict_eq_identity in E. exfalso. apply Hfresh. rewrite E.
        apply in_map. apply (in_map fst) in Hin. exact Hin.
      * now apply IH.
Qed.

Lemma identical_to_undefined : forall v,
  strict_eq VUndef v = true -> v = VUndef.
Proof. intros []; simpl; intros H; try discriminate; reflexivity. Qed.

Lemma map_keys_included : forall ea eb,
  defined_values ea ->
  (forall k v, In (k, v) ea -> strict_eq (map_get eb k) v = true) ->
  incl (map identity_of (map fst ea)) (map identity_of (map fst eb)).
Proof.
  intros ea eb Hdef Hall i Hi.
  apply in_map_iff in Hi. destruct Hi as [k [<- Hk]].
  apply in_map_iff in Hk. destruct Hk as [[k' v] [Heq Hin]].
  simpl in Heq. subst k'.
  apply map_get_present. intros Hundef.
  specialize (Hall k v Hin). rewrite Hundef in Hall.
  apply identical_to_undefined in Hall. now apply (Hdef k v).
Qed.

(** X11: on two distinct Map objects with pairwise distinct keys and no
    [undefined] value, [isEqual] holds exactly when the two Maps answer
    every [get] with identical values: the same keys, each bound to the same
    ([===]) value.  Values are compared by identity, not by content. *)
Theorem isEqual_maps : forall l l' ea eb,
  l <> l' ->
  distinct (map fst ea) -> distinct (map fst eb) ->
  defined_values ea -> defined_values eb ->
  (isEqual (VMap l ea) (VMap l' eb) = true <->
   forall k, strict_eq (map_get ea k) (map_get eb k) = true).
Proof.
  intros l l' ea eb Hl Ha Hb Hda Hdb. unfold isEqual. simpl.
  apply Nat.eqb_neq in Hl. rewrite Hl.
  rewrite andb_true_iff, Nat.eqb_eq, forallb_forall.
  split.
  - intros [Hlen Hall].
    assert (forall k v, In (k, v) ea -> strict_eq (map_get eb k) v = true)
      as Hall' by (intros k v Hin; exact (Hall (k, v) Hin)).
    pose proof (@map_keys_included ea eb Hda Hall') as Hincl.
    assert (incl (map identity_of (map fst eb)) (map identity_of (map fst ea)))
      as Hincl'.
    { apply NoDup_length_incl; [exact Ha | | exact Hincl].
      rewrite !length_map. lia. }
    intros k.
    destruct (in_dec (fun a b : identity =>
                ltac:(decide equality;
                      first [ apply Bool.bool_dec | apply Z.eq_dec
                            | apply string_dec | apply Nat.eq_dec ]))
                (identity_of k) (map identity_of (map fst ea)))
      as [Hin | Hout].
    + apply in_map_iff in Hin. destruct Hin as [k0 [Hid Hk0]].
      apply in_map_iff in Hk0. destruct Hk0 as [[k1 v] [Heq Hin]].
      simpl in Heq. subst k1.
      apply strict_eq_identity in Hid.
      rewrite <- (@map_get_congr ea k0 k Hid), <- (@map_get_congr eb k0 k Hid).
      rewrite (@map_get_entry ea _ _ Ha Hin).
      rewrite strict_eq_sym. now apply Hall'.
    + rewrite (@map_get_absent ea k Hout).
      rewrite (@map_get_absent eb k); [reflexivity|].
      intros Hin. apply Hout. now apply Hincl'.
  - intros Hsame.
    assert (forall k v, In (k, v) ea -> strict_eq (map_get eb k) v = true)
      as Hall.
    { intros k v Hin. rewrite strict_eq_sym.
      rewrite <- (@map_get_entry ea _ _ Ha Hin). apply Hsame. }
    assert (forall k v, In (k, v) eb -> strict_eq (map_get ea k) v = true)
      as Hall'.
    { intros k v Hin.
      rewrite <- (@map_get_entry eb _ _ Hb Hin). apply Hsame. }
    pose proof (@map_keys_included ea eb Hda Hall) as Hincl.
    pose proof (@map_keys_included eb ea Hdb Hall') as Hincl'.
    split.
    + pose proof (NoDup_incl_length Ha Hincl) as H1.
      pose proof (NoDup_incl_length Hb Hincl') as H2.
      rewrite !length_map in H1, H2. lia.
    + intros [k v] Hin. simpl. now apply Hall.
Qed.

Lemma isEqual_maps_witness :
  isEqual (VMap 1 [(VStr "a", VNum 1); (VStr "b", VNum 2)])
          (VMap 2 [(VStr "b", VNum 2); (VStr "a", VNum 1)]) = true.
Proof.
  apply isEqual_maps.
  - discriminate.
  - unfold distinct. simpl. repeat constructor; simpl; intuition discriminate.
  - unfold distinct. simpl. repeat constructor; simpl; intuition discriminate.
  - intros k v Hin. simpl in Hin.
    destruct Hin as [H|[H|[]]]; inversion H; discriminate.
  - intros k v Hin. simpl in Hin.
    destruct Hin as [H|[H|[]]]; inversion H; discriminate.
  - intros k. unfold map_get.
    destruct (strict_eq (VStr "a") k) eqn:Ea, (strict_eq (VStr "b") k) eqn:Eb;
      try reflexivity.
    apply strict_eq_identity in Ea. apply strict_eq_identity in Eb.
    simpl in Ea, Eb. congruence.
Defined.

(** ** Durable storage: what is written is what is read *)

Lemma stringify_object : forall l fs,
  stringify (VObject l fs) = Some (JObj (members_json fs)).
Proof.
  intros l fs. reflexivity.
Qed.

Lemma stringify_array : forall l xs,
  stringify (VArray l xs) = Some (JArr (elements_json xs)).
Proof.
  intros l xs. simpl.
  assert ((fix elems (xs : list value) : list json :=
             match xs with
             | [] => []
             | x :: xs' =>
                 match stringify x with
                 | Some j => j
                 | None => JNull
                 end :: elems xs'
             end) xs = elements_json xs) as ->; [|reflexivity].
  induction xs as [|x xs IH]; simpl; [reflexivity|].
  now rewrite IH.
Qed.

Lemma no_repeat_NoDup : forall ks, no_repeat ks = true -> NoDup ks.
Proof.
  induction ks as [|k ks IH]; simpl; intros H; constructor.
  - apply andb_true_iff in H. destruct H as [H _].
    apply negb_true_iff in H. intros Hin.
    apply existsb_eqb_In in Hin. congruence.
  - apply IH. apply andb_true_iff in H. tauto.
Qed.

Lemma thread_members_keys : forall members next,
  keys (fst (thread (fun kx n => let (v, n1) := parse (snd kx) n in
                                 ((fst kx, v), n1)) members next)) =
  map fst members.
Proof.
  induction members as [|[k x] members IH]; intros next; simpl; [reflexivity|].
  destruct (parse x next) as [v n1].
  specialize (IH n1).
  destruct (thread _ members n1) as [fs n2]. simpl in *. now rewrite IH.
Qed.

(** Parsing the text [JSON.stringify] printed gives a value that prints as
    the same text. *)
Lemma stringify_parse : forall j,
  unique_names j = true ->
  forall next, stringify (fst (parse j next)) = Some j.
Proof.
  induction j as [| b | n | s | items IH | members IH]
    using json_nested_ind; intros Hu next; try reflexivity.
  - simpl in *. destruct (thread parse items (S next)) as [vs next'] eqn:Et.
    simpl fst. rewrite stringify_array. do 2 f_equal.
    revert vs next' Et. generalize (S next).
    induction IH as [|x l Hx _ IHl]; intros n vs next' Et; simpl in *.
    + now inversion Et.
    + apply andb_true_iff in Hu. destruct Hu as [Hux Hul].
      specialize (Hx Hux n).
      destruct (parse x n) as [v n1].
      destruct (thread parse l n1) as [vs' n2] eqn:Et'.
      inversion Et; subst. simpl. simpl in Hx. rewrite Hx.
      f_equal. now apply (IHl Hul n1 vs' next').
  - simpl in Hu. apply andb_true_iff in Hu. destruct Hu as [Hnames Hu].
    simpl.
    pose proof (thread_members_keys members (S next)) as Hkeys.
    destruct (thread (fun kx n => let (v, n1) := parse (snd kx) n in
                                  ((fst kx, v), n1)) members (S next))
      as [fs next'] eqn:Et.
    simpl fst in *. rewrite stringify_object. do 2 f_equal.
    rewrite (assign_all_fresh fs []).
    2:{ simpl. rewrite Hkeys. now apply no_repeat_NoDup. }
    simpl. clear Hkeys Hnames.
    revert fs next' Et. generalize (S next).
    induction IH as [|[k x] l Hx _ IHl]; intros n fs next' Et; simpl in *.
    + now inversion Et.
    + apply andb_true_iff in Hu. destruct Hu as [Hux Hul].
      specialize (Hx Hux n).
      destruct (parse x n) as [v n1].
      destruct (thread _ l n1) as [fs' n2] eqn:Et'.
      inversion Et; subst. simpl. simpl in Hx. rewrite Hx.
      f_equal. now apply (IHl Hul n1 fs' next').
Qed.

Lemma storage_get_set : forall st k text k',
  storage_get (storage_set st k text) k' =
  if String.eqb k k' then Some text else storage_get st k'.
Proof.
  intros st k text k'. induction st as [|[k0 old] st IH]; simpl.
  - reflexivity.
  - destruct (String.eqb k0 k) eqn:E; simpl.
    + apply String.eqb_eq in E. subst k0.
      now destruct (String.eqb k k').
    + destruct (String.eqb k0 k') eqn:E'.
      * apply String.eqb_eq in E'. subst k0. now rewrite String.eqb_sym, E.
      * exact IH.
Qed.

Lemma prefixed_key_inj : forall k k',
  String.eqb ("socialflow_" ++ k) ("socialflow_" ++ k') = String.eqb k k'.
Proof. intros k k'. reflexivity. Qed.

(** X12: [saveToStorage] and [getStorage] round-trip through JSON.  After
    [saveToStorage(key, v)], [getStorage(key)] yields a freshly built value
    that serializes to the very text that was stored; a Map or a Set
    therefore comes back as an empty plain object; a value without a JSON
    text ([undefined], a function) is stored as the text [undefined], which
    cannot be parsed: the error is caught, logged, and [null] comes back.
    Other keys are not affected, and the manager is never touched. *)
Theorem storage_round_trip : forall key v w,
  let w1 := saveToStorage key v w in
  (forall j, stringify v = Some j -> unique_names j = true ->
     stringify (fst (snd (getStorage key w1))) = Some j /\
     snd (snd (getStorage key w1)) = false) /\
  ((exists l es, v = VMap l es) \/ (exists l ms, v = VSet l ms) ->
     snd (getStorage key w1) = (VObject (next_loc w) [], false)) /\
  (stringify v = None -> snd (getStorage key w1) = (VNull, true)) /\
  (forall key', key' <> key ->
     snd (getStorage key' w1) = snd (getStorage key' w)) /\
  mgr w1 = mgr w /\
  mgr (fst (getStorage key w1)) = mgr w.
Proof.
  intros key v w. cbv zeta.
  assert (storage_get (storage (saveToStorage key v w))
            ("socialflow_" ++ key) = Some (stringify v)) as Hget.
  { unfold saveToStorage, set_storage. cbn [storage].
    now rewrite storage_get_set, String.eqb_refl. }
  unfold getStorage. rewrite Hget.
  split; [|split; [|split; [|split; [|split]]]].
  - intros j Hj Hu. rewrite Hj.
    pose proof (stringify_parse j Hu (next_loc (saveToStorage key v w))) as H.
    destruct (parse j (next_loc (saveToStorage key v w))) as [v' next].
    simpl in *. auto.
  - intros [(l & es & ->) | (l & ms & ->)]; reflexivity.
  - intros Hnone. now rewrite Hnone.
  - intros key' Hne.
    assert (storage_get (storage (saveToStorage key v w))
              ("socialflow_" ++ key') =
            storage_get (storage w) ("socialflow_" ++ key')) as Hsame.
    { unfold saveToStorage, set_storage. cbn [storage].
      rewrite storage_get_set, prefixed_key_inj.
      destruct (String.eqb key key') eqn:E; [|reflexivity].
      apply String.eqb_eq in E. congruence. }
    rewrite Hsame.
    destruct (storage_get (storage w) ("socialflow_" ++ key'))
      as [[j|]|]; try reflexivity.
    change (next_loc (saveToStorage key v w)) with (next_loc w).
    now destruct (parse j (next_loc w)).
  - reflexivity.
  - destruct (stringify v) as [j|]; [|reflexivity].
    now destruct (parse j (next_loc (saveToStorage key v w))).
Qed.

Lemma storage_round_trip_witness :
  let w1 := saveToStorage "likedVideos" (VArray 9 [VStr "a"; VStr "b"])
              (boot true 0%Z) in
  stringify (fst (snd (getStorage "likedVideos" w1))) =
    Some (JArr [JStr "a"; JStr "b"]) /\
  snd (getStorage "ui" w1) = (VNull, false).
Proof.
  cbv zeta.
  destruct (storage_round_trip "likedVideos" (VArray 9 [VStr "a"; VStr "b"])
              (boot true 0%Z)) as (Hback & _ & _ & Hother & _).
  split.
  - exact (proj1 (Hback _ eq_refl eq_refl)).
  - rewrite (Hother "ui"); [reflexivity | discriminate].
Defined.

(** ** What [invalidateCache] asks for *)

Lemma prefix_occurs : forall p s,
  String.prefix p s = true <-> exists after, s = (p ++ after)%string.
Proof.
  induction p as [|c p IH]; intros s.
  - split; [intros _; now exists s | intros _; now destruct s].
  - destruct s as [|d s]; simpl.
    + split; [discriminate | intros [after H]; discriminate].
    + destruct (Ascii.ascii_dec c d) as [->|Hne].
      * rewrite IH. split; intros [after H]; exists after.
        -- now subst.
        -- now inversion H.
      * split; [discriminate|]. intros [after H]. inversion H. congruence.
Qed.

Lemma includes_unfold : forall s pattern,
  includes s pattern =
  if String.prefix pattern s then true
  else match s with
       | EmptyString => false
       | String _ s' => includes s' pattern
       end.
Proof. intros [|c s] pattern; reflexivity. Qed.

Lemma includes_occurs : forall s pattern,
  includes s pattern = true <-> occurs_in pattern s.
Proof.
  unfold occurs_in.
  induction s as [|c s IH]; intros pattern; rewrite includes_unfold.
  - destruct (String.prefix pattern "") eqn:E.
    + split; [intros _ | reflexivity].
      apply prefix_occurs in E. destruct E as [after E].
      exists ""%string, after. exact E.
    + split; [discriminate|]. intros [before [after H]].
      destruct before; simpl in H; [|discriminate].
      assert (String.prefix pattern "" = true) as E'
        by (apply prefix_occurs; now exists after).
      congruence.
  - destruct (String.prefix pattern (String c s)) eqn:E.
    + split; [intros _ | reflexivity].
      apply prefix_occurs in E. destruct E as [after E].
      exists ""%string, after. exact E.
    + rewrite IH. split.
      * intros [before [after H]]. exists (String c before), after.
        simpl. now rewrite H.
      * intros [before [after H]]. destruct before as [|d before]; simpl in H.
        -- assert (String.prefix pattern (String c s) = true) as E'
             by (apply prefix_occurs; now exists after).
           congruence.
        -- inversion H. now exists before, after.
Qed.

Lemma map_delete_filter : forall es k,
  distinct (map fst es) ->
  map_delete es k = filter (fun kv => negb (strict_eq (fst kv) k)) es.
Proof.
  unfold distinct.
  induction es as [|[k0 v0] es IH]; intros k Hnd; simpl; [reflexivity|].
  simpl in Hnd. inversion Hnd as [|? ? Hfresh Hnd']; subst.
  destruct (strict_eq k0 k) eqn:E; simpl.
  - symmetry. apply forallb_filter_id. apply forallb_forall.
    intros [k1 v1] Hin. simpl. apply negb_true_iff.
    destruct (strict_eq k1 k) eqn:E1; [|reflexivity].
    exfalso. apply Hfresh.
    apply strict_eq_identity in E. apply strict_eq_identity in E1.
    rewrite E, <- E1. apply in_map. apply (in_map fst) in Hin. exact Hin.
  - now rewrite IH.
Qed.

Lemma distinct_filter : forall (f : value * value -> bool) es,
  distinct (map fst es) -> distinct (map fst (filter f es)).
Proof.
  unfold distinct. intros f.
  induction es as [|[k v] es IH]; intros Hnd; simpl in *; [constructor|].
  inversion Hnd as [|? ? Hfresh Hnd']; subst.
  destruct (f (k, v)); simpl; [|now apply IH].
  constructor; [|now apply IH].
  intros Hin. apply Hfresh.
  apply in_map_iff in Hin. destruct Hin as [k1 [Hid Hin]].
  apply in_map_iff in Hin. destruct Hin as [[k2 v2] [Hk Hin]].
  simpl in Hk. subst k2. apply filter_In in Hin. destruct Hin as [Hin _].
  rewrite <- Hid. apply in_map. apply (in_map fst) in Hin. exact Hin.
Qed.

Lemma map_delete_all_filter : forall doomed es,
  distinct (map fst es) ->
  fold_left map_delete doomed es =
  filter (fun kv => negb (existsb (strict_eq (fst kv)) doomed)) es.
Proof.
  induction doomed as [|d doomed IH]; intros es Hnd; simpl.
  - symmetry. apply forallb_filter_id. now apply forallb_forall.
  - rewrite map_delete_filter by exact Hnd.
    rewrite IH by now apply distinct_filter.
    induction es as [|[k v] es IHes]; simpl; [reflexivity|].
    unfold distinct in Hnd. simpl in Hnd.
    inversion Hnd as [|? ? _ Hnd']; subst.
    destruct (strict_eq k d) eqn:E; simpl.
    + now apply IHes.
    + destruct (existsb (strict_eq k) doomed); simpl;
        [|f_equal]; now apply IHes.
Qed.

Lemma matching_keys_strings : forall es pattern,
  string_keys es ->
  matching_keys (map fst es) pattern =
  Normal (map fst (filter (key_matches pattern) es)).
Proof.
  induction es as [|[k v] es IH]; intros pattern Hs; simpl; [reflexivity|].
  destruct (Hs k v (or_introl eq_refl)) as [s ->].
  rewrite IH by (intros k' v' Hin; apply (Hs k' v'); now right).
  unfold key_matches. simpl.
  now destruct (includes s pattern).
Qed.

(** X13: the mutation [invalidateCache(pattern)] submits asks for exactly
    the right cache.  On a cache Map with string keys, its candidate has the
    single field [cache], a new Map holding, in their order and with their
    entries untouched, precisely the entries whose key does not contain
    [pattern] as a substring. *)
Theorem invalidate_candidate : forall pattern st next l es,
  field st "cache" = VMap l es ->
  distinct (map fst es) ->
  string_keys es ->
  invalidate pattern st next =
    Normal (VObject (S next)
              [("cache",
                VMap next (filter (fun kv => negb (key_matches pattern kv)) es))],
            S (S next)) /\
  (forall s v,
      In (VStr s, v) (filter (fun kv => negb (key_matches pattern kv)) es) <->
      In (VStr s, v) es /\ ~ occurs_in pattern s).
Proof.
  intros pattern st next l es Hcache Hnd Hs. split.
  - unfold invalidate, abind, of_outcome, new_object, aret.
    rewrite Hcache. simpl map_from. cbv iota beta.
    rewrite matching_keys_strings by exact Hs. cbv iota beta.
    rewrite map_delete_all_filter by exact Hnd.
    do 4 f_equal. f_equal. f_equal.
    apply filter_ext_in. intros [k v] Hin. f_equal. simpl.
    destruct (Hs k v Hin) as [s ->]. unfold key_matches at 2. simpl.
    destruct (includes s pattern) eqn:E.
    + apply existsb_exists. exists (VStr s). split.
      * apply in_map_iff. exists (VStr s, v). split; [reflexivity|].
        apply filter_In. split; [exact Hin|]. unfold key_matches. simpl.
        exact E.
      * simpl. apply String.eqb_refl.
    + destruct (existsb (strict_eq (VStr s)) _) eqn:Ex; [|reflexivity].
      apply existsb_exists in Ex. destruct Ex as [k' [Hk' Hid]].
      apply in_map_iff in Hk'. destruct Hk' as [[k2 v2] [Hk2 Hin2]].
      simpl in Hk2. subst k2. apply filter_In in Hin2.
      destruct Hin2 as [_ Hm]. unfold key_matches in Hm. simpl in Hm.
      destruct k'; simpl in Hid; try discriminate.
      apply String.eqb_eq in Hid. subst. congruence.
  - intros s v. rewrite filter_In. unfold key_matches. simpl.
    rewrite negb_true_iff, <- includes_occurs.
    destruct (includes s pattern); intuition congruence.
Qed.

Lemma invalidate_candidate_witness :
  invalidate "videos" (state cached_page) 200 =
    Normal (VObject 201
              [("cache", VMap 200 [(VStr "cache_user", user_entry)])], 202).
Proof.
  refine (proj1 (@invalidate_candidate "videos" (state cached_page) 200 30
                   [(VStr "cache_videos", feed_entry);
                    (VStr "cache_user", user_entry)] eq_refl _ _)).
  - unfold distinct. simpl. repeat constructor; simpl; intuition discriminate.
  - intros k v Hin. simpl in Hin.
    destruct Hin as [H|[H|[]]]; inversion H; eauto.
Defined.

(** ** What the toggles ask for *)

Lemma set_has_add : forall ms y x,
  set_has (set_add ms y) x = set_has ms x || strict_eq y x.
Proof.
  intros ms y x. unfold set_add.
  destruct (set_has ms y) eqn:E.
  - destruct (strict_eq y x) eqn:Eyx; [|now rewrite orb_false_r].
    rewrite orb_true_r. unfold set_has in *.
    apply existsb_exists in E. destruct E as [z [Hz Ezy]].
    apply existsb_exists. exists z. split; [exact Hz|].
    now apply strict_eq_trans with y.
  - unfold set_has. rewrite existsb_app. simpl. now rewrite orb_false_r.
Qed.

Lemma set_has_add_all : forall items acc x,
  set_has (fold_left set_add items acc) x = set_has acc x || set_has items x.
Proof.
  induction items as [|y items IH]; intros acc x; simpl.
  - now rewrite orb_false_r.
  - rewrite IH, set_has_add. unfold set_has at 4. simpl.
    now rewrite orb_assoc.
Qed.

Lemma set_has_of : forall items x, set_has (set_of items) x = set_has items x.
Proof. intros items x. unfold set_of. now rewrite set_has_add_all. Qed.

Lemma set_add_distinct : forall ms y, distinct ms -> distinct (set_add ms y).
Proof.
  intros ms y H. unfold set_add.
  destruct (set_has ms y) eqn:E; [exact H|].
  unfold distinct in *. rewrite map_app. simpl.
  apply NoDup_app; [exact H | repeat constructor; auto |].
  intros i Hi [<-|[]].
  apply set_has_identity in Hi. congruence.
Qed.

Lemma set_of_distinct : forall items, distinct (set_of items).
Proof.
  intros items. unfold set_of.
  assert (forall acc, distinct acc -> distinct (fold_left set_add items acc))
    as H.
  { induction items as [|y items IH]; intros acc Hacc; simpl; [exact Hacc|].
    apply IH. now apply set_add_distinct. }
  apply H. constructor.
Qed.

(** X14: the mutation a toggle submits flips one membership.  On a snapshot
    whose collection [name] is a Set, the candidate of
    [likeVideo]/[saveVideo] has the single field [name], a new Set in which
    [videoId] is a member exactly when the toggle wants it to be, and in
    which every other value is a member exactly when it was; the new Set
    holds no value twice. *)
Theorem membership_candidate : forall name member videoId st next l ms,
  field st name = VSet l ms ->
  exists ms',
    set_membership name member videoId st next =
      Normal (VObject (S next) [(name, VSet next ms')], S (S next)) /\
    (forall x, set_has ms' x =
               if strict_eq videoId x then member else set_has ms x) /\
    distinct ms'.
Proof.
  intros name member videoId st next l ms Hset.
  unfold set_membership, abind, new_object, aret. rewrite Hset.
  destruct member; simpl.
  - exists (set_of (ms ++ [videoId])). split; [reflexivity|].
    split; [|apply set_of_distinct].
    intros x. rewrite set_has_of. unfold set_has. rewrite existsb_app.
    simpl. rewrite orb_false_r.
    destruct (strict_eq videoId x); [apply orb_true_r | apply orb_false_r].
  - exists (set_of (filter (fun id => negb (strict_eq id videoId)) ms)).
    split; [reflexivity|]. split; [|apply set_of_distinct].
    intros x. rewrite set_has_of. unfold set_has.
    destruct (strict_eq videoId x) eqn:E.
    + apply not_true_iff_false. intros H.
      apply existsb_exists in H. destruct H as [y [Hy Eyx]].
      apply filter_In in Hy. destruct Hy as [_ Hne].
      apply negb_true_iff in Hne.
      rewrite strict_eq_sym in E.
      now rewrite (strict_eq_trans _ _ _ Eyx E) in Hne.
    + clear Hset. induction ms as [|y ms IH]; simpl; [reflexivity|].
      destruct (strict_eq y videoId) eqn:Ey; simpl.
      * rewrite IH.
        assert (strict_eq y x = false) as ->; [|reflexivity].
        rewrite (strict_eq_congr y videoId x Ey). exact E.
      * now rewrite IH.
Qed.

Lemma membership_candidate_witness :
  exists ms',
    set_membership "likedVideos" true (VStr "X") (initial_state true) 100 =
      Normal (VObject 101 [("likedVideos", VSet 100 ms')], 102) /\
    set_has ms' (VStr "X") = true.
Proof.
  destruct (@membership_candidate "likedVideos" true (VStr "X")
              (initial_state true) 100 1 [] eq_refl)
    as (ms' & Hc & Hm & _).
  exists ms'. split; [exact Hc|].
  now rewrite Hm.
Defined.

(** ** What the offline queue asks for *)

Lemma without_id_filter : forall items action,
  readable action ->
  Forall readable items ->
  without_id items action =
  Normal (filter (fun a => negb (strict_eq (id_of a) (id_of action))) items).
Proof.
  intros items action Hact.
  assert (get_prop action "id" = Normal (id_of action)) as Hid.
  { destruct Hact as [H1 H2]. destruct action; simpl; congruence. }
  induction items as [|a items IH]; intros Hall; simpl; [reflexivity|].
  inversion Hall as [|? ? Ha Hitems]; subst.
  assert (get_prop a "id" = Normal (id_of a)) as Ha'.
  { destruct Ha as [H1 H2]. destruct a; simpl; congruence. }
  rewrite Ha', Hid, (IH Hitems).
  now destruct (strict_eq (id_of a) (id_of action)).
Qed.

(** X15: removing after queueing gives back the list.  The candidate of the
    removal mutation of [syncPendingActions] keeps, in order, the pending
    actions whose [id] differs from the replayed action's, and drops every
    action with that [id]; so, on a list to which [queueAction]'s mutation
    appended an action whose [id] no earlier action carries, removing that
    action asks for exactly the earlier list. *)
Theorem remove_candidate : forall action st next l items,
  field st "pendingActions" = VArray l items ->
  readable action ->
  Forall readable items ->
  remove_action action st next =
    Normal (VObject (S next)
              [("pendingActions",
                VArray next
                  (filter (fun a => negb (strict_eq (id_of a) (id_of action)))
                          items))],
            S (S next)) /\
  (forall earlier,
      items = earlier ++ [action] ->
      Forall (fun a => strict_eq (id_of a) (id_of action) = false) earlier ->
      filter (fun a => negb (strict_eq (id_of a) (id_of action))) items =
      earlier) /\
  (forall st' next' l',
      field st' "pendingActions" = VArray l' items ->
      append_action action st' next' =
        Normal (VObject (S next')
                  [("pendingActions", VArray next' (items ++ [action]))],
                S (S next'))).
Proof.
  intros action st next l items Hq Hact Hall. split; [|split].
  - unfold remove_action. rewrite Hq.
    unfold abind, of_outcome, new_object, aret.
    now rewrite (without_id_filter Hact Hall).
  - intros earlier -> Hearlier. rewrite filter_app. simpl.
    rewrite strict_eq_refl. simpl. rewrite app_nil_r.
    apply forallb_filter_id. apply forallb_forall. intros a Hin.
    rewrite Forall_forall in Hearlier. now rewrite (Hearlier a Hin).
  - intros st' next' l' Hq'. unfold append_action, abind, new_object, aret.
    now rewrite Hq'.
Qed.

Lemma remove_candidate_witness :
  remove_action action_B (state queued_page) 200 =
    Normal (VObject 201
              [("pendingActions", VArray 200 [action_A; action_C])], 202).
Proof.
  refine (proj1 (@remove_candidate action_B (state queued_page) 200 30
                   [action_A; action_B; action_C] eq_refl _ _)).
  - split; discriminate.
  - repeat constructor; discriminate.
Defined.

(** ** What the read-through cache asks for, and when it answers *)

Lemma map_get_set_same : forall es k v, map_get (map_set es k v) k = v.
Proof.
  induction es as [|[k0 v0] es IH]; intros k v; simpl.
  - now rewrite strict_eq_refl.
  - destruct (strict_eq k0 k) eqn:E; simpl; rewrite E; [reflexivity|apply IH].
Qed.

Lemma map_get_set_other : forall es k v k',
  strict_eq k k' = false -> map_get (map_set es k v) k' = map_get es k'.
Proof.
  induction es as [|[k0 v0] es IH]; intros k v k' H; simpl.
  - now rewrite H.
  - destruct (strict_eq k0 k) eqn:E; simpl.
    + assert (strict_eq k0 k' = false) as ->; [|reflexivity].
      rewrite (strict_eq_congr k0 k k' E). exact H.
    + now rewrite IH.
Qed.

Lemma map_set_keys : forall es k v,
  map fst (map_set es k v) = map fst es \/
  map fst (map_set es k v) = map fst es ++ [k].
Proof.
  induction es as [|[k0 v0] es IH]; intros k v; simpl.
  - now right.
  - destruct (strict_eq k0 k); simpl; [now left|].
    destruct (IH k v) as [-> | ->]; [now left | now right].
Qed.

(** X16: the mutation a cache miss submits stores one entry.  On a snapshot
    whose [cache] is a Map, the candidate of [getWithCache] has the single
    field [cache], a new Map in which the key [cacheKey] holds a new record
    of the data and the time read at the start of the call, in which every
    other key holds what it held, and whose keys are the old ones in their
    order, with [cacheKey] added last if it was not among them. *)
Theorem store_candidate : forall cacheKey data now st next l es,
  field st "cache" = VMap l es ->
  exists es',
    cache_store cacheKey data now st next =
      Normal (VObject (S (S next)) [("cache", VMap next es')],
              S (S (S next))) /\
    map_get es' (VStr cacheKey) =
      VObject (S next) [("data", data); ("timestamp", VNum now)] /\
    (forall k, strict_eq (VStr cacheKey) k = false ->
               map_get es' k = map_get es k) /\
    (map fst es' = map fst es \/ map fst es' = map fst es ++ [VStr cacheKey]).
Proof.
  intros cacheKey data now st next l es Hc.
  exists (map_set es (VStr cacheKey)
            (VObject (S next) [("data", data); ("timestamp", VNum now)])).
  split; [|split; [|split]].
  - unfold cache_store, abind, of_outcome, new_object, aret.
    now rewrite Hc.
  - apply map_get_set_same.
  - intros k Hk. now apply map_get_set_other.
  - apply map_set_keys.
Qed.

Lemma store_candidate_witness :
  exists es',
    cache_store "cache_videos" (VStr "feed") 7%Z (initial_state true) 100 =
      Normal (VObject 102 [("cache", VMap 100 es')], 103) /\
    map_get es' (VStr "cache_videos") =
      VObject 101 [("data", VStr "feed"); ("timestamp", VNum 7%Z)].
Proof.
  destruct (@store_candidate "cache_videos" (VStr "feed") 7%Z (initial_state true) 100
              5 [] eq_refl) as (es' & Hc & Hg & _).
  exists es'. now split.
Defined.

(** X17: a fresh entry is served without touching anything.  When the cache
    holds under [cache_<key>] a record whose [timestamp] is the number [t],
    and less than the window has passed since [t], [getWithCache] returns the
    record's [data] and leaves the whole world as it was: the producer is not
    called and no mutation is submitted.  The window is [options.ttl], or
    [cacheTimeout] when [ttl] is absent or [0]. *)
Theorem fresh_entry_served : forall key fetcher ttl w l es le fs t,
  field (state w) "cache" = VMap l es ->
  map_get es (VStr ("cache_" ++ key)) = VObject le fs ->
  field fs "timestamp" = VNum t ->
  (clock w - t <
     match ttl with
     | Some n => if (n =? 0)%Z then cacheTimeout (mgr w) else n
     | None => cacheTimeout (mgr w)
     end)%Z ->
  getWithCache key fetcher ttl w = (w, Some (Normal (field fs "data"))).
Proof.
  intros key fetcher ttl w l es le fs t Hc Hg Ht Hlt.
  apply (@getWithCache_hit key fetcher ttl w (VObject le fs)).
  - unfold cache_get. now rewrite Hc, Hg.
  - unfold cache_hit. simpl. rewrite Ht. simpl. rewrite Z.mul_1_r.
    f_equal. apply Z.ltb_lt. exact Hlt.
Qed.

Lemma fresh_entry_served_witness :
  getWithCache "videos" failing_feed (Some 0%Z) cached_page =
  (cached_page, Some (Normal (VStr "feed"))).
Proof.
  refine (@fresh_entry_served "videos" failing_feed (Some 0%Z) cached_page
            30 _ 31 _ 0%Z eq_refl eq_refl eq_refl _).
  vm_compute. reflexivity.
Defined.

Lemma run_microtasks_nothing : forall w,
  microtasks w = [] -> run_microtasks w = w.
Proof.
  intros w H. unfold run_microtasks. rewrite H. simpl.
  destruct w; simpl in *. now subst.
Qed.

(** X18: a failed fetch is the caller's error.  On a miss -- the cache holds
    no entry under [cache_<key>], or one whose [timestamp] is a number at
    least the window old -- with nothing in flight, [getWithCache] calls the
    producer once; when the producer fails, the call is rejected with the
    producer's own error and nothing else happened: no mutation was
    submitted, so the snapshot, the history and the cache are the ones from
    before the call. *)
Theorem failed_fetch_propagates : forall key fetcher ttl w l es e,
  microtasks w = [] ->
  field (state w) "cache" = VMap l es ->
  (map_get es (VStr ("cache_" ++ key)) = VUndef \/
   exists le fs t,
     map_get es (VStr ("cache_" ++ key)) = VObject le fs /\
     field fs "timestamp" = VNum t /\
     (match ttl with
      | Some n => if (n =? 0)%Z then cacheTimeout (mgr w) else n
      | None => cacheTimeout (mgr w)
      end <= clock w - t)%Z) ->
  pr_result fetcher = Throw e ->
  getWithCache key fetcher ttl w =
  (record_fetch (pr_id fetcher) w, Some (Throw e)).
Proof.
  intros key fetcher ttl w l es e Hq Hc Hmiss He.
  assert (exists cached,
            cache_get (state w) ("cache_" ++ key)%string = Normal cached /\
            cache_hit cached (clock w) ttl (cacheTimeout (mgr w)) =
              Normal false) as (cached & Hget & Hhit).
  { unfold cache_get. rewrite Hc.
    destruct Hmiss as [Habsent | (le & fs & t & Hg & Ht & Hold)].
    - exists VUndef. now rewrite Habsent.
    - exists (VObject le fs). rewrite Hg. split; [reflexivity|].
      unfold cache_hit. simpl. rewrite Ht. simpl. rewrite Z.mul_1_r.
      f_equal. apply Z.ltb_ge. exact Hold. }
  unfold getWithCache, bind, read, lift_outcome, call_producer.
  rewrite Hget, Hhit, He.
  now rewrite run_microtasks_nothing.
Qed.

Lemma failed_fetch_propagates_witness :
  getWithCache "videos" failing_feed None (set_clock 30000%Z cached_page) =
  (record_fetch 9 (set_clock 30000%Z cached_page),
   Some (Throw (Failure "offline"))).
Proof.
  refine (@failed_fetch_propagates "videos" failing_feed None
            (set_clock 30000%Z cached_page) 30 _ (Failure "offline")
            eq_refl eq_refl _ eq_refl).
  right. exists 31, [("data", VStr "feed"); ("timestamp", VNum 0%Z)], 0%Z.
  repeat split. vm_compute. discriminate.
Defined.

(** ** The replay loop *)

Lemma run_job_requests : forall j w, requests (run_job j w) = requests w.
Proof.
  intros [u p] w. unfold run_job.
  pose proof (try_commit_cases u w) as H.
  destruct (candidate u (state w) (next_loc w)) as [[c next]|e].
  - destruct (validates c) as [[|]|e].
    + rewrite H. reflexivity.
    + destruct H as [line H]. rewrite H. reflexivity.
    + rewrite H. reflexivity.
  - rewrite H. reflexivity.
Qed.

Lemma run_jobs_requests : forall js w,
  requests (fold_left (fun w j => run_job j w) js w) = requests w.
Proof.
  induction js as [|j js IH]; intros w; simpl; [reflexivity|].
  now rewrite IH, run_job_requests.
Qed.

Lemma run_microtasks_requests : forall w,
  requests (run_microtasks w) = requests w.
Proof. intros w. unfold run_microtasks. now rewrite run_jobs_requests. Qed.

Lemma setState_requests : forall u w,
  requests (fst (setState u w)) = requests w.
Proof.
  intros u w. unfold setState. now destruct (isMutating (mgr w)).
Qed.

Lemma processAction_pending : forall api l req now id w,
  processAction api (pending l req now id) w =
  (run_microtasks (record_request req w),
   match api (List.length (requests w)) req with
   | Normal _ => Some (Normal tt)
   | Throw e => Some (Throw e)
   end).
Proof.
  intros api l req now id w.
  destruct req; unfold processAction, bind, lift_outcome, apiRequest, ret;
    simpl; now destruct (api _ _).
Qed.

(** X19: the replay sends the pending actions in order and stops at the
    first failure.  For any list of queued likes and saves, the loop of
    [syncPendingActions] sends the request of each action in the order of the
    list, one after the other; the first request that fails is the last one
    sent; nothing else on the way (the removal mutations, the microtask
    checkpoints) sends a request; and the loop itself never throws, so a
    failed delivery never rejects [syncPendingActions]. *)
Theorem replay_in_order : forall api (qs : list (loc * Z * value * request)) w,
  let action := fun q : loc * Z * value * request =>
    match q with (l, now, id, req) => pending l req now id end in
  requests (fst (replay api (map action qs) w)) =
    requests w ++ attempted api (List.length (requests w)) (map snd qs) /\
  snd (replay api (map action qs) w) = Some (Normal tt).
Proof.
  intros api qs. cbv zeta.
  induction qs as [|[[[l now] id] req] qs IH]; intros w.
  - simpl. now rewrite app_nil_r.
  - cbn [map replay snd]. rewrite processAction_pending.
    destruct (api (List.length (requests w)) req) as [v|e] eqn:Hapi.
    + destruct (IH (fst (setState (UFun (remove_action (pending l req now id)))
                           (run_microtasks (record_request req w)))))
        as [IHr IHs].
      split; [|exact IHs].
      rewrite IHr, setState_requests, run_microtasks_requests.
      cbn [requests record_request attempted]. rewrite Hapi.
      rewrite length_app, Nat.add_1_r, <- app_assoc. reflexivity.
    + assert (get_prop (pending l req now id) "type" =
              Normal (VStr match req with
                           | PatchLike _ _ => "like"
                           | PatchSave _ _ => "save"
                           end)) as Htype by now destruct req.
      rewrite Htype. cbn [attempted fst snd]. rewrite Hapi.
      split; [|reflexivity].
      unfold log. cbn [requests]. now rewrite run_microtasks_requests.
Qed.

(** X20: an action of an unknown type is dropped as delivered.  For a
    pending action whose [type] is neither [like] nor [save],
    [processAction] sends no request and returns normally, so that the
    replay goes on to remove the action from the list. *)
Theorem unknown_action_delivered : forall api l fs w,
  strict_eq (field fs "type") (VStr "like") = false ->
  strict_eq (field fs "type") (VStr "save") = false ->
  snd (processAction api (VObject l fs) w) = Some (Normal tt) /\
  requests (fst (processAction api (VObject l fs) w)) = requests w.
Proof.
  intros api l fs w Hlike Hsave.
  unfold processAction, bind, lift_outcome. simpl.
  rewrite Hlike, Hsave. unfold tick, act. simpl.
  split; [reflexivity | apply run_microtasks_requests].
Qed.

Lemma unknown_action_delivered_witness :
  snd (processAction failing
         (VObject 60 [("type", VStr "follow"); ("id", VStr "z")])
         (boot true 0%Z)) = Some (Normal tt).
Proof.
  exact (proj1 (@unknown_action_delivered failing 60
                  [("type", VStr "follow"); ("id", VStr "z")]
                  (boot true 0%Z) eq_refl eq_refl)).
Defined.

(** ** Witnesses of the general theorems on rejected mutations *)

Lemma own_methods_never_commit_witness :
  mgr (run_microtasks (fst (likeVideo answering "X" "r4nd0m" (boot true 0%Z)))) =
  mgr (boot true 0%Z).
Proof.
  refine (proj1 (@own_methods_never_commit (boot true 0%Z) _) answering "X"
            "r4nd0m").
  split; reflexivity.
Defined.

Lemma setState_promise_settles_witness :
  exists r,
    settlement_of (snd (setState (UVal (full_candidate 10 [])) (boot true 0%Z)))
      (settled (run_microtasks
                  (fst (setState (UVal (full_candidate 10 []))
                          (boot true 0%Z))))) = Some r.
Proof.
  refine (@setState_promise_settles (UVal (full_candidate 10 []))
            (boot true 0%Z) _).
  split; simpl; intros; contradiction.
Defined.

(** ** Cleanup *)

Lemma flat_map_nothing : forall (A B : Type) (l : list A),
  flat_map (fun _ : A => @nil B) l = [].
Proof. induction l; simpl; auto. Qed.

Lemma notified_nobody : forall previousState currentState,
  notified [] previousState currentState = [].
Proof.
  intros. unfold notified, key_calls. simpl. rewrite app_nil_r.
  apply flat_map_nothing.
Qed.

Lemma reported_nobody : forall previousState currentState,
  reported [] previousState currentState = [].
Proof.
  intros. unfold reported, key_reports. simpl. rewrite app_nil_r.
  apply flat_map_nothing.
Qed.

(** X23: after [cleanup] a mutation still commits, but silently.  [cleanup]
    forgets every subscriber and nothing else: the save timer a previous
    commit armed is still armed (the debounced saver has no [cancel]).  A
    valid mutation submitted afterwards changes the snapshot as before,
    while no callback is called and nothing is printed. *)
Theorem cleanup_silences : forall w u c next,
  idle w ->
  candidate u (state w) (next_loc w) = Normal (c, next) ->
  validates c = Normal true ->
  let w' := run_microtasks (fst (setState u (cleanup w))) in
  saveTimer (mgr (cleanup w)) = saveTimer (mgr w) /\
  state (cleanup w) = state w /\
  history (mgr (cleanup w)) = history (mgr w) /\
  state w' = spread (state w) (own_fields c) /\
  calls w' = calls w /\
  console w' = console w.
Proof.
  intros w u c next Hidle Hc Hv. cbv zeta.
  assert (idle (cleanup w)) as Hidle' by exact Hidle.
  rewrite (@run_commit u (cleanup w) c next Hidle' Hc Hv).
  unfold commit, cleanup, state. simpl.
  rewrite notified_nobody, reported_nobody, !app_nil_r.
  repeat split.
Qed.

Lemma cleanup_silences_witness :
  calls (run_microtasks
           (fst (setState (UVal new_videos) (cleanup page_with_subscribers)))) =
  calls page_with_subscribers.
Proof.
  refine (proj1 (proj2 (proj2 (proj2 (proj2
            (@cleanup_silences page_with_subscribers (UVal new_videos)
               new_videos 100 _ eq_refl eq_refl)))))).
  split; reflexivity.
Defined.

(** ** Submissions of a part of the snapshot *)

Lemma literal_rejected : forall l fs,
  lookup "user" fs = None -> always_rejected (UVal (VObject l fs)).
Proof.
  intros l fs Hnone s next c next' H. simpl in H. unfold aret in H.
  inversion H; subst. rewrite partial_candidate_rejected by exact Hnone.
  discriminate.
Qed.

Lemma ui_update_rejected : forall newSettings,
  always_rejected (UFun (ui_update newSettings)).
Proof.
  intros newSettings s next c next' H. simpl in H.
  unfold ui_update, abind, new_object, aret in H.
  inversion H; subst. rewrite partial_candidate_rejected by reflexivity.
  discriminate.
Qed.

(** X25: [updateUISettings] changes no setting.  Its candidate is the
    one-field object [{ui}], which [validateState] refuses: once the
    mutation has run, the manager (snapshot, history, subscribers) is what it
    was, [getUISettings] returns the very same record as before, no
    subscriber was called, and the promise was rejected. *)
Theorem settings_never_change : forall newSettings w,
  idle w ->
  let w' := run_microtasks (updateUISettings newSettings w) in
  mgr w' = mgr w /\
  getUISettings w' = getUISettings w /\
  calls w' = calls w /\
  exists e,
    settled w' =
    settled w ++ [(snd (setState (UFun (ui_update newSettings)) w),
                   Rejected e)].
Proof.
  intros newSettings w Hidle. cbv zeta. unfold updateUISettings.
  destruct (@rejected_submission (UFun (ui_update newSettings)) w Hidle)
    as (Hm & Hc & He).
  { intros c next Hc. exact (@ui_update_rejected newSettings _ _ _ _ Hc). }
  repeat split; [exact Hm | | exact Hc | exact He].
  unfold getUISettings, state. now rewrite Hm.
Qed.

Lemma settings_never_change_witness :
  getUISettings
    (run_microtasks
       (updateUISettings (VObject 70 [("theme", VStr "light")])
          (boot true 0%Z))) =
  getUISettings (boot true 0%Z).
Proof.
  refine (proj1 (proj2 (@settings_never_change
                          (VObject 70 [("theme", VStr "light")])
                          (boot true 0%Z) _))).
  split; reflexivity.
Defined.

Lemma keeps_toggleTheme : forall m0, keeps m0 toggleTheme.
Proof.
  intros m0. unfold toggleTheme.
  repeat (keeps_step || (apply keeps_submit, literal_rejected; reflexivity)).
Qed.

Lemma keeps_reset_collections : forall m0, keeps m0 reset_collections.
Proof.
  intros m0. unfold reset_collections.
  repeat (keeps_step || (apply keeps_submit, literal_rejected; reflexivity)).
Qed.

(** X26: the application's own submissions are refused too.  [toggleTheme]
    submits [{ui}] and [handleStateError] submits
    [{videos, likedVideos, savedVideos}]; neither object has all the keys the
    validator asks for, so the theme in the snapshot never changes and the
    recovery never empties the collections: once the mutation has run the
    manager is what it was. *)
Theorem page_submissions_refused : forall w,
  idle w ->
  mgr (run_microtasks (fst (toggleTheme w))) = mgr w /\
  mgr (run_microtasks (fst (reset_collections w))) = mgr w.
Proof.
  intros w Hidle. split.
  - apply kept_manager; [exact Hidle | apply keeps_toggleTheme].
  - apply kept_manager; [exact Hidle | apply keeps_reset_collections].
Qed.

Lemma page_submissions_refused_witness :
  mgr (run_microtasks (fst (toggleTheme (boot true 0%Z)))) =
  mgr (boot true 0%Z).
Proof.
  refine (proj1 (@page_submissions_refused (boot true 0%Z) _)).
  split; reflexivity.
Defined.

Lemma keeps_on_offline : forall m0, keeps m0 on_offline.
Proof.
  intros m0. unfold on_offline.
  repeat (keeps_step || (apply keeps_submit, literal_rejected; reflexivity)).
Qed.

Lemma keeps_on_online : forall m0 api, keeps m0 (on_online api).
Proof.
  intros m0 api. unfold on_online.
  apply keeps_bind; [apply keeps_lift_alloc|]. intros llit.
  apply keeps_bind;
    [apply keeps_submit, literal_rejected; reflexivity|].
  intros p w Hw. simpl. now apply keeps_syncPendingActions.
Qed.

(** X27: the snapshot never learns that the connection changed.  The
    listeners of the [online] and [offline] events submit [{online: true}]
    and [{online: false}], which the validator refuses: after either event,
    and after the replay the first one starts, the manager is what it was,
    so [state.online] keeps the value it had when the page was loaded and
    the subscribers of [online] are not called. *)
Theorem connectivity_never_recorded : forall w api,
  idle w ->
  let on := run_microtasks (fst (on_online api w)) in
  let off := run_microtasks (fst (on_offline w)) in
  mgr on = mgr w /\ mgr off = mgr w /\
  field (state on) "online" = field (state w) "online" /\
  field (state off) "online" = field (state w) "online" /\
  calls off = calls w.
Proof.
  intros w api Hidle. cbv zeta.
  assert (mgr (run_microtasks (fst (on_online api w))) = mgr w) as Hon
    by (apply kept_manager; [exact Hidle | apply keeps_on_online]).
  assert (mgr (run_microtasks (fst (on_offline w))) = mgr w) as Hoff
    by (apply kept_manager; [exact Hidle | apply keeps_on_offline]).
  unfold state. rewrite Hon, Hoff. repeat split.
  unfold on_offline, bind, lift_alloc, new_object, submit, ret. simpl.
  destruct (setState _ _) as [w1 p] eqn:Hs. simpl.
  pose proof (@rejected_submission
                (UVal (VObject (next_loc w) [("online", VBool false)]))
                (set_next_loc (S (next_loc w)) w)) as H.
  rewrite Hs in H. simpl in H.
  destruct H as (_ & Hc & _); [exact Hidle | | exact Hc].
  intros c next Hcand. unfold aret in Hcand. inversion Hcand; subst.
  rewrite partial_candidate_rejected by reflexivity. discriminate.
Qed.

Lemma connectivity_never_recorded_witness :
  field (state (run_microtasks (fst (on_online answering (boot false 0%Z)))))
        "online" = VBool false.
Proof.
  refine (proj1 (proj2 (proj2 (@connectivity_never_recorded (boot false 0%Z)
                                 answering _)))).
  split; reflexivity.
Defined.

(** ** Loading from storage *)

Lemma abind_normal : forall (A B : Type) (c : Alloc A) (k : A -> Alloc B)
  next r,
  abind c k next = Normal r ->
  exists a n, c next = Normal (a, n) /\ k a n = Normal r.
Proof.
  unfold abind. intros A B c k next r H.
  destruct (c next) as [[a n]|e]; [eauto | discriminate].
Qed.

Lemma restore_rejected : forall user likedVideos savedVideos indexes ui,
  always_rejected (UFun (restore user likedVideos savedVideos indexes ui)).
Proof.
  intros user likedVideos savedVideos indexes ui s next c next' H.
  simpl in H. unfold restore in H. cbv zeta in H.
  repeat (apply abind_normal in H; destruct H as (? & ? & _ & H)).
  unfold aret in H. inversion H; subst.
  rewrite (@validates_missing_key _ _ "videos");
    [discriminate | simpl; tauto | reflexivity].
Qed.

Lemma set_next_loc_same : forall w, set_next_loc (next_loc w) w = w.
Proof. now destruct w. Qed.

Lemma load_item_idle : forall key w,
  microtasks w = [] ->
  exists n r, load_item key w = (set_next_loc n w, Some (Normal r)).
Proof.
  intros key w Hq. unfold load_item, getStorage.
  destruct (storage_get (storage w) _) as [[j|]|].
  - destruct (parse j (next_loc w)) as [v next].
    rewrite run_microtasks_nothing by exact Hq. eauto.
  - rewrite run_microtasks_nothing by exact Hq.
    exists (next_loc w). rewrite set_next_loc_same. eauto.
  - rewrite run_microtasks_nothing by exact Hq.
    exists (next_loc w). rewrite set_next_loc_same. eauto.
Qed.

Lemma awaited_rejection : forall u w,
  idle w -> promises_below w -> always_rejected u ->
  let w' := run_microtasks (fst (setState u w)) in
  exists e,
    (p <- submit u ;; await p)%async w = (w', Some (Throw e)) /\
    mgr w' = mgr w /\ calls w' = calls w.
Proof.
  intros u w Hidle [Hset _] Hrej. cbv zeta.
  destruct (@rejected_submission u w Hidle) as (Hm & Hc & e & He).
  { intros c next Hcand. exact (Hrej _ _ _ _ Hcand). }
  exists e. split; [|split; [exact Hm | exact Hc]].
  unfold bind, submit, await.
  destruct (setState u w) as [w1 p] eqn:Hs. simpl in *.
  rewrite He.
  assert (p = next_promise w) as ->.
  { rewrite (setState_idle u Hidle) in Hs. now inversion Hs. }
  rewrite settlement_of_app.
  - simpl. now rewrite Nat.eqb_refl.
  - apply settlement_of_none. intros q r Hin. apply Hset in Hin. lia.
Qed.

(** X28: nothing stored is ever loaded back.  Whatever the storage holds,
    [loadFromStorage], called while nothing is in flight, submits a candidate
    without [videos] and [online]; the mutation is rejected, the rejection is
    caught, and the call ends by printing a storage load error: the manager
    (snapshot, history, subscribers) is what it was and no subscriber was
    called, so the likes, saves, media indexes and settings of an earlier
    visit are not restored. *)
Theorem stored_state_never_restored : forall w,
  idle w ->
  promises_below w ->
  exists lines e,
    snd (loadFromStorage w) = Some (Normal (lines ++ [StorageLoadError e])) /\
    mgr (fst (loadFromStorage w)) = mgr w /\
    calls (fst (loadFromStorage w)) = calls w.
Proof.
  intros w Hidle Hbelow.
  enough (exists w' lines e,
            loadFromStorage w =
              (w', Some (Normal (lines ++ [StorageLoadError e]))) /\
            mgr w' = mgr w /\ calls w' = calls w)
    as (w' & lines & e & -> & Hm & Hc) by (exists lines, e; auto).
  unfold loadFromStorage.
  unfold bind at 1. unfold lift_alloc at 1, new_object at 1.
  unfold bind at 1. unfold lift_alloc at 1, new_object at 1.
  cbn [next_loc set_next_loc].
  set (w0 := set_next_loc _ _).
  assert (exists n, w0 = set_next_loc n w) as [n0 H0] by (now eexists).
  clearbody w0. subst w0.
  destruct Hidle as [Hflag Hq].
  repeat match goal with
  | |- context [bind (load_item ?key) ?k (set_next_loc ?n w)] =>
      let n' := fresh "n" in
      let r := fresh "r" in
      let H := fresh "H" in
      destruct (@load_item_idle key (set_next_loc n w) Hq) as (n' & r & H);
      unfold bind at 1; rewrite H; cbn [set_next_loc next_loc mgr microtasks
        next_promise settled console calls clock storage requests fetches];
      change (set_next_loc n' (set_next_loc n w)) with (set_next_loc n' w);
      clear H
  end.
  match goal with
  | |- context [try_catch _ _ (set_next_loc ?n w)] =>
      set (w1 := set_next_loc n w)
  end.
  match goal with
  | |- context [submit ?u'] => set (u := u')
  end.
  destruct (@awaited_rejection u w1) as (e & Hrun & Hm & Hc);
    [ split; assumption | exact Hbelow | apply restore_rejected | ].
  cbv zeta in Hrun, Hm, Hc.
  match goal with
  | |- context [try_catch ?body ?handler w1] =>
      assert (exists lines, try_catch body handler w1 =
              (run_microtasks (fst (setState u w1)),
               Some (Normal (lines ++ [StorageLoadError e])))) as [lines Hl]
  end.
  { eexists. unfold try_catch.
    unfold bind at 1. unfold bind in Hrun.
    destruct (submit u w1) as [w2 [[p|e2]|]] eqn:Hs;
      try (unfold submit in Hs; destruct (setState u w1); discriminate).
    unfold bind at 1. rewrite Hrun. reflexivity. }
  exists (run_microtasks (fst (setState u w1))), lines, e.
  split; [exact Hl|]. now rewrite Hm, Hc.
Qed.

Lemma stored_state_never_restored_witness :
  exists lines e,
    snd (loadFromStorage
           (saveToStorage "likedVideos" (VArray 80 [VStr "X"])
              (boot true 0%Z))) =
      Some (Normal (lines ++ [StorageLoadError e])) /\
    field (state (fst (loadFromStorage
                         (saveToStorage "likedVideos" (VArray 80 [VStr "X"])
                            (boot true 0%Z))))) "likedVideos" = VSet 1 [].
Proof.
  destruct (@stored_state_never_restored
              (saveToStorage "likedVideos" (VArray 80 [VStr "X"])
                 (boot true 0%Z)))
    as (lines & e & Hr & Hm & _).
  - split; reflexivity.
  - split; simpl; intros; contradiction.
  - exists lines, e. split; [exact Hr|]. unfold state. now rewrite Hm.
Defined.

(** ** What [queueAction] persists *)

(** X29: the list [queueAction] writes to storage misses the action just
    queued.  [queueAction] submits the mutation that appends the action and,
    before that mutation had a chance to run, writes
    [this.state.pendingActions] to storage: what is stored under
    [socialflow_pendingActions] is the list as it was before the call, and
    the snapshot is still the one from before the call when [queueAction]
    returns. *)
Theorem queue_persisted_stale : forall type data id w,
  let w' := fst (queueAction type data id w) in
  storage w' =
    storage_set (storage w) "socialflow_pendingActions"
      (stringify (field (state w) "pendingActions")) /\
  state w' = state w /\
  snd (queueAction type data id w) = Some (Normal tt).
Proof.
  intros type data id w. cbv zeta.
  unfold queueAction, bind, read, lift_alloc, new_object, submit, act,
    setState.
  simpl. destruct (isMutating (mgr w)); simpl; repeat split.
Qed.
